(** * Tap-on-face attendance: the region-to-roster assignment engine

    A shallow embedding of [streamlit_app.py]: the roster and its search
    ([Roster]), detected face rectangles with their assignment ([FaceBox]),
    and the methods of [App] that map coordinates, pick a face under a click,
    bind faces to roster rows, list the present students and build the
    attendance report.

    Conventions of the embedding:
    - Python [int] is [Z] (coordinates, sizes) or [nat] (row labels, ids);
    - Python [float] is IEEE binary64, here the kernel's [float], whose
      operations are specified by [SpecFloat]; the float expressions are
      written over the interface [PyFloat];
    - Python [str] is [string]; the text that the program strips, lowers or
      parses is taken to be ASCII, and the theorems that depend on it say so;
    - a Python exception is the [Raise] branch of [result];
    - [self.faces] is a list, a face object is identified by its position;
    - modal message boxes that return an answer are nodes of a [dialog] tree;
    - widgets, canvas handles and file output are left to tkinter and pandas:
      only the values handed to them are kept. *)

From Stdlib Require Import ZArith Zpower Lia Reals Lra String Ascii.
From Stdlib Require Import Decimal DecimalString DecimalNat.
From Stdlib Require Import Uint63.
From Stdlib Require Import Floats.PrimFloat Floats.SpecFloat Floats.FloatOps.
From Stdlib Require Import Floats.FloatAxioms.
From stdpp Require Import base option list gmap sets strings.

Local Open Scope string_scope.
Local Open Scope Z_scope.

(** ** Python runtime *)

Module Py.

(** Exceptions that the modelled code can raise. *)
Inductive exn : Type :=
| ZeroDivisionError
| OverflowError        (* int(inf) *)
| ValueError           (* int(nan), Image.resize to an empty size *)
| KeyError (label : nat)
| ReError.             (* re.error: the pattern is not a regular expression *)

Inductive result (A : Type) : Type :=
| Ok (a : A)
| Raise (e : exn).
Arguments Ok {A} a.
Arguments Raise {A} e.

#[global] Instance exn_eq_dec : EqDecision exn.
Proof. solve_decision. Defined.

#[global] Instance result_eq_dec {A : Type} `{EqDecision A} :
  EqDecision (result A).
Proof. solve_decision. Defined.

Definition bind {A B : Type} (m : result A) (f : A -> result B) : result B :=
  match m with
  | Ok a => f a
  | Raise e => Raise e
  end.

(** *** Strings: [str.strip], [str.lower], literal containment *)

(** Text made of ASCII characters. *)
Definition ascii_only (s : string) : Prop :=
  Forall (λ c, (nat_of_ascii c < 128)%nat) (list_ascii_of_string s).

(** [str.isspace], and below [str.strip] and [str.lower], as they are on
    ASCII text: the blanks are the characters 9 to 13 and 28 to 32, the
    letters that are lowered are [A] to [Z].  Python also strips and lowers
    characters beyond the ASCII range, which these definitions leave
    alone. *)
Definition isspace (c : ascii) : bool :=
  let n := nat_of_ascii c in
  ((9 <=? n) && (n <=? 13) || (28 <=? n) && (n <=? 32))%nat.

Fixpoint lstrip (s : string) : string :=
  match s with
  | EmptyString => EmptyString
  | String c s' => if isspace c then lstrip s' else s
  end.

Fixpoint rstrip (s : string) : string :=
  match s with
  | EmptyString => EmptyString
  | String c s' =>
      match rstrip s' with
      | EmptyString => if isspace c then EmptyString else String c EmptyString
      | t => String c t
      end
  end.

Definition strip (s : string) : string := rstrip (lstrip s).

Definition lower_char (c : ascii) : ascii :=
  let n := nat_of_ascii c in
  if ((65 <=? n) && (n <=? 90))%nat then ascii_of_nat (n + 32) else c.

Fixpoint lower (s : string) : string :=
  match s with
  | EmptyString => EmptyString
  | String c s' => String (lower_char c) (lower s')
  end.

(** [p in s] for strings. *)
Fixpoint contains (p s : string) : bool :=
  String.prefix p s ||
  match s with
  | EmptyString => false
  | String _ s' => contains p s'
  end.

(** Characters with a meaning of their own in a regular expression. *)
Definition metachar (c : ascii) : bool :=
  bool_decide (c ∈ list_ascii_of_string ".^$*+?{}[]\|()").

Fixpoint literal (p : string) : bool :=
  match p with
  | EmptyString => true
  | String c p' => negb (metachar c) && literal p'
  end.

(** *** Floats *)

(** The float operations the program uses.  [truediv] is [/] (it raises
    on a zero divisor), [to_int] is [int(x)] (truncation towards zero),
    [fmin a b] is the builtin [min(a, b)].  [of_int] is the implicit
    conversion of an [int] operand; for operands below 2^53 in absolute
    value, as all sizes and coordinates here are, [int / int] and
    [int * float] are the float operation on the converted operands. *)
Class PyFloat (F : Type) : Type := {
  of_int : Z -> F;
  truediv : F -> F -> result F;
  fmul : F -> F -> F;
  flt : F -> F -> bool;
  to_int : F -> result Z;
}.

Definition fmin {F : Type} `{PyFloat F} (a b : F) : F :=
  if flt b a then b else a.

(** IEEE binary64, as CPython computes. *)
#[export] Instance binary64 : PyFloat float := {
  of_int z := SF2Prim (binary_normalize prec emax z 0 false);
  truediv a b :=
    if PrimFloat.eqb b PrimFloat.zero then Raise ZeroDivisionError
    else Ok (PrimFloat.div a b);
  fmul := PrimFloat.mul;
  flt := PrimFloat.ltb;
  to_int f :=
    match Prim2SF f with
    | S754_zero _ => Ok 0
    | S754_finite s m e =>
        let mag := if 0 <=? e then Z.pos m * 2 ^ e else Z.pos m / 2 ^ (- e) in
        Ok (if s then - mag else mag)
    | S754_infinity _ => Raise OverflowError
    | S754_nan => Raise ValueError
    end;
}.

(** *** Strings and integers: [str(n)], [s.split(sep, 1)[0]], [int(s)] *)

(** [str(n)], also what [f"{n}"] prints, for an [int] that is not negative. *)
Definition str_of_nat (n : nat) : string :=
  NilZero.string_of_uint (Nat.to_uint n).

(** [s.split(sep, 1)[0]]: the text before the first occurrence of [sep],
    all of [s] when there is none ([sep] is not empty). *)
Fixpoint before (sep s : string) : string :=
  if String.prefix sep s then EmptyString
  else
    match s with
    | EmptyString => EmptyString
    | String c s' => String c (before sep s')
    end.

Definition digit_of (c : ascii) : option Z :=
  let n := nat_of_ascii c in
  if ((48 <=? n) && (n <=? 57))%nat then Some (Z.of_nat (n - 48)) else None.

(** Decimal digits, with single underscores allowed between two digits;
    [after_digit] tells whether the character before was a digit. *)
Fixpoint parse_digits (s : string) (acc : Z) (after_digit : bool)
  : option Z :=
  match s with
  | EmptyString => if after_digit then Some acc else None
  | String c s' =>
      match digit_of c with
      | Some d => parse_digits s' (10 * acc + d) true
      | None =>
          if bool_decide (c = "_"%char) && after_digit
          then parse_digits s' acc false
          else None
      end
  end.

(** [int(s)] of a string, in base ten: blanks around the number are
    dropped, then comes an optional sign, then the digits. *)
Definition int_of_str (s : string) : result Z :=
  let t := strip s in
  let '(negative, body) :=
    match t with
    | String c b =>
        if bool_decide (c = "-"%char) then (true, b)
        else if bool_decide (c = "+"%char) then (false, b)
        else (false, t)
    | EmptyString => (false, t)
    end in
  match parse_digits body 0 false with
  | Some n => Ok (if negative then - n else n)
  | None => Raise ValueError
  end.

End Py.

Import Py.

(** [x ← m; k] runs [m] and passes an exception on. *)
#[export] Instance result_ret : MRet result := @Ok.
#[export] Instance result_bind : MBind result := fun A B f m => Py.bind m f.

(** ** Model: the roster *)

Module Roster.

(** One row of the data frame.  [load_csv] reads every column as a string
    and fills missing cells with the empty string. *)
Record row : Type := {
  Admission_No : string;
  Name : string;
  Section : string;
}.

(** [self.df]: whether the file had a [Section] column, and the rows.  The
    row labels are the positions [0 .. N-1] ([read_csv]'s default index). *)
Record t : Type := {
  has_section : bool;
  df : list row;
}.

(** [Roster.__init__]: three columns, no rows. *)
Definition init : t := {| has_section := true; df := [] |}.

Section Search.

(** pandas' [Series.str.contains(pat)] treats [pat] as a regular
    expression ([regex=True] is its default): it compiles [pat] once, before
    it looks at any row, and then searches every cell.  [re_compile pat] is
    [re.compile(pat)]: [re.error] for a text that is not a regular
    expression, else the test [s ↦ pat.search(s) is not None].  The engine
    is Python's and is taken as given. *)
Variable re_compile : string -> result (string -> bool).

(** The boolean mask of [search], row by row. *)
Definition mask (found : string -> bool) (r : row) : bool :=
  found (lower (Name r)) || found (Admission_No r).

Definition search (self : t) (query : string) : result (list nat) :=
  let q := lower (strip query) in
  if bool_decide (q = "") then Ok (seq 0 (length (df self)))
  else
    found ← re_compile q;
    Ok (filter (λ ir, mask found ir.2) (imap pair (df self))).*1.

End Search.

Definition get_display (self : t) (idx : nat) : result string :=
  match df self !! idx with
  | None => Raise (KeyError idx)
  | Some r =>
      let sec :=
        if has_section self && negb (bool_decide (Section r = ""))
        then " (" ++ Section r ++ ")" else "" in
      Ok (Name r ++ sec ++ "  —  " ++ Admission_No r)
  end.

(** *** Loading *)

(** What [pd.read_csv(path, dtype=str).fillna("")] returns: the names of
    the columns and, for every line of the file, its cells by column.  Of
    the columns only [Admission_No], [Name] and [Section] are ever read. *)
Record frame : Type := {
  columns : list string;
  records : list (gmap string string);
}.

Definition cell (rec : gmap string string) (column : string) : string :=
  default "" (rec !! column).

Definition row_of (rec : gmap string string) : row :=
  {| Admission_No := cell rec "Admission_No"; Name := cell rec "Name";
     Section := cell rec "Section" |}.

(** [index.setdefault(key, []).append(idx)] *)
Definition index_append (index : gmap string (list nat)) (key : string)
    (idx : nat) : gmap string (list nat) :=
  <[key := (default [] (index !! key) ++ [idx])%list]> index.

(** The loop of [load_csv] over the rows that remain, [idx] being the label
    of the first of them. *)
Fixpoint index_loop (rows : list row) (idx : nat)
    (index : gmap string (list nat)) : gmap string (list nat) :=
  match rows with
  | [] => index
  | r :: rest =>
      index_loop rest (S idx) (index_append index (lower (Name r)) idx)
  end.

(** [load_csv] on the frame that was read: the new [self.df] and
    [self.index_by_name], or [ValueError] with the object left as it was. *)
Definition load_csv (f : frame) : result (t * gmap string (list nat)) :=
  if bool_decide ("Admission_No" ∈ columns f ∧ "Name" ∈ columns f)
  then
    let rows := row_of <$> records f in
    Ok ({| has_section := bool_decide ("Section" ∈ columns f); df := rows |},
        index_loop rows 0 ∅)
  else Raise ValueError.

End Roster.

(** ** Model: a face box with its assignment *)

Module FaceBox.

(** [rect_obj] and [text_obj], the canvas handles, belong to the drawing
    and are not kept. *)
Record t : Type := {
  x : Z;
  y : Z;
  w : Z;
  h : Z;
  id : nat;
  assigned_idx : option nat;
}.

(** [FaceBox.__init__]. *)
Definition new (x y w h : Z) (face_id : nat) : t :=
  {| x := x; y := y; w := w; h := h; id := face_id; assigned_idx := None |}.

Definition contains (self : t) (px py : Z) : bool :=
  (x self <=? px) && (px <=? x self + w self) &&
  (y self <=? py) && (py <=? y self + h self).

(** [self.assigned_idx = v]. *)
Definition set_assigned_idx (v : option nat) (self : t) : t :=
  {| x := x self; y := y self; w := w self; h := h self; id := id self;
     assigned_idx := v |}.

End FaceBox.

(** ** tkinter message boxes that wait for an answer *)

Module Tk.

(** A computation that may stop at [messagebox.askyesno] prompts: it is
    finished with a value, or it shows a prompt and goes on with the
    operator's answer. *)
Inductive dialog (A : Type) : Type :=
| Done (a : A)
| askyesno (title message : string) (k : bool -> dialog A).
Arguments Done {A} a.
Arguments askyesno {A} title message k.

(** The outcome when the [n]-th prompt shown is answered [reply n]. *)
Fixpoint run {A : Type} (reply : nat -> bool) (n : nat) (d : dialog A) : A :=
  match d with
  | Done a => a
  | askyesno _ _ k => run reply (S n) (k (reply n))
  end.

(** The answers that were given, in order. *)
Fixpoint transcript {A : Type} (reply : nat -> bool) (n : nat) (d : dialog A)
  : list bool :=
  match d with
  | Done _ => []
  | askyesno _ _ k => reply n :: transcript reply (S n) (k (reply n))
  end.

End Tk.

Import Tk.

(** ** Model: the attendance report *)

Module Attendance.

Inductive status : Type := Present | Absent.

#[global] Instance status_eq_dec : EqDecision status.
Proof. solve_decision. Defined.

(** One dictionary appended to [status] in [save_attendance].  A clock
    reading is kept as the number of seconds it shows:
    [isoformat(timespec="seconds")] prints exactly that. *)
Record t : Type := {
  Admission_No : string;
  Name : string;
  Section : string;
  Status : status;
  Photo : string;
  Saved_At : Z;
}.

(** What [save_attendance] ends with. *)
Inductive saved : Type :=
| NoRoster
    (* messagebox.showwarning("No Roster", "Load a roster first."); return *)
| ToExcel (date_str : Z) (rows : list t).
    (* pd.DataFrame(status).to_excel(attendance_<date_str>.xlsx) *)

End Attendance.

(** ** The application *)

Module App.

(** *** Coordinates: [draw_image], [draw_facebox], [canvas_to_image_coords] *)

Section Mapper.

Context {F : Type} `{PyFloat F}.

(** The attributes the coordinate code reads and writes: the size of
    [self.image] when a photo is open, [self.scale] and [self.offset]. *)
Record view : Type := {
  image : option (Z * Z);
  scale : F;
  offset : Z * Z;
}.

(** [App.__init__]: no photo, [scale = 1.0], [offset = (0, 0)]. *)
Definition init_view : view :=
  {| image := None; scale := of_int 1; offset := (0, 0) |}.

(** [cw] and [ch] are what [winfo_width()] and [winfo_height()] return.
    [Image.resize] raises [ValueError] for a width or a height that is not
    positive, before [self.scale] and [self.offset] are assigned; putting
    the resized picture on the canvas is drawing. *)
Definition draw_image (self : view) (cw ch : Z) : result view :=
  match image self with
  | None => Ok self
  | Some (iw, ih) =>
      if (cw <=? 1) || (ch <=? 1) then Ok self
      else
        a ← truediv (of_int cw) (of_int iw);
        b ← truediv (of_int ch) (of_int ih);
        let scale := fmin a b in
        new_w ← to_int (fmul (of_int iw) scale);
        new_h ← to_int (fmul (of_int ih) scale);
        let x_off := (cw - new_w) `div` 2 in
        let y_off := (ch - new_h) `div` 2 in
        if (new_w <=? 0) || (new_h <=? 0) then Raise ValueError
        else
          Ok {| image := image self; scale := scale;
                offset := (x_off, y_off) |}
  end.

(** The display rectangle [(x, y, w, h)] that [draw_facebox] computes
    and draws as [(x, y, x+w, y+h)]. *)
Definition draw_facebox (self : view) (fb : FaceBox.t)
  : result (Z * Z * Z * Z) :=
  x ← to_int (fmul (of_int (FaceBox.x fb)) (scale self));
  y ← to_int (fmul (of_int (FaceBox.y fb)) (scale self));
  w ← to_int (fmul (of_int (FaceBox.w fb)) (scale self));
  h ← to_int (fmul (of_int (FaceBox.h fb)) (scale self));
  Ok (x + (offset self).1, y + (offset self).2, w, h).

Definition canvas_to_image_coords (self : view) (px py : Z)
  : result (Z * Z) :=
  x ← truediv (of_int (px - (offset self).1)) (scale self);
  y ← truediv (of_int (py - (offset self).2)) (scale self);
  ix ← to_int x;
  iy ← to_int y;
  Ok (ix, iy).

End Mapper.

Arguments view : clear implicits.

(** *** Picking the face under a click *)

(** The loop of [on_click]: the faces in reversed order, the first one
    that contains the point, with its position in [self.faces]. *)
Definition hit_test (faces : list FaceBox.t) (ix iy : Z)
  : option (nat * FaceBox.t) :=
  '(i, fb) ← list_find (λ fb, FaceBox.contains fb ix iy) (reverse faces);
  Some ((length faces - 1 - i)%nat, fb).

(** [on_click]: the face for which [assign_dialog] opens, if any. *)
Definition on_click {F : Type} `{PyFloat F} (self : view F)
    (faces : list FaceBox.t) (event_x event_y : Z)
  : result (option (nat * FaceBox.t)) :=
  match faces with
  | [] => Ok None
  | _ =>
      '(ix, iy) ← canvas_to_image_coords self event_x event_y;
      Ok (hit_test faces ix iy)
  end.

(** *** Assignment state *)

(** The attributes the assignment code reads and writes; [present_list]
    holds the lines of the side bar's list box. *)
Record t : Type := {
  roster : Roster.t;
  photo_path : option string;
  faces : list FaceBox.t;
  present_list : list string;
}.

Definition set_faces (fs : list FaceBox.t) (self : t) : t :=
  {| roster := roster self; photo_path := photo_path self; faces := fs;
     present_list := present_list self |}.

Definition set_present_list (items : list string) (self : t) : t :=
  {| roster := roster self; photo_path := photo_path self;
     faces := faces self; present_list := items |}.

(** The loop of [refresh_present_list] over the remaining faces; [items]
    are the lines inserted so far.  When [get_display] raises the lines
    inserted before stay in the list box. *)
Fixpoint present_loop (r : Roster.t) (fbs : list FaceBox.t)
    (seen : gset nat) (items : list string) : result () * list string :=
  match fbs with
  | [] => (Ok (), items)
  | fb :: rest =>
      match FaceBox.assigned_idx fb with
      | Some idx =>
          if decide (idx ∈ seen) then present_loop r rest seen items
          else
            match Roster.get_display r idx with
            | Ok line => present_loop r rest ({[idx]} ∪ seen) (items ++ [line])
            | Raise e => (Raise e, items)
            end
      | None => present_loop r rest seen items
      end
  end.

Definition refresh_present_list (self : t) : result () * t :=
  let '(res, items) := present_loop (roster self) (faces self) ∅ [] in
  (res, set_present_list items self).

(** The duplicate check of [do_assign]: [others] are the faces still to
    visit, each with its position; [fb] is the position of the face being
    assigned.  Nothing is written inside the loop. *)
Fixpoint confirm_duplicates {A : Type} (fb idx : nat)
    (others : list (nat * FaceBox.t)) (commit cancel : dialog A) : dialog A :=
  match others with
  | [] => commit
  | (j, other) :: rest =>
      if bool_decide (j ≠ fb) &&
         bool_decide (FaceBox.assigned_idx other = Some idx)
      then
        askyesno "Duplicate"
          "This student is already assigned to another face. Assign again?"
          (λ yes, if yes then confirm_duplicates fb idx rest commit cancel
                  else cancel)
      else confirm_duplicates fb idx rest commit cancel
  end.

(** [do_assign] of the dialog opened for the face at position [fb].  [sel]
    is the row label at the head of the selected list box line
    ([int(item.split("::", 1)[0])]), or [None] when no line is selected:
    then an information box is shown and nothing else happens. *)
Definition do_assign (self : t) (fb : nat) (sel : option nat)
  : dialog (result () * t) :=
  match sel with
  | None => Done (Ok (), self)
  | Some idx =>
      confirm_duplicates fb idx (imap pair (faces self))
        (Done (refresh_present_list
                 (set_faces
                    (alter (FaceBox.set_assigned_idx (Some idx)) fb
                       (faces self)) self)))
        (Done (Ok (), self))
  end.

(** The loop of [remove_selected]: the first face whose student is shown
    as [disp] loses its assignment, and the loop stops. *)
Fixpoint remove_loop (r : Roster.t) (disp : string) (fbs : list FaceBox.t)
  : result (list FaceBox.t) :=
  match fbs with
  | [] => Ok []
  | fb :: rest =>
      match FaceBox.assigned_idx fb with
      | Some idx =>
          line ← Roster.get_display r idx;
          if bool_decide (line = disp)
          then Ok (FaceBox.set_assigned_idx None fb :: rest)
          else rest' ← remove_loop r disp rest; Ok (fb :: rest')
      | None => rest' ← remove_loop r disp rest; Ok (fb :: rest')
      end
  end.

(** [sel] is [self.present_list.curselection()]; [Listbox.get] of a
    position outside the list is the empty string. *)
Definition remove_selected (self : t) (sel : list nat) : result () * t :=
  match sel with
  | [] => (Ok (), self)
  | s :: _ =>
      let disp := default "" (present_list self !! s) in
      match remove_loop (roster self) disp (faces self) with
      | Raise e => (Raise e, self)
      | Ok fs => refresh_present_list (set_faces fs self)
      end
  end.

(** *** The report *)

(** [os.path.basename] with [/] as separator. *)
Fixpoint basename (p : string) : string :=
  match p with
  | EmptyString => EmptyString
  | String c p' =>
      if bool_decide (c = "/"%char) || Py.contains "/" p' then basename p'
      else p
  end.

(** [set(fb.assigned_idx for fb in self.faces if fb.assigned_idx is not None)] *)
Definition present_idxs (fs : list FaceBox.t) : gset nat :=
  list_to_set (omap FaceBox.assigned_idx fs).

(** [now k] is what the [k]-th call of [datetime.now()] made by this
    invocation shows: the first one names the file, the following ones
    are made inside the loop, one for each row. *)
Definition save_attendance (self : t) (now : nat -> Z) : Attendance.saved :=
  if bool_decide (Roster.df (roster self) = []) then Attendance.NoRoster
  else
    let date_str := now 0%nat in
    let present := present_idxs (faces self) in
    Attendance.ToExcel date_str
      (imap
         (λ i row,
            {| Attendance.Admission_No := Roster.Admission_No row;
               Attendance.Name := Roster.Name row;
               Attendance.Section :=
                 if Roster.has_section (roster self) then Roster.Section row
                 else "";
               Attendance.Status :=
                 if decide (i ∈ present) then Attendance.Present
                 else Attendance.Absent;
               Attendance.Photo :=
                 match photo_path self with
                 | Some p => basename p
                 | None => ""
                 end;
               Attendance.Saved_At := now (S i) |})
         (Roster.df (roster self))).

(** *** Loading a roster, opening a photo, detecting faces *)

Definition set_roster (r : Roster.t) (self : t) : t :=
  {| roster := r; photo_path := photo_path self; faces := faces self;
     present_list := present_list self |}.

(** [picked] is [None] when the file dialog was cancelled, else what
    [read_csv] gave.  An exception is caught and shown in an error box: it
    is the second component.  [index_by_name] is never read and not kept. *)
Definition load_roster (self : t) (picked : option (result Roster.frame))
  : t * option exn :=
  match picked with
  | None => (self, None)
  | Some (Raise e) => (self, Some e)
  | Some (Ok f) =>
      match Roster.load_csv f with
      | Ok (r, _) => (set_roster r self, None)
      | Raise e => (self, Some e)
      end
  end.

(** [detected] is [None] when no photo is open ([cv_bgr is None], a
    warning is shown), else the rectangles of [detectMultiScale].  The
    redrawing that follows is [draw_image]. *)
Definition detect_faces (self : t) (detected : option (list (Z * Z * Z * Z)))
  : t :=
  match detected with
  | None => self
  | Some rects =>
      set_faces
        (imap (λ i '(x, y, w, h), FaceBox.new x y w h (S i)) rects) self
  end.

(** [path] is empty when the file dialog was cancelled; [decoded] is the
    size of the picture that [Image.open] read, or its exception (the copy
    made for OpenCV from a picture that was read is taken to succeed).  An
    exception is caught and shown in an error box: it is the last
    component.  [cw] and [ch] are the canvas sizes that [draw_image] reads. *)
Definition open_photo {F : Type} `{PyFloat F} (self : t) (v : view F)
    (path : string) (decoded : result (Z * Z)) (cw ch : Z)
  : t * view F * option exn :=
  if bool_decide (path = "") then (self, v, None)
  else
    match decoded with
    | Raise e => (self, v, Some e)
    | Ok size =>
        let self1 :=
          {| roster := roster self; photo_path := Some path; faces := [];
             present_list := present_list self |} in
        let v1 :=
          {| image := Some size; scale := scale v; offset := offset v |} in
        match draw_image v1 cw ch with
        | Ok v2 => (set_present_list [] self1, v2, None)
        | Raise e => (self1, v1, Some e)
        end
    end.

(** *** The list box of the assignment dialog *)

(** [f"{idx}::{display}"] *)
Definition listbox_item (idx : nat) (display : string) : string :=
  str_of_nat idx ++ "::" ++ display.

(** The loop of [refresh] in [assign_dialog] over the labels that remain;
    [items] are the lines inserted so far. *)
Fixpoint listbox_loop (r : Roster.t) (idxs : list nat) (items : list string)
  : result () * list string :=
  match idxs with
  | [] => (Ok (), items)
  | idx :: rest =>
      match Roster.get_display r idx with
      | Ok display => listbox_loop r rest (items ++ [listbox_item idx display])
      | Raise e => (Raise e, items)
      end
  end.

(** [refresh] of [assign_dialog] for the text [query] of the entry field:
    the list box is emptied before the roster is searched. *)
Definition assign_dialog_refresh
    (re_compile : string -> result (string -> bool))
    (r : Roster.t) (query : string) : result () * list string :=
  match Roster.search re_compile r query with
  | Ok idxs => listbox_loop r idxs []
  | Raise e => (Raise e, [])
  end.

(** The head of [do_assign]: the label read off the selected line,
    [int(item.split("::", 1)[0])], or [None] when no line is selected. *)
Definition selected_label (items : list string) (sel : list nat)
  : result (option Z) :=
  match sel with
  | [] => Ok None
  | s :: _ =>
      idx ← int_of_str (before "::" (default "" (items !! s)));
      Ok (Some idx)
  end.

(** *** Reassigning from the list of present students *)

(** [reassign_selected]: the position of the face for which the dialog
    opens, if any.  The row is found by comparing display texts. *)
Definition reassign_selected (self : t) (sel : list nat) : option nat :=
  match sel with
  | [] => None
  | s :: _ =>
      let disp := default "" (present_list self !! s) in
      '(idx, _) ← list_find
                    (λ i, Roster.get_display (roster self) i = Ok disp)
                    (seq 0 (length (Roster.df (roster self))));
      '(i, _) ← list_find (λ fb, FaceBox.assigned_idx fb = Some idx)
                  (faces self);
      Some i
  end.

End App.

(** ** Vocabulary of the properties *)

(** The number of records of a report marked present. *)
Definition count_present (rows : list Attendance.t) : nat :=
  length (filter (λ r, Attendance.Status r = Attendance.Present) rows).

(** Every assignment of the batch is a label of the roster. *)
Definition assignments_valid (r : Roster.t) (fs : list FaceBox.t) : Prop :=
  ∀ fb idx, fb ∈ fs → FaceBox.assigned_idx fb = Some idx →
            (idx < length (Roster.df r))%nat.

(** A point of the image sent to the display as the corner of a box, and
    read back as a click on that corner. *)
Definition round_trip {F : Type} `{PyFloat F} (v : App.view F) (px py : Z)
  : result (Z * Z) :=
  '(sx, sy, _, _) ← App.draw_facebox v (FaceBox.new px py 0 0 0);
  App.canvas_to_image_coords v sx sy.

(** The box and the number of a face: what detection gave it. *)
Definition box (fb : FaceBox.t) : Z * Z * Z * Z * nat :=
  (FaceBox.x fb, FaceBox.y fb, FaceBox.w fb, FaceBox.h fb, FaceBox.id fb).

(** The labels, from [start] on, of the rows whose lowered name is [key]. *)
Definition named (key : string) (start : nat) (rows : list Roster.row)
  : list nat :=
  (filter (λ ir, lower (Roster.Name ir.2) = key)
     (imap (λ j r, ((start + j)%nat, r)) rows)).*1.

(** The members of a list without repetition, each at the place where it
    occurs first. *)
Fixpoint first_occurrences (l : list nat) : list nat :=
  match l with
  | [] => []
  | x :: l' => x :: filter (λ y, y ≠ x) (first_occurrences l')
  end.

(** *** Binary64 values *)

(** Whether bits that were shifted out of a mantissa were not all zero. *)
Definition inexact (mrs : shr_record) : bool := shr_r mrs || shr_s mrs.

(** Powers of two, and the real number that a float of the specification
    stands for (zero for what is not finite). *)
Definition bpow (e : Z) : R := powerRZ 2 e.

Definition SF2R (f : spec_float) : R :=
  match f with
  | S754_finite s m e =>
      if s then (- (IZR (Z.pos m) * bpow e))%R else (IZR (Z.pos m) * bpow e)%R
  | _ => 0%R
  end.

Definition F2R (f : float) : R := SF2R (Prim2SF f).

(** [f] is what rounding the real [x], which is not negative and at most
    [2^(K-1)], gives: zero or a positive finite float, on the same side as
    [x] of every multiple of [2^g] for [K - 53 ≤ g]. *)
Definition rounds_to (x : R) (K : Z) (f : spec_float) : Prop :=
  (f = S754_zero false ∨ ∃ m e, f = S754_finite false m e ∧ e ≤ K - 53) ∧
  ∀ k g, K - 53 ≤ g →
    ((IZR k * bpow g <= x)%R → (IZR k * bpow g <= SF2R f)%R) ∧
    ((x <= IZR k * bpow g)%R → (SF2R f <= IZR k * bpow g)%R).

(** A scale that reduces by at most [2^j] and enlarges by at most [2^24]. *)
Definition scale_within (j : Z) (s : float) : Prop :=
  (∃ m e, Prim2SF s = S754_finite false m e) ∧
  (bpow (- j) <= F2R s <= bpow 24)%R.

(** ** Sample data *)

Module Examples.

Definition ann : Roster.row :=
  {| Roster.Admission_No := "A001"; Roster.Name := "Ann";
     Roster.Section := "" |}.

Definition bob : Roster.row :=
  {| Roster.Admission_No := "A002"; Roster.Name := "Bob";
     Roster.Section := "" |}.

Definition roster2 : Roster.t :=
  {| Roster.has_section := true; Roster.df := [ann; bob] |}.

Definition roster1 : Roster.t :=
  {| Roster.has_section := true; Roster.df := [ann] |}.

(** Two overlapping boxes, in detection order. *)
Definition faceA : FaceBox.t := FaceBox.new 10 10 50 50 1.
Definition faceB : FaceBox.t := FaceBox.new 40 40 50 50 2.

(** Ann is bound to the first face. *)
Definition app_ann : App.t :=
  {| App.roster := roster2;
     App.photo_path := Some "/photos/class.jpg";
     App.faces := [FaceBox.set_assigned_idx (Some 0%nat) faceA; faceB];
     App.present_list := ["Ann  —  A001"] |}.

(** A face was bound to row 5 of a longer roster; then a roster of one row
    was loaded.  [load_roster] touches neither the faces nor the list box,
    which still shows the student of the earlier roster. *)
Definition app_reloaded : App.t :=
  {| App.roster := roster1;
     App.photo_path := Some "/photos/class.jpg";
     App.faces := [FaceBox.set_assigned_idx (Some 5%nat) faceA];
     App.present_list := ["Fay  —  A006"] |}.

(** Ann is bound to both faces: the duplicate was confirmed. *)
Definition app_ann_twice : App.t :=
  {| App.roster := roster2;
     App.photo_path := Some "/photos/class.jpg";
     App.faces := [FaceBox.set_assigned_idx (Some 0%nat) faceA;
                   FaceBox.set_assigned_idx (Some 0%nat) faceB];
     App.present_list := ["Ann  —  A001"] |}.

(** The roster file holds the line of Ann twice.  The first face is bound
    to the second of the two rows, two more faces to the first row; the
    list box shows a line for row 1, then a line for row 0. *)
Definition roster_twins : Roster.t :=
  {| Roster.has_section := true; Roster.df := [ann; ann] |}.

Definition faceC : FaceBox.t := FaceBox.new 200 30 50 50 3.

Definition app_twins : App.t :=
  {| App.roster := roster_twins;
     App.photo_path := Some "/photos/class.jpg";
     App.faces := [FaceBox.set_assigned_idx (Some 1%nat) faceA;
                   FaceBox.set_assigned_idx (Some 0%nat) faceB;
                   FaceBox.set_assigned_idx (Some 0%nat) faceC];
     App.present_list := ["Ann  —  A001"; "Ann  —  A001"] |}.

(** A photo of 800 by 600 pixels has just been opened. *)
Definition photo_800x600 : App.view float :=
  {| App.image := Some (800, 600); App.scale := 1%float;
     App.offset := (0, 0) |}.

(** The same photo once it has been fitted into a canvas of 400 by 400. *)
Definition photo_800x600_fitted : App.view float :=
  {| App.image := Some (800, 600); App.scale := 0.5%float;
     App.offset := (0, 50) |}.

(** A photo of 1600 by 1200 pixels has just been opened. *)
Definition photo_1600x1200 : App.view float :=
  {| App.image := Some (1600, 1200); App.scale := 1%float;
     App.offset := (0, 0) |}.

(** The same photo once it has been fitted into a canvas of 400 by 400. *)
Definition photo_1600x1200_fitted : App.view float :=
  {| App.image := Some (1600, 1200); App.scale := 0.25%float;
     App.offset := (0, 50) |}.

(** A roster file of one line, without a [Section] column. *)
Definition frame_ann : Roster.frame :=
  {| Roster.columns := ["Admission_No"; "Name"];
     Roster.records := [{[ "Admission_No" := "A001"; "Name" := "Ann" ]}] |}.

(** A clock that shows one second more at every reading. *)
Definition ticking (k : nat) : Z := 1700000000 + Z.of_nat k.

End Examples.

(** * Properties *)

(** ** Hit testing *)

Section HitTest.

Implicit Types (faces : list FaceBox.t) (fb : FaceBox.t) (ix iy : Z).

(** Inclusive bounds on both axes. *)
Lemma contains_spec fb ix iy :
  FaceBox.contains fb ix iy = true ↔
  FaceBox.x fb ≤ ix ≤ FaceBox.x fb + FaceBox.w fb ∧
  FaceBox.y fb ≤ iy ≤ FaceBox.y fb + FaceBox.h fb.
Proof.
  unfold FaceBox.contains.
  rewrite !andb_true_iff, !Z.leb_le. tauto.
Qed.

Lemma hit_test_Some faces ix iy i fb :
  App.hit_test faces ix iy = Some (i, fb) ↔
  faces !! i = Some fb ∧ FaceBox.contains fb ix iy = true ∧
  ∀ j fb', faces !! j = Some fb' → (i < j)%nat →
           FaceBox.contains fb' ix iy = false.
Proof.
  unfold App.hit_test. split.
  - destruct (list_find _ (reverse faces)) as [[k fb0]|] eqn:Hfind;
      simpl; [|done].
    intros [= <- <-].
    apply list_find_Some in Hfind as (Hk & Hin & Hbefore).
    apply reverse_lookup_Some in Hk as [Hk Hlt].
    split_and!.
    + rewrite <- Hk. f_equal. lia.
    + by apply Is_true_true.
    + intros j fb' Hj Hij.
      apply Is_true_false. apply (Hbefore (length faces - S j)%nat).
      * apply reverse_lookup_Some. apply lookup_lt_Some in Hj as Hj'.
        split; [|lia]. rewrite <- Hj. f_equal. lia.
      * apply lookup_lt_Some in Hj. lia.
  - intros (Hi & Hin & Hafter).
    apply lookup_lt_Some in Hi as Hlt.
    assert (list_find (λ fb, FaceBox.contains fb ix iy) (reverse faces)
            = Some ((length faces - S i)%nat, fb)) as ->.
    { apply list_find_Some. split_and!.
      - apply reverse_lookup_Some. split; [|lia].
        rewrite <- Hi. f_equal. lia.
      - by apply Is_true_true.
      - intros j fb' Hj Hlt'. apply Is_true_false.
        apply reverse_lookup_Some in Hj as [Hj Hj'].
        apply (Hafter _ _ Hj). lia. }
    simpl. do 2 f_equal. lia.
Qed.

Lemma hit_test_None faces ix iy :
  App.hit_test faces ix iy = None ↔
  ∀ fb, fb ∈ faces → FaceBox.contains fb ix iy = false.
Proof.
  unfold App.hit_test.
  destruct (list_find _ (reverse faces)) as [[k fb0]|] eqn:Hfind; simpl.
  - split; [done|]. intros Hall.
    apply list_find_Some in Hfind as (Hk & Hin & _).
    apply list_elem_of_lookup_2, elem_of_reverse, Hall in Hk.
    apply Is_true_true in Hin. congruence.
  - split; [|done]. intros _ fb Hfb.
    apply list_find_None in Hfind.
    rewrite Forall_forall in Hfind.
    apply Is_true_false, Hfind, elem_of_reverse. done.
Qed.

End HitTest.

(** C7.  [hit_test] returns a face exactly when it is the last face of the
    batch, in iteration order, whose box contains the point; it returns
    nothing exactly when no box contains the point; a box contains the
    points on its edges; of two overlapping faces A then B, B is returned
    at a shared point. *)
Theorem hit_test_topmost (faces : list FaceBox.t) (ix iy : Z) :
  (∀ i fb,
     App.hit_test faces ix iy = Some (i, fb) ↔
     faces !! i = Some fb ∧ FaceBox.contains fb ix iy = true ∧
     ∀ j fb', faces !! j = Some fb' → (i < j)%nat →
              FaceBox.contains fb' ix iy = false) ∧
  (App.hit_test faces ix iy = None ↔
   ∀ fb, fb ∈ faces → FaceBox.contains fb ix iy = false) ∧
  (∀ fb,
     FaceBox.contains fb ix iy = true ↔
     FaceBox.x fb ≤ ix ≤ FaceBox.x fb + FaceBox.w fb ∧
     FaceBox.y fb ≤ iy ≤ FaceBox.y fb + FaceBox.h fb) ∧
  (∀ A B,
     FaceBox.contains A ix iy = true → FaceBox.contains B ix iy = true →
     App.hit_test [A; B] ix iy = Some (1%nat, B)).
Proof.
  split_and!.
  - intros i fb. apply hit_test_Some.
  - apply hit_test_None.
  - intros fb. apply contains_spec.
  - intros A B _ HB. apply hit_test_Some. split_and!; [done..|].
    intros [|[|j]] fb' Hj Hlt; simplify_eq/=; lia.
Qed.

(** ** Assignment and the duplicate prompt *)

Section Assign.

Implicit Types (self : App.t) (fb idx : nat) (reply : nat -> bool).

Lemma refresh_present_list_faces self :
  App.faces (App.refresh_present_list self).2 = App.faces self.
Proof.
  unfold App.refresh_present_list.
  by destruct (App.present_loop _ _ _ _).
Qed.

Lemma refresh_present_list_roster self :
  App.roster (App.refresh_present_list self).2 = App.roster self.
Proof.
  unfold App.refresh_present_list.
  by destruct (App.present_loop _ _ _ _).
Qed.

(** The loop ends in [cancel] as soon as one prompt is refused, and in
    [commit] when every prompt was accepted. *)
Lemma confirm_duplicates_run {A : Type} fb idx others (c x : A) reply n :
  run reply n (App.confirm_duplicates fb idx others (Done c) (Done x)) =
  if decide (false ∈ transcript reply n
               (App.confirm_duplicates fb idx others (Done c) (Done x)))
  then x else c.
Proof.
  revert n.
  induction others as [|[j other] rest IH]; intros n;
    cbn [run transcript App.confirm_duplicates].
  - rewrite decide_False; [done|]. by intros ?%elem_of_nil.
  - destruct (bool_decide (j ≠ fb) && bool_decide _);
      cbn [run transcript]; [|apply IH].
    destruct (reply n) eqn:Hn.
    + rewrite IH. apply decide_ext. rewrite elem_of_cons.
      split; [by right|]. by intros [[=]|?].
    + cbn [run transcript]. rewrite decide_True; [done|]. set_solver.
Qed.

(** A face other than [fb] that already has [idx] makes the loop stop at
    a prompt. *)
Lemma confirm_duplicates_asks {A : Type} fb idx others (c x : dialog A)
    j other :
  (j, other) ∈ others → j ≠ fb → FaceBox.assigned_idx other = Some idx →
  ∃ k, App.confirm_duplicates fb idx others c x =
       askyesno "Duplicate"
         "This student is already assigned to another face. Assign again?"
         k.
Proof.
  intros Hin Hj Hidx.
  induction others as [|[j' other'] rest IH]; [by apply elem_of_nil in Hin|].
  simpl.
  destruct (bool_decide (j' ≠ fb) && bool_decide _) eqn:Hdup; [by eexists|].
  apply elem_of_cons in Hin as [[= <- <-]|Hin]; [|by apply IH].
  rewrite !bool_decide_eq_true_2 in Hdup; done.
Qed.

(** Without such a face the loop asks nothing. *)
Lemma confirm_duplicates_silent {A : Type} fb idx others (c x : dialog A) :
  (∀ j other, (j, other) ∈ others → j ≠ fb →
              FaceBox.assigned_idx other ≠ Some idx) →
  App.confirm_duplicates fb idx others c x = c.
Proof.
  induction others as [|[j other] rest IH]; intros Hfree; [done|].
  simpl. rewrite IH.
  - destruct (decide (j = fb)) as [->|Hj].
    + by rewrite (bool_decide_eq_false_2 (fb ≠ fb)) by (by intros ?).
    + rewrite (bool_decide_eq_false_2 (_ = Some idx)).
      * by rewrite andb_false_r.
      * apply (Hfree j); [by left|done].
  - intros j' other' Hin. apply Hfree. by right.
Qed.

End Assign.

(** C1.  When the operator assigns entry [E] to the face at position [r2]
    while another face [r1] of the batch already has [E], [do_assign] stops
    at a confirmation prompt before anything is written; whatever the
    answers, at least one was asked for; if a prompt is refused the whole
    state is as before; if every prompt is accepted the only change to the
    batch is that [r2] now has [E], so that [r1] and [r2] both have it. *)
Theorem duplicate_binding_gate (self : App.t) (r1 r2 E : nat)
    (R1 : FaceBox.t) :
  r1 ≠ r2 →
  (r2 < length (App.faces self))%nat →
  App.faces self !! r1 = Some R1 →
  FaceBox.assigned_idx R1 = Some E →
  (∃ k, App.do_assign self r2 (Some E) =
        askyesno "Duplicate"
          "This student is already assigned to another face. Assign again?"
          k) ∧
  ∀ reply : nat -> bool,
    let answers := transcript reply 0 (App.do_assign self r2 (Some E)) in
    let out := run reply 0 (App.do_assign self r2 (Some E)) in
    answers ≠ [] ∧
    (false ∈ answers → out = (Ok (), self)) ∧
    (false ∉ answers →
     App.faces out.2 =
       alter (FaceBox.set_assigned_idx (Some E)) r2 (App.faces self) ∧
     FaceBox.assigned_idx <$> App.faces out.2 !! r1 = Some (Some E) ∧
     FaceBox.assigned_idx <$> App.faces out.2 !! r2 = Some (Some E)).
Proof.
  intros Hne Hr2 Hr1 HE.
  assert (∃ k, App.do_assign self r2 (Some E) =
               askyesno "Duplicate"
                 "This student is already assigned to another face. Assign again?"
                 k) as Hask.
  { unfold App.do_assign.
    eapply confirm_duplicates_asks; [|done..].
    by apply (elem_of_lookup_imap_2 pair). }
  split; [done|]. intros reply answers out. split_and!.
  - destruct Hask as [k Hk]. unfold answers. by rewrite Hk.
  - intros Hno. unfold out, App.do_assign.
    rewrite confirm_duplicates_run. by rewrite decide_True.
  - intros Hyes.
    assert (out = App.refresh_present_list
                    (App.set_faces
                       (alter (FaceBox.set_assigned_idx (Some E)) r2
                          (App.faces self)) self)) as ->.
    { unfold out, App.do_assign.
      rewrite confirm_duplicates_run. by rewrite decide_False. }
    rewrite refresh_present_list_faces. simpl. split_and!.
    + done.
    + rewrite list_lookup_alter_ne by done. by rewrite Hr1; simpl; rewrite HE.
    + rewrite list_lookup_alter_eq.
      destruct (lookup_lt_is_Some_2 _ _ Hr2) as [R2 ->]. done.
Qed.

Lemma duplicate_binding_gate_witness :
  (∃ k, App.do_assign Examples.app_ann 1%nat (Some 0%nat) =
        askyesno "Duplicate"
          "This student is already assigned to another face. Assign again?"
          k) ∧
  ∀ reply : nat -> bool,
    let answers :=
      transcript reply 0 (App.do_assign Examples.app_ann 1%nat (Some 0%nat)) in
    let out := run reply 0 (App.do_assign Examples.app_ann 1%nat (Some 0%nat)) in
    answers ≠ [] ∧
    (false ∈ answers → out = (Ok (), Examples.app_ann)) ∧
    (false ∉ answers →
     App.faces out.2 =
       alter (FaceBox.set_assigned_idx (Some 0%nat)) 1%nat
         (App.faces Examples.app_ann) ∧
     FaceBox.assigned_idx <$> App.faces out.2 !! 0%nat = Some (Some 0%nat) ∧
     FaceBox.assigned_idx <$> App.faces out.2 !! 1%nat = Some (Some 0%nat)).
Proof.
  apply (duplicate_binding_gate Examples.app_ann 0%nat 1%nat 0%nat
           (FaceBox.set_assigned_idx (Some 0%nat) Examples.faceA)).
  - lia.
  - simpl. lia.
  - reflexivity.
  - reflexivity.
Defined.

(** When no other face of the batch has [E], [do_assign] asks nothing and
    writes at once. *)
Theorem assign_without_duplicate (self : App.t) (r2 E : nat) :
  (∀ (j : nat) fb,
     App.faces self !! j = Some fb → j ≠ r2 →
     FaceBox.assigned_idx fb ≠ Some E) →
  App.do_assign self r2 (Some E) =
  Done (App.refresh_present_list
          (App.set_faces
             (alter (FaceBox.set_assigned_idx (Some E)) r2 (App.faces self))
             self)).
Proof.
  intros Hfree. unfold App.do_assign.
  apply confirm_duplicates_silent. intros j other Hin Hj.
  apply elem_of_lookup_imap in Hin as (k & fb & [= -> ->] & Hk).
  by eapply Hfree.
Qed.

Lemma assign_without_duplicate_witness :
  App.do_assign Examples.app_ann 1%nat (Some 1%nat) =
  Done (App.refresh_present_list
          (App.set_faces
             (alter (FaceBox.set_assigned_idx (Some 1%nat)) 1%nat
                (App.faces Examples.app_ann))
             Examples.app_ann)).
Proof.
  apply (assign_without_duplicate Examples.app_ann 1%nat 1%nat).
  intros [|[|j]] fb Hfb Hj; simpl in Hfb.
  - injection Hfb as <-. discriminate.
  - lia.
  - discriminate.
Defined.

(** ** The attendance report *)

Section Report.

Implicit Types (self : App.t) (now : nat -> Z) (fs : list FaceBox.t).

Lemma elem_of_present_idxs fs idx :
  idx ∈ App.present_idxs fs ↔
  ∃ fb, fb ∈ fs ∧ FaceBox.assigned_idx fb = Some idx.
Proof.
  unfold App.present_idxs. rewrite elem_of_list_to_set, list_elem_of_omap.
  done.
Qed.

Lemma present_idxs_valid r fs :
  assignments_valid r fs →
  App.present_idxs fs ∩ set_seq 0 (length (Roster.df r)) = App.present_idxs fs.
Proof.
  intros Hvalid. apply set_eq. intros idx.
  rewrite elem_of_intersection, elem_of_set_seq, elem_of_present_idxs.
  split; [by intros [? _]|]. intros (fb & Hfb & Hidx).
  split; [by exists fb|]. specialize (Hvalid fb idx Hfb Hidx). lia.
Qed.

Lemma size_inter_seq_0 (P : gset nat) : size (P ∩ set_seq 0 0) = 0%nat.
Proof.
  apply size_empty_iff. intros i.
  rewrite elem_of_intersection, elem_of_set_seq, elem_of_empty. lia.
Qed.

Lemma size_inter_seq_S (P : gset nat) (n : nat) :
  size (P ∩ set_seq 0 (S n)) =
  (size (P ∩ set_seq 0 n) + if decide (n ∈ P) then 1 else 0)%nat.
Proof.
  assert (P ∩ set_seq 0 (S n) =
          (P ∩ set_seq 0 n) ∪ (if decide (n ∈ P) then {[n]} else ∅)) as ->.
  { apply set_eq. intros i.
    rewrite elem_of_union, !elem_of_intersection, !elem_of_set_seq.
    case_decide.
    - rewrite elem_of_singleton.
      split; [intros [? ?]; destruct (decide (i = n)); [by right|left; split; [done|lia]]|].
      intros [[? ?]| ->]; split; try done; lia.
    - rewrite elem_of_empty.
      split; [intros [? ?]; left; split; [done|]; destruct (decide (i = n)); [by subst|lia]|].
      intros [[? ?]|[]]. split; [done|lia]. }
  rewrite size_union.
  - f_equal. case_decide; [apply size_singleton|apply size_empty].
  - intros i. rewrite elem_of_intersection, elem_of_set_seq.
    case_decide; [rewrite elem_of_singleton|rewrite elem_of_empty]; lia.
Qed.

(** Marking the positions of a list by membership in [P] marks as many
    rows as [P] has members among the positions. *)
Lemma count_present_imap {A : Type} (P : gset nat)
    (f : nat -> A -> Attendance.t) (l : list A) :
  (∀ i a, Attendance.Status (f i a) =
          if decide (i ∈ P) then Attendance.Present else Attendance.Absent) →
  count_present (imap f l) = size (P ∩ set_seq 0 (length l)).
Proof.
  intros Hf. unfold count_present.
  induction l as [|a l IH] using rev_ind.
  - by rewrite size_inter_seq_0.
  - rewrite imap_app, filter_app, !length_app, IH.
    cbn [imap length]. rewrite Nat.add_1_r, size_inter_seq_S. f_equal.
    rewrite filter_cons, Hf, Nat.add_0_r.
    destruct (decide (length l ∈ P)) as [Hin|Hout].
    + by rewrite decide_True.
    + by rewrite decide_False.
Qed.

Lemma save_attendance_rows self now :
  Roster.df (App.roster self) ≠ [] →
  ∃ rows,
    App.save_attendance self now = Attendance.ToExcel (now 0%nat) rows ∧
    length rows = length (Roster.df (App.roster self)) ∧
    count_present rows =
      size (App.present_idxs (App.faces self) ∩
            set_seq 0 (length (Roster.df (App.roster self)))) ∧
    ∀ k row,
      Roster.df (App.roster self) !! k = Some row →
      ∃ rec,
        rows !! k = Some rec ∧
        Attendance.Admission_No rec = Roster.Admission_No row ∧
        Attendance.Name rec = Roster.Name row ∧
        Attendance.Saved_At rec = now (S k) ∧
        Attendance.Status rec =
          if decide (k ∈ App.present_idxs (App.faces self))
          then Attendance.Present else Attendance.Absent.
Proof.
  intros Hrows. unfold App.save_attendance.
  rewrite bool_decide_eq_false_2 by done.
  eexists. split; [reflexivity|]. split_and!.
  - apply length_imap.
  - by apply count_present_imap.
  - intros k row Hk. eexists. rewrite list_lookup_imap, Hk. simpl.
    split; [reflexivity|]. done.
Qed.

End Report.

(** C2, as the code has it.  For a roster with at least one row,
    [save_attendance] hands over exactly one record for each row, in roster
    order, carrying the row's admission number and name; the record of row
    [k] is marked present exactly when some face of the batch is assigned
    [k]; the number of records marked present is the number of assigned
    labels that are rows of the roster, which is the size of
    [present_idxs] whenever every assignment of the batch is a row of the
    roster. *)
Theorem build_report_complete (self : App.t) (now : nat -> Z) :
  Roster.df (App.roster self) ≠ [] →
  ∃ rows,
    App.save_attendance self now = Attendance.ToExcel (now 0%nat) rows ∧
    length rows = length (Roster.df (App.roster self)) ∧
    (∀ k row,
       Roster.df (App.roster self) !! k = Some row →
       ∃ rec,
         rows !! k = Some rec ∧
         Attendance.Admission_No rec = Roster.Admission_No row ∧
         Attendance.Name rec = Roster.Name row ∧
         (Attendance.Status rec = Attendance.Present ↔
          ∃ fb, fb ∈ App.faces self ∧ FaceBox.assigned_idx fb = Some k) ∧
         (Attendance.Status rec = Attendance.Absent ↔
          ¬ ∃ fb, fb ∈ App.faces self ∧ FaceBox.assigned_idx fb = Some k)) ∧
    count_present rows =
      size (App.present_idxs (App.faces self) ∩
            set_seq 0 (length (Roster.df (App.roster self)))) ∧
    (assignments_valid (App.roster self) (App.faces self) →
     count_present rows = size (App.present_idxs (App.faces self))).
Proof.
  intros Hrows.
  destruct (save_attendance_rows self now Hrows)
    as (rows & Hsave & Hlen & Hcount & Hrow).
  exists rows. split_and!; [done..| | done |].
  - intros k row Hk.
    destruct (Hrow k row Hk) as (rec & Hrec & Hadm & Hname & _ & Hstatus).
    exists rec. split_and!; [done..| |].
    + rewrite Hstatus, <- elem_of_present_idxs. by case_decide.
    + rewrite Hstatus, <- elem_of_present_idxs. by case_decide.
  - intros Hvalid. by rewrite Hcount, present_idxs_valid.
Qed.

Lemma build_report_complete_witness :
  ∃ rows,
    App.save_attendance Examples.app_ann Examples.ticking =
      Attendance.ToExcel (Examples.ticking 0%nat) rows ∧
    length rows = length (Roster.df (App.roster Examples.app_ann)) ∧
    (∀ k row,
       Roster.df (App.roster Examples.app_ann) !! k = Some row →
       ∃ rec,
         rows !! k = Some rec ∧
         Attendance.Admission_No rec = Roster.Admission_No row ∧
         Attendance.Name rec = Roster.Name row ∧
         (Attendance.Status rec = Attendance.Present ↔
          ∃ fb, fb ∈ App.faces Examples.app_ann ∧
                FaceBox.assigned_idx fb = Some k) ∧
         (Attendance.Status rec = Attendance.Absent ↔
          ¬ ∃ fb, fb ∈ App.faces Examples.app_ann ∧
                  FaceBox.assigned_idx fb = Some k)) ∧
    count_present rows =
      size (App.present_idxs (App.faces Examples.app_ann) ∩
            set_seq 0 (length (Roster.df (App.roster Examples.app_ann)))) ∧
    (assignments_valid (App.roster Examples.app_ann)
       (App.faces Examples.app_ann) →
     count_present rows =
       size (App.present_idxs (App.faces Examples.app_ann))).
Proof.
  apply (build_report_complete Examples.app_ann Examples.ticking).
  simpl. discriminate.
Defined.

(** The count of C2 fails for a batch that still holds a label of a roster
    that has since been replaced: the report of the one-row roster has no
    record marked present, while [present_idxs] has one member. *)
Lemma build_report_stale_assignment :
  ∃ rows,
    App.save_attendance Examples.app_reloaded Examples.ticking =
      Attendance.ToExcel (Examples.ticking 0%nat) rows ∧
    length rows = 1%nat ∧
    count_present rows = 0%nat ∧
    size (App.present_idxs (App.faces Examples.app_reloaded)) = 1%nat.
Proof.
  eexists. split; [reflexivity|]. split_and!; [done..|].
  by vm_compute.
Qed.

(** C4, as the code has it.  The clock is read once for the file name and
    then once more for every row, inside the loop: the record of row [k]
    carries the reading made when that row was visited.  All records of a
    report show the same time exactly when those readings agree. *)
Theorem saved_at_per_row (self : App.t) (now : nat -> Z) :
  Roster.df (App.roster self) ≠ [] →
  ∃ rows,
    App.save_attendance self now = Attendance.ToExcel (now 0%nat) rows ∧
    (∀ k rec, rows !! k = Some rec → Attendance.Saved_At rec = now (S k)) ∧
    (∀ t,
       (∀ k, (k < length (Roster.df (App.roster self)))%nat → now (S k) = t) ↔
       (∀ rec, rec ∈ rows → Attendance.Saved_At rec = t)).
Proof.
  intros Hrows.
  destruct (save_attendance_rows self now Hrows)
    as (rows & Hsave & Hlen & _ & Hrow).
  assert (∀ k rec, rows !! k = Some rec → Attendance.Saved_At rec = now (S k))
    as Hat.
  { intros k rec Hk.
    destruct (lookup_lt_is_Some_2 (Roster.df (App.roster self)) k)
      as [row Hk'].
    { rewrite <- Hlen. by eapply lookup_lt_Some. }
    destruct (Hrow k row Hk') as (rec' & Hrec' & _ & _ & Hsaved & _).
    congruence. }
  exists rows. split_and!; [done..|]. intros t. split.
  - intros Hsame rec [k Hk]%list_elem_of_lookup_1.
    rewrite (Hat k rec Hk). apply Hsame.
    rewrite <- Hlen. by eapply lookup_lt_Some.
  - intros Hsame k Hk.
    destruct (lookup_lt_is_Some_2 rows k) as [rec Hrec]; [lia|].
    rewrite <- (Hat k rec Hrec). apply Hsame.
    by eapply list_elem_of_lookup_2.
Qed.

Lemma saved_at_per_row_witness :
  ∃ rows,
    App.save_attendance Examples.app_ann Examples.ticking =
      Attendance.ToExcel (Examples.ticking 0%nat) rows ∧
    (∀ k rec, rows !! k = Some rec →
              Attendance.Saved_At rec = Examples.ticking (S k)) ∧
    (∀ t,
       (∀ k, (k < length (Roster.df (App.roster Examples.app_ann)))%nat →
             Examples.ticking (S k) = t) ↔
       (∀ rec, rec ∈ rows → Attendance.Saved_At rec = t)).
Proof.
  apply (saved_at_per_row Examples.app_ann Examples.ticking).
  simpl. discriminate.
Defined.

(** With a clock that moves on between the rows, the two records of one
    report carry different times. *)
Lemma saved_at_differs_within_report :
  ∃ ann bob,
    App.save_attendance Examples.app_ann Examples.ticking =
      Attendance.ToExcel 1700000000 [ann; bob] ∧
    Attendance.Saved_At ann = 1700000001 ∧
    Attendance.Saved_At bob = 1700000002 ∧
    Attendance.Saved_At ann ≠ Attendance.Saved_At bob.
Proof.
  do 2 eexists. split; [reflexivity|]. by split_and!.
Qed.

(** C9.  [save_attendance] stops at the "No Roster" warning exactly when
    the roster has no row: then no record is built, the clock is not read
    and nothing is handed to the spreadsheet writer; a report that is
    written never has zero records.  The method assigns no attribute, so
    the state is as before in either case. *)
Theorem save_attendance_empty_roster (self : App.t) (now : nat -> Z) :
  (App.save_attendance self now = Attendance.NoRoster ↔
   Roster.df (App.roster self) = []) ∧
  (∀ d rows,
     App.save_attendance self now = Attendance.ToExcel d rows →
     rows ≠ [] ∧ length rows = length (Roster.df (App.roster self))).
Proof.
  unfold App.save_attendance. case_bool_decide as Hrows.
  - split; [done|]. intros d rows [=].
  - split; [by split|]. intros d rows [= _ <-].
    rewrite length_imap. split; [|done].
    intros Hnil%(f_equal length). rewrite length_imap in Hnil.
    by destruct (Roster.df (App.roster self)).
Qed.

(** ** Binary64 arithmetic

    [FloatAxioms] says that the kernel's operations on [float] are those of
    [SpecFloat] on sign, mantissa and exponent.  Of rounding to nearest,
    what the coordinate code needs is proved here from that specification:
    a product or a quotient that is rounded stays on the same side of every
    number on the grid of the result, so that [int(...)] of it is the
    integer part of the exact value or its neighbour. *)

Section Binary64.

(** *** Shifting a mantissa to the right *)

Lemma iter_pos_nat {A : Type} (f : A → A) (p : positive) (x : A) :
  SpecFloat.iter_pos f p x = Nat.iter (Pos.to_nat p) f x.
Proof.
  revert x. induction p as [p IH|p IH|]; intros x; cbn [SpecFloat.iter_pos].
  - rewrite !IH, Pos2Nat.inj_xI.
    replace (S (2 * Pos.to_nat p))%nat
      with (Pos.to_nat p + (Pos.to_nat p + 1))%nat by lia.
    by rewrite !Nat.iter_add.
  - rewrite !IH, Pos2Nat.inj_xO.
    replace (2 * Pos.to_nat p)%nat with (Pos.to_nat p + Pos.to_nat p)%nat by lia.
    by rewrite Nat.iter_add.
  - done.
Qed.

Lemma shr_1_spec mrs :
  0 ≤ shr_m mrs →
  shr_m (shr_1 mrs) = shr_m mrs `div` 2 ∧
  inexact (shr_1 mrs) = inexact mrs || Z.odd (shr_m mrs).
Proof.
  destruct mrs as [m r s]. cbn [shr_m]. intros Hm. unfold inexact.
  destruct m as [|[p|p|]|p]; cbn [shr_1 shr_m shr_r shr_s]; try lia.
  - split; [done|]. by destruct r, s.
  - split; [|by destruct r, s].
    rewrite Pos2Z.inj_xI. apply (Z.div_unique _ _ _ 1); lia.
  - split; [|by destruct r, s].
    rewrite Pos2Z.inj_xO. apply (Z.div_unique _ _ _ 0); lia.
  - split; [done|]. by destruct r, s.
Qed.

Lemma shr_iter_spec (n : nat) mrs :
  0 ≤ shr_m mrs →
  shr_m (Nat.iter n shr_1 mrs) = shr_m mrs `div` 2 ^ Z.of_nat n ∧
  (inexact (Nat.iter n shr_1 mrs) = false ↔
   inexact mrs = false ∧ shr_m mrs `mod` 2 ^ Z.of_nat n = 0).
Proof.
  intros Hm. induction n as [|n [IHm IHi]].
  - change (Nat.iter 0 shr_1 mrs) with mrs. rewrite Z.pow_0_r, Z.div_1_r, Z.mod_1_r. tauto.
  - change (Nat.iter (S n) shr_1 mrs) with (shr_1 (Nat.iter n shr_1 mrs)).
    assert (0 ≤ shr_m (Nat.iter n shr_1 mrs)) as Hn.
    { rewrite IHm. apply Z.div_pos; [done|]. apply Z.pow_pos_nonneg; lia. }
    destruct (shr_1_spec _ Hn) as [-> ->].
    rewrite IHm, Nat2Z.inj_succ, Z.pow_succ_r by lia.
    assert (0 < 2 ^ Z.of_nat n) as Hp by (apply Z.pow_pos_nonneg; lia).
    split.
    { rewrite Z.div_div by lia. f_equal. lia. }
    rewrite orb_false_iff, IHi, <- Z.negb_even, negb_false_iff, Z.even_spec.
    set (P := 2 ^ Z.of_nat n) in *. set (m := shr_m mrs) in *.
    pose proof (Z.div_mod m P ltac:(lia)) as Hdm.
    split.
    + intros [[Hi Hmod] [k Hk]]. split; [done|].
      rewrite Hmod, Hk in Hdm.
      symmetry; apply Z.mod_unique_pos with (q := k); lia.
    + intros [Hi Hmod].
      pose proof (Z.div_mod m (2 * P) ltac:(lia)) as Hd3.
      rewrite Hmod in Hd3.
      assert (m `div` P = 2 * (m `div` (2 * P))) as Hq.
      { symmetry. apply Z.div_unique_exact; lia. }
      split; [split; [done|]|by eexists].
      symmetry; apply Z.mod_unique_pos with (q := 2 * (m `div` (2 * P))); lia.
Qed.

(** *** Digits *)

Lemma digits2_pos_bounds (m : positive) :
  2 ^ (Z.pos (digits2_pos m) - 1) ≤ Z.pos m < 2 ^ Z.pos (digits2_pos m).
Proof.
  induction m as [m IH|m IH|]; cbn [digits2_pos].
  - rewrite Pos2Z.inj_succ, (Pos2Z.inj_xI m).
    replace (Z.succ (Z.pos (digits2_pos m)) - 1)
      with (Z.succ (Z.pos (digits2_pos m) - 1)) by lia.
    rewrite !Z.pow_succ_r by lia. lia.
  - rewrite Pos2Z.inj_succ, (Pos2Z.inj_xO m).
    replace (Z.succ (Z.pos (digits2_pos m)) - 1)
      with (Z.succ (Z.pos (digits2_pos m) - 1)) by lia.
    rewrite !Z.pow_succ_r by lia. lia.
  - cbn. lia.
Qed.

Lemma Zdigits2_bounds (m : Z) :
  0 < m → 2 ^ (Zdigits2 m - 1) ≤ m < 2 ^ Zdigits2 m ∧ 0 < Zdigits2 m.
Proof.
  destruct m as [|p|p]; [lia| |lia]. intros _. cbn [Zdigits2].
  split; [apply digits2_pos_bounds|lia].
Qed.

(** *** What [shr_fexp] and [binary_round_aux] compute *)

Lemma inexact_of_loc m l :
  inexact (shr_record_of_loc m l) = false ↔ l = loc_Exact.
Proof. destruct l as [|[]]; cbn; split; congruence. Qed.

Lemma shr_m_of_loc m l : shr_m (shr_record_of_loc m l) = m.
Proof. by destruct l as [|[]]. Qed.

Lemma shr_fexp_spec (mx ex : Z) (lx : location) :
  0 ≤ mx →
  let e' := Z.max ex (fexp prec emax (Zdigits2 mx + ex)) in
  ∃ mrs, shr_fexp prec emax mx ex lx = (mrs, e') ∧
    shr_m mrs = mx `div` 2 ^ (e' - ex) ∧
    (inexact mrs = false ↔ lx = loc_Exact ∧ mx `mod` 2 ^ (e' - ex) = 0).
Proof.
  intros Hmx e'. unfold shr_fexp, shr.
  set (f := fexp prec emax (Zdigits2 mx + ex)) in *.
  destruct (f - ex) as [|p|p] eqn:Hn.
  - replace e' with ex by lia. eexists. split; [done|].
    rewrite Z.sub_diag, Z.pow_0_r, Z.div_1_r, Z.mod_1_r, shr_m_of_loc,
      inexact_of_loc. tauto.
  - replace e' with (ex + Z.pos p) by lia. eexists. split; [done|].
    rewrite iter_pos_nat.
    destruct (shr_iter_spec (Pos.to_nat p) (shr_record_of_loc mx lx))
      as [Hm Hi]; [by rewrite shr_m_of_loc|].
    rewrite positive_nat_Z, shr_m_of_loc, inexact_of_loc in *.
    by replace (ex + Z.pos p - ex) with (Z.pos p) by lia.
  - replace e' with ex by lia. eexists. split; [done|].
    rewrite Z.sub_diag, Z.pow_0_r, Z.div_1_r, Z.mod_1_r, shr_m_of_loc,
      inexact_of_loc. tauto.
Qed.

Lemma round_nearest_even_spec (mrs : shr_record) :
  let m1 := round_nearest_even (shr_m mrs) (loc_of_shr_record mrs) in
  shr_m mrs ≤ m1 ≤ shr_m mrs + 1 ∧ (inexact mrs = false → m1 = shr_m mrs).
Proof.
  destruct mrs as [m [] []]; cbn; try destruct (Z.even m); repeat split;
    try lia; try done.
Qed.

Lemma binary_round_aux_spec (mx ex : Z) (lx : location) :
  0 ≤ mx →
  let e' := Z.max ex (fexp prec emax (Zdigits2 mx + ex)) in
  ∃ m1 : Z,
    let e'' := Z.max e' (fexp prec emax (Zdigits2 m1 + e')) in
    mx `div` 2 ^ (e' - ex) ≤ m1 ≤ mx `div` 2 ^ (e' - ex) + 1 ∧
    (lx = loc_Exact → mx `mod` 2 ^ (e' - ex) = 0 →
     m1 = mx `div` 2 ^ (e' - ex)) ∧
    binary_round_aux prec emax false mx ex lx =
      match m1 `div` 2 ^ (e'' - e') with
      | 0 => S754_zero false
      | Z.pos m =>
          if e'' <=? emax - prec then S754_finite false m e''
          else S754_infinity false
      | Z.neg _ => S754_nan
      end.
Proof.
  intros Hmx e'. unfold binary_round_aux.
  destruct (shr_fexp_spec mx ex lx Hmx) as (mrs & -> & Hm & Hi).
  cbv beta iota. fold e' in Hm, Hi |- *.
  destruct (round_nearest_even_spec mrs) as [Hr Hx].
  set (m1 := round_nearest_even _ _) in *.
  exists m1. cbv zeta.
  set (e'' := Z.max e' (fexp prec emax (Zdigits2 m1 + e'))).
  rewrite Hm in Hr, Hx.
  assert (0 ≤ m1) as Hm1.
  { enough (0 ≤ mx `div` 2 ^ (e' - ex)) by lia.
    apply Z.div_pos; [done|]. apply Z.pow_pos_nonneg; lia. }
  destruct (shr_fexp_spec m1 e' loc_Exact Hm1) as (mrs' & -> & Hm' & _).
  cbv beta iota. fold e'' in Hm' |- *. rewrite Hm'.
  split; [done|]. split; [|done].
  intros Hl Hmod. apply Hx, Hi. done.
Qed.

(** *** Values *)

Lemma bpow_pos e : (0 < bpow e)%R.
Proof. apply powerRZ_lt. lra. Qed.

Lemma bpow_add a b : bpow (a + b) = (bpow a * bpow b)%R.
Proof. apply powerRZ_add. lra. Qed.

Lemma bpow_0 : bpow 0 = 1%R.
Proof. reflexivity. Qed.

Lemma bpow_IZR n : 0 ≤ n → bpow n = IZR (2 ^ n).
Proof.
  intros Hn. unfold bpow. rewrite <- (Z2Nat.id n Hn), <- pow_powerRZ.
  by rewrite pow_IZR.
Qed.

Lemma bpow_le a b : a ≤ b → (bpow a <= bpow b)%R.
Proof.
  intros Hab. replace b with (a + (b - a)) by lia.
  rewrite bpow_add, (bpow_IZR (b - a)) by lia.
  pose proof (bpow_pos a).
  assert (1 <= IZR (2 ^ (b - a)))%R.
  { apply IZR_le. pose proof (Z.pow_pos_nonneg 2 (b - a)). lia. }
  nra.
Qed.

Lemma bpow_lt a b : a < b → (bpow a < bpow b)%R.
Proof.
  intros Hab. replace b with (a + (b - a)) by lia.
  rewrite bpow_add, (bpow_IZR (b - a)) by lia.
  pose proof (bpow_pos a).
  assert (2 <= IZR (2 ^ (b - a)))%R.
  { apply IZR_le. replace (b - a) with (Z.succ (b - a - 1)) by lia.
    rewrite Z.pow_succ_r by lia.
    pose proof (Z.pow_pos_nonneg 2 (b - a - 1)). lia. }
  nra.
Qed.

Lemma bpow_le_inv a b : (bpow a <= bpow b)%R → a ≤ b.
Proof.
  intros H. destruct (Z_le_gt_dec a b) as [|Hgt]; [done|].
  pose proof (bpow_lt b a ltac:(lia)). lra.
Qed.

Lemma grid_shift (k e n : Z) :
  0 ≤ n → (IZR k * bpow (e + n) = IZR (k * 2 ^ n) * bpow e)%R.
Proof.
  intros Hn. rewrite bpow_add, (bpow_IZR n Hn), mult_IZR. ring.
Qed.

Lemma grid_le (a b e : Z) : (IZR a * bpow e <= IZR b * bpow e)%R ↔ a ≤ b.
Proof.
  pose proof (bpow_pos e). split.
  - intros Hab. apply le_IZR. nra.
  - intros Hab. apply IZR_le in Hab. nra.
Qed.

Lemma grid_lt (a b e : Z) : (IZR a * bpow e < IZR b * bpow e)%R ↔ a < b.
Proof.
  pose proof (bpow_pos e). split.
  - intros Hab. apply lt_IZR. nra.
  - intros Hab. apply IZR_lt in Hab. nra.
Qed.

Lemma fexp_eq e : fexp prec emax e = Z.max (e - 53) (-1074).
Proof. reflexivity. Qed.

Lemma digits_exp_le (m e K : Z) :
  0 ≤ m → e ≤ K → (IZR m * bpow e <= bpow (K - 1))%R → Zdigits2 m + e ≤ K.
Proof.
  intros Hm He Hle. destruct (Z.eq_dec m 0) as [->|]; [cbn; lia|].
  destruct (Zdigits2_bounds m) as [[Hd _] Hd0]; [lia|].
  enough (Zdigits2 m - 1 + e ≤ K - 1) by lia.
  apply bpow_le_inv. etransitivity; [|done].
  rewrite Z.add_comm, <- (Rmult_1_l (bpow _)), grid_shift by lia.
  apply grid_le. lia.
Qed.

(** [binary_round_aux] on a mantissa [mx] at exponent [ex] with location
    [lx], which stands for a real [x] in [[mx, mx + 1)] units of [2^ex]:
    when [x] is at most [2^(K-1)], the result is zero or a finite float of
    exponent at most [K - 53], and rounding does not cross a multiple of
    [2^g], [K - 53 ≤ g]. *)
Lemma binary_round_aux_bounds (mx ex : Z) (lx : location) (x : R) (K : Z) :
  0 ≤ mx →
  (x < IZR (mx + 1) * bpow ex)%R →
  (lx = loc_Exact → x = (IZR mx * bpow ex)%R) →
  (lx ≠ loc_Exact → (IZR mx * bpow ex < x)%R) →
  ex ≤ K - 53 → (x <= bpow (K - 1))%R → -1021 ≤ K ≤ 1024 →
  ∃ f, binary_round_aux prec emax false mx ex lx = f ∧
    (f = S754_zero false ∨ ∃ m e, f = S754_finite false m e ∧ e ≤ K - 53) ∧
    ∀ k g, K - 53 ≤ g →
      ((IZR k * bpow g <= x)%R → (IZR k * bpow g <= SF2R f)%R) ∧
      ((x <= IZR k * bpow g)%R → (SF2R f <= IZR k * bpow g)%R).
Proof.
  intros Hmx Hlt Hex Hin HexK HxK HK.
  assert (IZR mx * bpow ex <= x)%R as Hle.
  { destruct lx; [rewrite Hex by done; lra|]. apply Rlt_le, Hin. done. }
  destruct (binary_round_aux_spec mx ex lx Hmx) as (m1 & Hm1 & Hm1x & ->).
  cbv zeta in *.
  set (e' := Z.max ex (fexp prec emax (Zdigits2 mx + ex))) in *.
  set (e'' := Z.max e' (fexp prec emax (Zdigits2 m1 + e'))) in *.
  assert (e' ≤ K - 53) as He'.
  { pose proof (digits_exp_le mx ex K Hmx ltac:(lia) ltac:(lra)).
    unfold e'. rewrite fexp_eq. lia. }
  assert (ex ≤ e') as Hn1 by (unfold e'; lia).
  set (n1 := e' - ex) in *.
  assert (0 < 2 ^ n1) as HP by (apply Z.pow_pos_nonneg; lia).
  pose proof (Z.div_mod mx (2 ^ n1) ltac:(lia)) as Hdm.
  pose proof (Z.mod_pos_bound mx (2 ^ n1) HP) as Hr.
  set (m' := mx `div` 2 ^ n1) in *. set (r := mx `mod` 2 ^ n1) in *.
  (* thresholds on the grid of e' *)
  assert (∀ T : Z, (IZR T * bpow e' <= x)%R → T ≤ m') as Hlo.
  { intros T HT. replace e' with (ex + n1) in HT by lia.
    rewrite grid_shift in HT by lia.
    assert (T * 2 ^ n1 < mx + 1) by (apply (grid_lt _ _ ex); lra). nia. }
  assert (∀ T : Z, (x <= IZR T * bpow e')%R → m1 ≤ T) as Hup.
  { intros T HT. replace e' with (ex + n1) in HT by lia.
    rewrite grid_shift in HT by lia.
    assert (mx ≤ T * 2 ^ n1) as HmT by (apply (grid_le _ _ ex); lra).
    destruct lx as [|c].
    - destruct (decide (r = 0)) as [Hr0|Hr0].
      + rewrite (Hm1x eq_refl Hr0). nia.
      + enough (m' < T) by lia. nia.
    - enough (m' < T) by lia.
      assert (IZR mx * bpow ex < x)%R by (by apply Hin).
      assert (mx < T * 2 ^ n1) by (apply (grid_lt _ _ ex); lra). nia. }
  assert (0 ≤ m1) as Hm1pos.
  { enough (0 ≤ m') by lia. apply Z.div_pos; lia. }
  assert (IZR m1 * bpow e' <= bpow (K - 1))%R as Hm1K.
  { replace (K - 1) with (e' + (K - 1 - e')) by lia.
    rewrite <- (Rmult_1_l (bpow (e' + _))), grid_shift by lia.
    apply grid_le, Hup.
    rewrite <- grid_shift, Rmult_1_l by lia.
    by replace (e' + (K - 1 - e')) with (K - 1) by lia. }
  assert (e'' ≤ K - 53) as He''.
  { pose proof (digits_exp_le m1 e' K Hm1pos ltac:(lia) Hm1K).
    unfold e''. rewrite fexp_eq. lia. }
  assert (e' ≤ e'') as Hn2 by (unfold e''; lia).
  set (n2 := e'' - e') in *.
  assert (0 < 2 ^ n2) as HP2 by (apply Z.pow_pos_nonneg; lia).
  pose proof (Z.div_mod m1 (2 ^ n2) ltac:(lia)) as Hdm2.
  pose proof (Z.mod_pos_bound m1 (2 ^ n2) HP2) as Hr2.
  set (m'' := m1 `div` 2 ^ n2) in *.
  assert (0 ≤ m'') as Hm''pos by (apply Z.div_pos; lia).
  eexists. split; [done|].
  assert (SF2R match m'' with
               | 0 => S754_zero false
               | Z.pos m =>
                   if e'' <=? emax - prec then S754_finite false m e''
                   else S754_infinity false
               | Z.neg _ => S754_nan
               end = (IZR m'' * bpow e'')%R) as Hval.
  { destruct m'' as [|p|p]; [cbn; lra| |lia].
    replace (e'' <=? emax - prec) with true; [done|].
    symmetry. apply Z.leb_le. unfold emax, prec. lia. }
  split.
  { destruct m'' as [|p|p]; [by left| |lia]. right.
    replace (e'' <=? emax - prec) with true; [by eauto|].
    symmetry. apply Z.leb_le. unfold emax, prec. lia. }
  intros k g Hg. rewrite Hval.
  replace g with (e' + (g - e')) by lia. rewrite grid_shift by lia.
  split; intros Hk.
  - apply Hlo in Hk.
    replace (IZR (k * 2 ^ (g - e')) * bpow e')%R
      with (IZR (k * 2 ^ (g - e'')) * bpow e'')%R.
    { apply grid_le. 
      assert (k * 2 ^ (g - e') = k * 2 ^ (g - e'') * 2 ^ n2) as Hkk.
      { rewrite <- Z.mul_assoc, <- Z.pow_add_r by lia. do 2 f_equal. lia. }
      nia. }
    rewrite <- !grid_shift by lia. do 2 f_equal; lia.
  - apply Hup in Hk. 
    replace e'' with (e' + n2) by lia. rewrite grid_shift by lia.
    apply grid_le. nia.
Qed.

(** *** Products and quotients *)

Lemma SFmul_rounds (mx : positive) (ex : Z) (my : positive) (ey K : Z) :
  let x := (IZR (Z.pos mx) * bpow ex * (IZR (Z.pos my) * bpow ey))%R in
  ex + ey ≤ K - 53 → (x <= bpow (K - 1))%R → -1021 ≤ K ≤ 1024 →
  rounds_to x K
    (SFmul prec emax (S754_finite false mx ex) (S754_finite false my ey)).
Proof.
  intros x He Hx HK. cbn [SFmul xorb].
  assert (x = IZR (Z.pos (mx * my)) * bpow (ex + ey))%R as Hxe.
  { unfold x. rewrite Pos2Z.inj_mul, mult_IZR, bpow_add. ring. }
  destruct (binary_round_aux_bounds (Z.pos (mx * my)) (ex + ey) loc_Exact
              x K) as (f & -> & Hf); try done.
  rewrite Hxe. apply grid_lt. lia.
Qed.

Lemma new_location_exact (m r : Z) :
  new_location m r = loc_Exact ↔ r = 0.
Proof.
  unfold new_location, new_location_even, new_location_odd.
  destruct (Z.even m), (Z.eqb_spec r 0); split; try done.
Qed.

Lemma SFdiv_rounds (m1 : positive) (e1 : Z) (m2 : positive) (e2 K : Z) :
  let x := (IZR (Z.pos m1) * bpow e1 / (IZR (Z.pos m2) * bpow e2))%R in
  (x <= bpow (K - 1))%R → -1021 ≤ K ≤ 1024 →
  rounds_to x K
    (SFdiv prec emax (S754_finite false m1 e1) (S754_finite false m2 e2)).
Proof.
  intros x Hx HK. cbn [SFdiv xorb]. unfold SFdiv_core_binary.
  set (D := Zdigits2 (Z.pos m1) + e1 - (Zdigits2 (Z.pos m2) + e2)).
  set (e' := Z.min (fexp prec emax D) (e1 - e2)).
  set (s := e1 - e2 - e').
  assert (0 ≤ s) as Hs by (unfold s, e'; lia).
  set (m' := match s with Z.pos _ => Z.shiftl (Z.pos m1) s | 0 => Z.pos m1
             | Z.neg _ => 0 end).
  assert (m' = Z.pos m1 * 2 ^ s) as Hm'.
  { unfold m'. destruct s as [|p|p]; [lia| |lia].
    by rewrite Z.shiftl_mul_pow2. }
  clearbody m'.
  assert (0 < 2 ^ s) as HP by (apply Z.pow_pos_nonneg; lia).
  pose proof (Z.div_mod m' (Z.pos m2) ltac:(lia)) as Hdm.
  pose proof (Z.mod_pos_bound m' (Z.pos m2) ltac:(lia)) as Hr.
  unfold Z.div, Z.modulo in Hdm, Hr.
  destruct (Z.div_eucl m' (Z.pos m2)) as [q r].
  pose proof (bpow_pos e1) as Hb1. pose proof (bpow_pos e2) as Hb2.
  pose proof (bpow_pos e') as Hb'.
  assert (0 < IZR (Z.pos m1))%R as H1 by (apply IZR_lt; lia).
  assert (0 < IZR (Z.pos m2))%R as H2 by (apply IZR_lt; lia).
  assert (x * IZR (Z.pos m2) = IZR m' * bpow e')%R as Hxe.
  { unfold x. rewrite Hm', mult_IZR, <- (bpow_IZR s Hs).
    replace e1 with (e2 + (s + e')) by (unfold s; lia).
    rewrite !bpow_add. field. lra. }
  assert (0 ≤ q) as Hq by nia.
  (* the exponent of the quotient *)
  assert (e' ≤ K - 53) as He'.
  { enough (D ≤ K) by (unfold e'; rewrite fexp_eq; lia).
    destruct (Zdigits2_bounds (Z.pos m1)) as [[Hd1 _] ?]; [lia|].
    destruct (Zdigits2_bounds (Z.pos m2)) as [[_ Hd2] ?]; [lia|].
    set (d1 := Zdigits2 (Z.pos m1)) in *. set (d2 := Zdigits2 (Z.pos m2)) in *.
    enough (d1 - 1 + e1 < K - 1 + (d2 + e2)) by (unfold D; lia).
    enough (bpow (d1 - 1 + e1) < bpow (K - 1 + (d2 + e2)))%R as Hlt.
    { destruct (Z_lt_le_dec (d1 - 1 + e1) (K - 1 + (d2 + e2))) as [|Hge];
        [done|]. pose proof (bpow_le _ _ Hge). lra. }
    assert (0 ≤ d1 - 1) by lia.
    apply IZR_le in Hd1. apply IZR_lt in Hd2.
    rewrite <- !bpow_IZR in Hd1, Hd2 by lia.
    rewrite !bpow_add.
    pose proof (bpow_pos (K - 1)). pose proof (bpow_pos d2).
    pose proof (bpow_pos (d1 - 1)).
    assert (x * (IZR (Z.pos m2) * bpow e2) = IZR (Z.pos m1) * bpow e1)%R
      as Hxm by (unfold x; field; lra).
    assert (0 < x)%R.
    { unfold x. apply Rdiv_lt_0_compat; nra. }
    assert (bpow (d1 - 1) * bpow e1 <= x * (IZR (Z.pos m2) * bpow e2))%R
      by nra.
    assert (x * (IZR (Z.pos m2) * bpow e2)
            < bpow (K - 1) * (bpow d2 * bpow e2))%R; [|lra].
    assert (0 < IZR (Z.pos m2) * bpow e2)%R by (by apply Rmult_lt_0_compat).
    apply Rle_lt_trans with (bpow (K - 1) * (IZR (Z.pos m2) * bpow e2))%R.
    { apply Rmult_le_compat_r; [lra|done]. }
    apply Rmult_lt_compat_l; [done|].
    apply Rmult_lt_compat_r; [done|lra]. }
  assert (IZR m' = IZR (Z.pos m2) * IZR q + IZR r)%R as HdmR.
  { rewrite <- mult_IZR, <- plus_IZR. by f_equal. }
  assert (0 <= IZR r < IZR (Z.pos m2))%R as HrR.
  { split; [apply IZR_le|apply IZR_lt]; lia. }
  destruct (binary_round_aux_bounds q e' (new_location (Z.pos m2) r) x K)
    as (f & -> & Hf); try done.
  - rewrite plus_IZR. nra.
  - intros Hex. apply new_location_exact in Hex. subst r.
    apply (Rmult_eq_reg_r (IZR (Z.pos m2))); [|lra]. nra.
  - intros Hin. assert (r ≠ 0) as Hr0.
    { intros ->. by apply Hin, new_location_exact. }
    assert (0 < IZR r)%R by (apply IZR_lt; lia). nra.
Qed.

(** *** The operations of [binary64] *)

Lemma Prim2SF_of_int (z : Z) :
  0 ≤ z < 2 ^ 63 →
  Prim2SF (of_int z) = binary_normalize prec emax z 0 false.
Proof.
  intros Hz. cbn [of_int binary64].
  pose proof (of_uint63_spec (Uint63.of_Z z)) as Hspec.
  assert (wB = 2 ^ 63) as HwB by reflexivity.
  rewrite Uint63.of_Z_spec, Z.mod_small in Hspec by lia.
  by rewrite <- Hspec, SF2Prim_Prim2SF.
Qed.

Lemma shl_align_spec (mx : positive) (ex ex' : Z) :
  ∃ mz ez, shl_align mx ex ex' = (mz, ez) ∧ ez = Z.min ex ex' ∧
    Z.pos mz = Z.pos mx * 2 ^ (ex - ez).
Proof.
  unfold shl_align. destruct (ex' - ex) as [|d|d] eqn:Hd.
  - exists mx, ex. rewrite Z.min_l, Z.sub_diag by lia. split_and!; [done..|lia].
  - exists mx, ex. rewrite Z.min_l, Z.sub_diag by lia. split_and!; [done..|lia].
  - eexists _, ex'. rewrite Z.min_r by lia. split_and!; [done..|].
    replace (ex - ex') with (Z.pos d) by lia.
    change (Pos.iter xO mx d) with (shift_pos d mx).
    rewrite shift_pos_correct. change (Zpower_pos 2 d) with (2 ^ Z.pos d). lia.
Qed.
Lemma of_int_0 : Prim2SF (of_int 0) = S754_zero false.
Proof. reflexivity. Qed.

Lemma of_int_pos (z : Z) :
  0 < z ≤ 2 ^ 52 →
  ∃ m e, Prim2SF (of_int z) = S754_finite false m e ∧
         (IZR (Z.pos m) * bpow e)%R = IZR z.
Proof.
  intros Hz. rewrite Prim2SF_of_int by lia.
  destruct z as [|p|p]; [lia| |lia]. cbn [binary_normalize].
  unfold binary_round.
  destruct (shl_align_spec p 0 (fexp prec emax (Z.pos (digits2_pos p) + 0)))
    as (mz & ez & -> & Hez & Hmz).
  assert (ez ≤ 0) as Hez0 by lia.
  assert (IZR (Z.pos p) = IZR (Z.pos mz) * bpow ez)%R as Hx.
  { rewrite Hmz, <- grid_shift by lia.
    replace (ez + (0 - ez)) with 0 by lia. rewrite bpow_0. ring. }
  destruct (binary_round_aux_bounds (Z.pos mz) ez loc_Exact
              (IZR (Z.pos p)) 53) as (f & -> & Hf & Hth); try done; try lia.
  { rewrite Hx. apply grid_lt. lia. }
  { change (53 - 1) with 52. rewrite (bpow_IZR 52) by lia. apply IZR_le. lia. }
  destruct (Hth (Z.pos p) 0 ltac:(lia)) as [Hlo Hup].
  rewrite bpow_0, Rmult_1_r in Hlo, Hup.
  specialize (Hlo ltac:(lra)). specialize (Hup ltac:(lra)).
  assert (0 < IZR (Z.pos p))%R by (apply IZR_lt; lia).
  destruct Hf as [->|(m & e & -> & _)]; [cbn in *; lra|].
  exists m, e. split; [done|]. cbn in *. lra.
Qed.

Lemma valid_exp_le (f : float) (m : positive) (e K : Z) :
  Prim2SF f = S754_finite false m e →
  (F2R f < bpow K)%R → -1021 ≤ K → e ≤ K - 53.
Proof.
  intros Hf HK HKr. pose proof (Prim2SF_valid f) as Hv.
  unfold F2R in HK. rewrite Hf in Hv, HK. cbn in Hv, HK.
  apply andb_prop in Hv as [Hc _]. unfold canonical_mantissa in Hc.
  apply Z.eqb_eq in Hc. rewrite fexp_eq in Hc.
  destruct (digits2_pos_bounds m) as [Hd _].
  set (d := Z.pos (digits2_pos m)) in *.
  destruct (Z_le_gt_dec e (-1074)) as [|Hgt]; [lia|].
  assert (d = 53) as Hd53 by lia. rewrite Hd53 in Hd.
  enough (52 + e < K) by lia.
  destruct (Z_lt_le_dec (52 + e) K) as [|Hge]; [done|].
  pose proof (bpow_le _ _ Hge) as Hb.
  rewrite Z.add_comm, bpow_add, (bpow_IZR 52) in Hb by lia.
  apply IZR_le in Hd. pose proof (bpow_pos e). 
  replace (53 - 1) with 52 in Hd by lia. nra.
Qed.

Lemma to_int_rounds (f : float) (x : R) (K : Z) :
  rounds_to x K (Prim2SF f) → K ≤ 53 →
  ∃ n, to_int f = Ok n ∧
       (∀ k, (IZR k <= x)%R → k ≤ n) ∧ (∀ k, (x <= IZR k)%R → n ≤ k).
Proof.
  intros [Hf Hth] HK. cbn [to_int binary64].
  assert (∀ k, ((IZR k <= x)%R → (IZR k <= SF2R (Prim2SF f))%R) ∧
               ((x <= IZR k)%R → (SF2R (Prim2SF f) <= IZR k)%R)) as Hth0.
  { intros k. specialize (Hth k 0 ltac:(lia)).
    by rewrite bpow_0, Rmult_1_r in Hth. }
  clear Hth. destruct Hf as [Hf|(m & e & Hf & He)]; rewrite Hf in *.
  - exists 0. split; [done|]. cbn [SF2R] in Hth0.
    split; intros k Hk; apply Hth0 in Hk.
    + by apply le_IZR.
    + by apply le_IZR.
  - exists (Z.pos m `div` 2 ^ (- e)). split.
    { destruct (Z.leb_spec 0 e); [|done].
      replace e with 0 by lia. cbn [Z.opp]. 
      by rewrite Z.pow_0_r, Z.mul_1_r, Z.div_1_r. }
    cbn [SF2R] in Hth0.
    assert (0 < 2 ^ (- e)) by (apply Z.pow_pos_nonneg; lia).
    assert (∀ k, IZR k = IZR (k * 2 ^ (- e)) * bpow e)%R as Hgrid.
    { intros k. rewrite <- grid_shift by lia.
      replace (e + - e) with 0 by lia. rewrite bpow_0. ring. }
    split; intros k Hk; apply Hth0 in Hk; rewrite (Hgrid k) in Hk;
      apply grid_le in Hk.
    + apply Z.div_le_lower_bound; lia.
    + apply Z.div_le_upper_bound; lia.
Qed.

Lemma fmul_rounds (a b : float) ma ea mb eb (Ka Kb : Z) :
  Prim2SF a = S754_finite false ma ea →
  Prim2SF b = S754_finite false mb eb →
  (F2R a < bpow Ka)%R → (F2R b < bpow Kb)%R →
  -1021 ≤ Ka → -1021 ≤ Kb → -1021 ≤ Ka + Kb + 1 ≤ 1024 →
  rounds_to (F2R a * F2R b) (Ka + Kb + 1) (Prim2SF (PrimFloat.mul a b)).
Proof.
  intros Ha Hb HKa HKb ? ? ?.
  pose proof (valid_exp_le a ma ea Ka Ha HKa ltac:(lia)).
  pose proof (valid_exp_le b mb eb Kb Hb HKb ltac:(lia)).
  rewrite mul_spec. unfold SF64mul, F2R in *. rewrite Ha, Hb in *.
  cbn [SF2R] in *. apply SFmul_rounds; [lia| |lia].
  replace (Ka + Kb + 1 - 1) with (Ka + Kb) by lia. rewrite bpow_add.
  assert (0 < IZR (Z.pos ma))%R by (apply IZR_lt; lia).
  assert (0 < IZR (Z.pos mb))%R by (apply IZR_lt; lia).
  pose proof (bpow_pos ea). pose proof (bpow_pos eb).
  apply Rlt_le, Rmult_le_0_lt_compat; try done; apply Rlt_le;
    by apply Rmult_lt_0_compat.
Qed.

Lemma fdiv_rounds (a b : float) ma ea mb eb (K : Z) :
  Prim2SF a = S754_finite false ma ea →
  Prim2SF b = S754_finite false mb eb →
  (F2R a / F2R b <= bpow (K - 1))%R → -1021 ≤ K ≤ 1024 →
  rounds_to (F2R a / F2R b) K (Prim2SF (PrimFloat.div a b)).
Proof.
  intros Ha Hb HK ?. rewrite div_spec. unfold SF64div, F2R in *.
  rewrite Ha, Hb in *. cbn [SF2R] in *. by apply SFdiv_rounds.
Qed.

Lemma truediv_finite (a b : float) mb eb :
  Prim2SF b = S754_finite false mb eb →
  truediv a b = Ok (PrimFloat.div a b).
Proof.
  intros Hb. cbn [truediv binary64]. rewrite FloatAxioms.eqb_spec, Hb.
  by change (Prim2SF zero) with (S754_zero false).
Qed.

Lemma Rdiv_le_l (a b c : R) : (0 < b → a <= c * b → a / b <= c)%R.
Proof.
  intros Hb Hac. assert (a / b * b = a)%R as Hq by (field; lra).
  set (q := (a / b)%R) in *. clearbody q. nra.
Qed.

Lemma Rdiv_le_r (a b c : R) : (0 < b → c * b <= a → c <= a / b)%R.
Proof.
  intros Hb Hac. assert (a / b * b = a)%R as Hq by (field; lra).
  set (q := (a / b)%R) in *. clearbody q. nra.
Qed.

(** [int(f)] of a float that is not negative and has no digit left of the
    binary point beyond the 53rd is the integer part of its value. *)
Lemma to_int_floor (f : float) (x : R) (K : Z) :
  rounds_to x K (Prim2SF f) → K ≤ 53 →
  ∃ n, to_int f = Ok n ∧ (IZR n <= F2R f < IZR n + 1)%R.
Proof.
  intros [Hf _] HK. cbn [to_int binary64]. unfold F2R.
  destruct Hf as [Hf|(m & e & Hf & He)]; rewrite Hf.
  - exists 0. split; [done|]. cbn [SF2R]. lra.
  - exists (Z.pos m `div` 2 ^ (- e)). split.
    { destruct (Z.leb_spec 0 e); [|done].
      replace e with 0 by lia. cbn [Z.opp].
      by rewrite Z.pow_0_r, Z.mul_1_r, Z.div_1_r. }
    cbn [SF2R].
    assert (0 < 2 ^ (- e)) as HP by (apply Z.pow_pos_nonneg; lia).
    pose proof (Z.div_mod (Z.pos m) (2 ^ (- e)) ltac:(lia)) as Hdm.
    pose proof (Z.mod_pos_bound (Z.pos m) (2 ^ (- e)) HP) as Hr.
    set (n := Z.pos m `div` 2 ^ (- e)) in *.
    assert (∀ k, IZR k = IZR (k * 2 ^ (- e)) * bpow e)%R as Hgrid.
    { intros k. rewrite <- grid_shift by lia.
      replace (e + - e) with 0 by lia. rewrite bpow_0. ring. }
    rewrite <- plus_IZR, (Hgrid n), (Hgrid (n + 1)). split.
    + apply grid_le. lia.
    + apply grid_lt. lia.
Qed.

(** On valid floats that are positive, [<] compares the values. *)
Lemma canonical_digits (f : float) (m : positive) (e : Z) :
  Prim2SF f = S754_finite false m e →
  -1074 ≤ e ∧ Z.pos m < 2 ^ 53 ∧ (-1074 < e → 2 ^ 52 ≤ Z.pos m).
Proof.
  intros Hf. pose proof (Prim2SF_valid f) as Hv. rewrite Hf in Hv.
  cbn in Hv. apply andb_prop in Hv as [Hc _].
  unfold canonical_mantissa in Hc. apply Z.eqb_eq in Hc.
  rewrite fexp_eq in Hc.
  destruct (digits2_pos_bounds m) as [Hlo Hhi].
  set (d := Z.pos (digits2_pos m)) in *.
  assert (d ≤ 53) as Hd by lia.
  split_and!; [lia| |].
  - eapply Z.lt_le_trans; [done|]. apply Z.pow_le_mono_r; lia.
  - intros He. assert (d = 53) as Hd53 by lia. by rewrite Hd53 in Hlo.
Qed.

Lemma finite_lt_exp (a b : float) ma ea mb eb :
  Prim2SF a = S754_finite false ma ea →
  Prim2SF b = S754_finite false mb eb →
  ea < eb → (F2R a < F2R b)%R.
Proof.
  intros Ha Hb Hlt.
  destruct (canonical_digits a ma ea Ha) as (Hea & Hma & _).
  destruct (canonical_digits b mb eb Hb) as (_ & _ & Hmb).
  specialize (Hmb ltac:(lia)).
  unfold F2R. rewrite Ha, Hb. cbn [SF2R].
  replace eb with (ea + (eb - ea)) by lia. rewrite grid_shift by lia.
  apply grid_lt.
  assert (2 ≤ 2 ^ (eb - ea)).
  { replace (eb - ea) with (Z.succ (eb - ea - 1)) by lia.
    rewrite Z.pow_succ_r by lia.
    pose proof (Z.pow_pos_nonneg 2 (eb - ea - 1)). lia. }
  nia.
Qed.

Lemma fmin_le (a b : float) ma ea mb eb :
  Prim2SF a = S754_finite false ma ea →
  Prim2SF b = S754_finite false mb eb →
  (F2R (fmin a b) <= F2R a)%R ∧ (F2R (fmin a b) <= F2R b)%R.
Proof.
  intros Ha Hb. unfold fmin. cbn [flt binary64].
  rewrite ltb_spec, Ha, Hb. unfold SFltb. cbn [SFcompare].
  destruct (Z.compare_spec eb ea) as [Heq|Hlt|Hgt]; cbv iota.
  - subst eb. rewrite Pos.compare_cont_spec.
    assert (∀ m m' : positive,
              (m ≤ m')%positive →
              (IZR (Z.pos m) * bpow ea <= IZR (Z.pos m') * bpow ea)%R) as Hle.
    { intros m m' Hm. apply grid_le. lia. }
    destruct (Pos.compare_spec mb ma) as [Hm|Hm|Hm];
      cbn [Pos.switch_Eq]; cbv iota;
      unfold F2R; rewrite Ha, Hb; cbn [SF2R]; split;
      try apply Rle_refl; apply Hle; lia.
  - pose proof (finite_lt_exp b a _ _ _ _ Hb Ha Hlt). lra.
  - pose proof (finite_lt_exp a b _ _ _ _ Ha Hb Hgt). lra.
Qed.

(** Rounding moves a value by less than one step of the grid. *)
Lemma rounds_to_near (x : R) (K : Z) (f : spec_float) (g : Z) :
  rounds_to x K f → K - 53 ≤ g →
  (x - bpow g <= SF2R f <= x + bpow g)%R.
Proof.
  intros [_ Hth] Hg.
  pose proof (bpow_pos g) as Hb. pose proof (bpow_pos (- g)) as Hb'.
  assert (bpow (- g) * bpow g = 1)%R as Hgg.
  { rewrite <- bpow_add. replace (- g + g) with 0 by lia. apply bpow_0. }
  destruct (archimed (x * bpow (- g))) as [Hup1 Hup2].
  set (k := up (x * bpow (- g))) in *.
  assert (x = x * bpow (- g) * bpow g)%R as Hx.
  { rewrite Rmult_assoc, Hgg. ring. }
  split.
  - destruct (Hth (k - 1) g Hg) as [Hlo _].
    rewrite minus_IZR in Hlo.
    assert ((IZR k - 1) * bpow g <= x)%R as Hk by nra.
    specialize (Hlo Hk). nra.
  - destruct (Hth k g Hg) as [_ Hhi].
    assert (x <= IZR k * bpow g)%R as Hk by nra.
    specialize (Hhi Hk). nra.
Qed.

(** *** Negative operands *)

Lemma binary_round_aux_opp (mx ex : Z) (lx : location) :
  binary_round_aux prec emax true mx ex lx =
  SFopp (binary_round_aux prec emax false mx ex lx).
Proof.
  unfold binary_round_aux.
  destruct (shr_fexp prec emax mx ex lx) as [mrs' e'].
  destruct (shr_fexp prec emax _ e' loc_Exact) as [mrs'' e''].
  destruct (shr_m mrs''); [done| |done]. by destruct (_ <=? _).
Qed.

Lemma of_int_opp (z : Z) :
  0 < z < 2 ^ 63 → Prim2SF (of_int (- z)) = SFopp (Prim2SF (of_int z)).
Proof.
  intros Hz. rewrite <- opp_spec. f_equal.
  rewrite <- (SF2Prim_Prim2SF (- of_int z)), opp_spec, Prim2SF_of_int by lia.
  cbn [of_int binary64]. f_equal.
  destruct z as [|p|p]; [lia| |lia]. change (- Z.pos p) with (Z.neg p).
  cbn [binary_normalize]. unfold binary_round.
  destruct (shl_align p 0 _) as [mz ez]. apply binary_round_aux_opp.
Qed.

Lemma SFdiv_opp (m1 : positive) (e1 : Z) (m2 : positive) (e2 : Z) :
  SFdiv prec emax (S754_finite true m1 e1) (S754_finite false m2 e2) =
  SFopp (SFdiv prec emax (S754_finite false m1 e1) (S754_finite false m2 e2)).
Proof.
  unfold SFdiv. destruct (SFdiv_core_binary _ _ _ _ _ _) as [[mz ez] lz].
  apply binary_round_aux_opp.
Qed.

End Binary64.

(** ** Coordinates *)

Section Coordinates.

(** What a call of [draw_image] that stores a scale has computed. *)
Lemma draw_image_Ok {F : Type} `{PyFloat F} (self v : App.view F)
    (iw ih cw ch : Z) :
  App.image self = Some (iw, ih) → 1 < cw → 1 < ch →
  App.draw_image self cw ch = Ok v →
  ∃ a b nw nh,
    truediv (of_int cw) (of_int iw) = Ok a ∧
    truediv (of_int ch) (of_int ih) = Ok b ∧
    to_int (fmul (of_int iw) (fmin a b)) = Ok nw ∧
    to_int (fmul (of_int ih) (fmin a b)) = Ok nh ∧
    0 < nw ∧ 0 < nh ∧
    v = {| App.image := Some (iw, ih); App.scale := fmin a b;
           App.offset := ((cw - nw) `div` 2, (ch - nh) `div` 2) |}.
Proof.
  intros Himg Hcw Hch. unfold App.draw_image. rewrite Himg.
  replace ((cw <=? 1) || (ch <=? 1)) with false
    by (symmetry; apply orb_false_iff; rewrite !Z.leb_gt; lia).
  destruct (truediv (of_int cw) (of_int iw)) as [a|]; [|done].
  destruct (truediv (of_int ch) (of_int ih)) as [b|]; [|done].
  cbn [mbind result_bind Py.bind].
  destruct (to_int (fmul (of_int iw) (fmin a b))) as [nw|] eqn:Hw; [|done].
  destruct (to_int (fmul (of_int ih) (fmin a b))) as [nh|] eqn:Hh; [|done].
  cbn [mbind result_bind Py.bind].
  destruct ((nw <=? 0) || (nh <=? 0)) eqn:Hsize; [done|].
  apply orb_false_iff in Hsize as [Hnw Hnh]. rewrite Z.leb_gt in Hnw, Hnh.
  intros [= <-]. by exists a, b, nw, nh.
Qed.

Lemma truediv_sizes (c i j : Z) :
  0 < c < 2 ^ 24 → 0 < i < 2 ^ 24 → 0 ≤ j ≤ 24 → i ≤ 2 ^ j * c →
  ∃ a, truediv (of_int c) (of_int i) = Ok a ∧ scale_within j a.
Proof.
  intros Hc Hi Hj Hic.
  destruct (of_int_pos c) as (mc & ec & HPc & Hvc); [lia|].
  destruct (of_int_pos i) as (mi & ei & HPi & Hvi); [lia|].
  rewrite (truediv_finite _ _ _ _ HPi). eexists. split; [done|].
  assert (F2R (of_int c) = IZR c) as Hc' by (unfold F2R; by rewrite HPc).
  assert (F2R (of_int i) = IZR i) as Hi' by (unfold F2R; by rewrite HPi).
  assert (1 <= IZR i)%R by (apply IZR_le; lia).
  assert (1 <= IZR c)%R by (apply IZR_le; lia).
  assert (IZR c <= bpow 24)%R.
  { rewrite (bpow_IZR 24) by lia. apply IZR_le. lia. }
  assert (IZR i <= bpow j * IZR c)%R.
  { rewrite (bpow_IZR j), <- mult_IZR by lia. by apply IZR_le. }
  pose proof (bpow_pos j). pose proof (bpow_pos (- j)).
  assert (bpow j * bpow (- j) = 1)%R as Hjj.
  { rewrite <- bpow_add. replace (j + - j) with 0 by lia. apply bpow_0. }
  assert (bpow (- j) <= IZR c / IZR i <= bpow 24)%R as [Hlo Hhi].
  { split.
    - apply Rdiv_le_r; [lra|]. 
      nra.
    - apply Rdiv_le_l; [lra|]. nra. }
  destruct (fdiv_rounds _ _ _ _ _ _ 25 HPc HPi) as [Hf Hth]; [|lia|].
  { rewrite Hc', Hi'. by change (25 - 1) with 24. }
  rewrite Hc', Hi' in Hth.
  destruct (Hth 1 (- j) ltac:(lia)) as [Hl _].
  destruct (Hth 1 24 ltac:(lia)) as [_ Hu].
  rewrite Rmult_1_l in Hl, Hu. specialize (Hl Hlo). specialize (Hu Hhi).
  split; [|done].
  destruct Hf as [Hz|(m & e & Hf & _)]; [|by eauto].
  rewrite Hz in Hl. cbn in Hl. lra.
Qed.

Lemma fmin_cases (a b : float) : fmin a b = a ∨ fmin a b = b.
Proof. unfold fmin. destruct (flt b a); auto. Qed.

(** ** One coordinate, to the display and back *)

(** [int(p * scale)]: the product is rounded, but not across an integer. *)
Lemma to_display_axis (p j : Z) (s : float) :
  0 ≤ p < 2 ^ 24 → scale_within j s →
  ∃ m, to_int (fmul (of_int p) s) = Ok m ∧
    (∀ k, (IZR k <= IZR p * F2R s)%R → k ≤ m) ∧
    (∀ k, (IZR p * F2R s <= IZR k)%R → m ≤ k).
Proof.
  intros Hp [(ms & es & Hs) [Hlo Hhi]].
  destruct (decide (p = 0)) as [->|Hp0].
  - exists 0. split.
    { cbn [to_int fmul binary64]. rewrite mul_spec, of_int_0, Hs. done. }
    rewrite Rmult_0_l. split; intros k Hk; by apply le_IZR.
  - destruct (of_int_pos p) as (mp & ep & HP & Hv); [lia|].
    assert (F2R (of_int p) = IZR p) as Hp' by (unfold F2R; by rewrite HP).
    rewrite <- Hp'. apply (to_int_rounds _ _ (24 + 25 + 1)); [|lia].
    apply (fmul_rounds _ _ _ _ _ _ 24 25 HP Hs); try lia.
    + rewrite Hp', (bpow_IZR 24) by lia. apply IZR_lt. lia.
    + pose proof (bpow_lt 24 25 ltac:(lia)). lra.
Qed.

(** [int(m / scale)]: the quotient is rounded, but not across an integer. *)
Lemma to_image_axis (m j : Z) (s : float) :
  0 ≤ m ≤ 2 ^ 52 → scale_within j s → (IZR m / F2R s <= bpow 51)%R →
  ∃ u r, truediv (of_int m) s = Ok u ∧ to_int u = Ok r ∧
    (∀ k, (IZR k <= IZR m / F2R s)%R → k ≤ r) ∧
    (∀ k, (IZR m / F2R s <= IZR k)%R → r ≤ k).
Proof.
  intros Hm [(ms & es & Hs) [Hlo Hhi]] Hq.
  rewrite (truediv_finite _ _ _ _ Hs). eexists. 
  destruct (decide (m = 0)) as [->|Hm0].
  - exists 0. split; [done|]. split.
    { cbn [to_int binary64]. rewrite div_spec, of_int_0, Hs. done. }
    unfold Rdiv. rewrite Rmult_0_l.
    split; intros k Hk; by apply le_IZR.
  - destruct (of_int_pos m) as (mm & em & HM & Hv); [lia|].
    assert (F2R (of_int m) = IZR m) as Hm' by (unfold F2R; by rewrite HM).
    rewrite <- Hm' in *.
    destruct (to_int_rounds (PrimFloat.div (of_int m) s)
                (F2R (of_int m) / F2R s) 52) as (r & Hr & Hth); [|lia|].
    { by apply (fdiv_rounds _ _ _ _ _ _ 52 HM Hs). }
    by exists r.
Qed.

(** A coordinate sent to the display and read back stays within [2^j]. *)
Lemma round_trip_axis (p j off : Z) (s : float) :
  0 ≤ p < 2 ^ 24 → 0 ≤ j ≤ 24 → scale_within j s →
  ∃ m u r,
    to_int (fmul (of_int p) s) = Ok m ∧
    truediv (of_int (m + off - off)) s = Ok u ∧ to_int u = Ok r ∧
    p - 2 ^ j ≤ r ≤ p + 2 ^ j.
Proof.
  intros Hp Hj Hs.
  destruct (to_display_axis p j s Hp Hs) as (m & Hm & Hmlo & Hmhi).
  pose proof Hs as [_ [Hlo Hhi]].
  set (S := F2R s) in *. set (x := (IZR p * S)%R) in *.
  pose proof (bpow_pos (- j)). pose proof (bpow_pos j).
  assert (bpow j * bpow (- j) = 1)%R as Hjj.
  { rewrite <- bpow_add. replace (j + - j) with 0 by lia. apply bpow_0. }
  assert (0 <= IZR p < bpow 24)%R as HpR.
  { rewrite (bpow_IZR 24) by lia. split; [apply IZR_le|apply IZR_lt]; lia. }
  assert (bpow j <= bpow 24)%R as Hj24 by (apply bpow_le; lia).
  assert (1 <= bpow j * S)%R as HJS by nra.
  assert (0 < S)%R as HS by lra.
  assert (0 <= x)%R as Hx0 by (unfold x; nra).
  (* the display coordinate is within one of the exact product *)
  destruct (archimed x) as [Hup1 Hup2].
  assert (x - 1 <= IZR m <= x + 1)%R as [Hm1 Hm2].
  { split.
    - specialize (Hmlo (up x - 1)). rewrite minus_IZR in Hmlo.
      specialize (Hmlo ltac:(lra)). apply IZR_le in Hmlo.
      rewrite minus_IZR in Hmlo. lra.
    - specialize (Hmhi (up x) ltac:(lra)). apply IZR_le in Hmhi. lra. }
  assert (0 ≤ m) as Hm0 by (apply Hmlo; simpl; lra).
  assert (x <= bpow 48)%R as Hx48.
  { change 48 with (24 + 24). rewrite bpow_add. unfold x. nra. }
  assert (m ≤ 2 ^ 52) as Hm52.
  { apply Hmhi. rewrite <- (bpow_IZR 52) by lia.
    pose proof (bpow_le 48 52 ltac:(lia)). lra. }
  unfold x in Hm1, Hm2.
  assert (IZR m / S <= bpow 51)%R as Hq.
  { apply Rdiv_le_l; [done|].
    assert (2 * bpow 24 <= bpow 51)%R as H25.
    { rewrite !bpow_IZR, <- mult_IZR by lia. by apply IZR_le. }
    assert (IZR m <= (IZR p + bpow j) * S)%R by nra.
    assert ((IZR p + bpow j) <= bpow 51)%R by lra. nra. }
  destruct (to_image_axis m j s ltac:(lia) Hs Hq)
    as (u & r & Hu & Hr & Hrlo & Hrhi).
  exists m, u, r. rewrite Z.add_simpl_r. split_and!; try done.
  - apply Hrlo. apply Rdiv_le_r; [done|].
    rewrite minus_IZR, <- (bpow_IZR j) by lia. fold S. nra.
  - apply Hrhi. apply Rdiv_le_l; [done|].
    rewrite plus_IZR, <- (bpow_IZR j) by lia. fold S. nra.
Qed.

Lemma to_int_fmul_0 (j : Z) (s : float) :
  scale_within j s → to_int (fmul (of_int 0) s) = Ok 0.
Proof.
  intros [(ms & es & Hs) _].
  cbn [to_int fmul binary64]. by rewrite mul_spec, of_int_0, Hs.
Qed.

(** The scale that [draw_image] stores for sides below [2^24]. *)
Lemma draw_image_scale (self v : App.view float) (iw ih cw ch j : Z) :
  App.image self = Some (iw, ih) →
  0 < iw < 2 ^ 24 → 0 < ih < 2 ^ 24 → 1 < cw < 2 ^ 24 → 1 < ch < 2 ^ 24 →
  0 ≤ j ≤ 24 → iw ≤ 2 ^ j * cw → ih ≤ 2 ^ j * ch →
  App.draw_image self cw ch = Ok v →
  scale_within j (App.scale v).
Proof.
  intros Himg Hiw Hih Hcw Hch Hj Hjw Hjh Hdraw.
  destruct (draw_image_Ok self v iw ih cw ch Himg ltac:(lia) ltac:(lia) Hdraw)
    as (a & b & nw & nh & Ha & Hb & _ & _ & _ & _ & ->).
  destruct (truediv_sizes cw iw j) as (a' & Ha' & Hsa); [lia..|].
  destruct (truediv_sizes ch ih j) as (b' & Hb' & Hsb); [lia..|].
  rewrite Ha in Ha'. rewrite Hb in Hb'.
  injection Ha' as <-. injection Hb' as <-.
  cbn [App.scale]. by destruct (fmin_cases a b) as [-> | ->].
Qed.

End Coordinates.

(** C5, as the code has it.  The scale that [draw_image] computes for a
    photo and a canvas with sides below [2^24] is rounded, and so are the
    product and the quotient that take a point to the display and back.
    When the photo is reduced by at most [2^j] on either side, a point of
    the image that is drawn by [draw_facebox] and read back by
    [canvas_to_image_coords] comes back within [2^j] pixels on either
    axis: within one pixel when the photo is not reduced. *)
Theorem round_trip_bound (self v : App.view float) (iw ih cw ch : Z)
    (j : nat) (px py : Z) :
  App.image self = Some (iw, ih) →
  0 < iw < 2 ^ 24 → 0 < ih < 2 ^ 24 → 1 < cw < 2 ^ 24 → 1 < ch < 2 ^ 24 →
  iw ≤ 2 ^ Z.of_nat j * cw → ih ≤ 2 ^ Z.of_nat j * ch →
  App.draw_image self cw ch = Ok v →
  0 ≤ px ≤ iw → 0 ≤ py ≤ ih →
  ∃ qx qy,
    round_trip v px py = Ok (qx, qy) ∧
    Z.abs (qx - px) ≤ 2 ^ Z.of_nat j ∧ Z.abs (qy - py) ≤ 2 ^ Z.of_nat j.
Proof.
  intros Himg Hiw Hih Hcw Hch Hjw Hjh Hdraw Hpx Hpy.
  set (j' := Z.min (Z.of_nat j) 24).
  assert (0 ≤ j' ≤ 24) as Hj' by (unfold j'; lia).
  assert (2 ^ j' ≤ 2 ^ Z.of_nat j) as Hjj.
  { apply Z.pow_le_mono_r; unfold j'; lia. }
  assert (iw ≤ 2 ^ j' * cw ∧ ih ≤ 2 ^ j' * ch) as [Hjw' Hjh'].
  { unfold j'. destruct (Z.min_spec (Z.of_nat j) 24) as [[_ ->]|[_ ->]];
      [done|]. lia. }
  pose proof (draw_image_scale self v iw ih cw ch j' Himg Hiw Hih Hcw Hch
                Hj' Hjw' Hjh' Hdraw) as Hs.
  destruct (round_trip_axis px j' (App.offset v).1 (App.scale v))
    as (mx & ux & qx & Hmx & Hux & Hqx & Hbx); [lia|done..|].
  destruct (round_trip_axis py j' (App.offset v).2 (App.scale v))
    as (my & uy & qy & Hmy & Huy & Hqy & Hby); [lia|done..|].
  exists qx, qy. split; [|lia].
  unfold round_trip, App.draw_facebox.
  cbn [FaceBox.new FaceBox.x FaceBox.y FaceBox.w FaceBox.h].
  rewrite Hmx, Hmy, (to_int_fmul_0 j' _ Hs).
  cbn [mbind result_bind Py.bind]. unfold App.canvas_to_image_coords.
  rewrite Hux, Huy. cbn [mbind result_bind Py.bind].
  by rewrite Hqx, Hqy.
Qed.

Lemma round_trip_bound_witness :
  ∃ qx qy,
    round_trip Examples.photo_1600x1200_fitted 3 3 = Ok (qx, qy) ∧
    Z.abs (qx - 3) ≤ 2 ^ Z.of_nat 2 ∧ Z.abs (qy - 3) ≤ 2 ^ Z.of_nat 2.
Proof.
  apply (round_trip_bound Examples.photo_1600x1200
           Examples.photo_1600x1200_fitted 1600 1200 400 400 2 3 3).
  - reflexivity.
  - lia.
  - lia.
  - lia.
  - lia.
  - simpl. lia.
  - simpl. lia.
  - vm_compute. reflexivity.
  - lia.
  - lia.
Defined.

(** A photo of 1600 by 1200 pixels in a canvas of 400 by 400 is drawn at a
    quarter of its size; the image point (3, 3) is drawn at (0, 50), and
    (0, 50) is read back as the image point (0, 0): three pixels off on
    both axes. *)
Lemma round_trip_three_pixels_off :
  ∃ v,
    App.draw_image Examples.photo_1600x1200 400 400 = Ok v ∧
    App.scale v = 0.25%float ∧ App.offset v = (0, 50) ∧
    App.draw_facebox v (FaceBox.new 3 3 40 40 1) = Ok (0, 50, 10, 10) ∧
    App.canvas_to_image_coords v 0 50 = Ok (0, 0) ∧
    1 < 3 - 0.
Proof.
  eexists. split; [by vm_compute|]. by split_and!; vm_compute.
Qed.

(** C3, as the code has it.  A photo of 800 by 600 pixels in a canvas of
    400 by 400 gets the scale 0.5 and the offset (0, 50): the fitted
    picture is 300 pixels high and leaves 100 pixels, half of them above
    it. *)
Theorem compute_fit_scenario (scale0 : float) (offset0 : Z * Z) :
  App.draw_image
    {| App.image := Some (800, 600); App.scale := scale0;
       App.offset := offset0 |} 400 400 =
  Ok {| App.image := Some (800, 600); App.scale := 0.5%float;
        App.offset := (0, 50) |}.
Proof. by vm_compute. Qed.

(** The offset of that scenario is not (0, 100). *)
Lemma compute_fit_scenario_offset :
  ∃ v,
    App.draw_image Examples.photo_800x600 400 400 = Ok v ∧
    App.scale v = 0.5%float ∧ App.offset v = (0, 50) ∧
    App.offset v ≠ (0, 100).
Proof.
  eexists. split; [by vm_compute|]. by split_and!.
Qed.

(** C8, as the code has it.  While the canvas is at most one pixel wide
    or high, [draw_image] returns at once: it divides nothing, raises
    nothing, reports nothing and leaves the scale and the offset as they
    were, whatever the photo and the float arithmetic. *)
Theorem draw_image_not_laid_out {F : Type} `{PyFloat F} (self : App.view F)
    (cw ch : Z) :
  cw ≤ 1 ∨ ch ≤ 1 → App.draw_image self cw ch = Ok self.
Proof.
  intros Hsmall. unfold App.draw_image.
  destruct (App.image self) as [[iw ih]|]; [|done].
  assert ((cw <=? 1) || (ch <=? 1) = true) as ->; [|done].
  apply orb_true_iff. rewrite !Z.leb_le. done.
Qed.

Lemma draw_image_not_laid_out_witness :
  App.draw_image Examples.photo_800x600_fitted 1 1 =
  Ok Examples.photo_800x600_fitted.
Proof.
  apply (draw_image_not_laid_out Examples.photo_800x600_fitted 1 1).
  left. lia.
Defined.

(** A call made before the canvas is laid out ends as a call that redraws
    a fitted photo does: with an ordinary return and the same state.  No
    exception tells the two apart. *)
Lemma draw_image_not_ready_is_silent :
  App.draw_image Examples.photo_800x600_fitted 1 1 =
    Ok Examples.photo_800x600_fitted ∧
  App.draw_image Examples.photo_800x600_fitted 400 400 =
    Ok Examples.photo_800x600_fitted ∧
  ∀ e, App.draw_image Examples.photo_800x600_fitted 1 1 ≠ Raise e.
Proof.
  split_and!; [by vm_compute..|]. intros e. by vm_compute.
Qed.

(** ** The list of present students and removal *)

Section PresentList.

Implicit Types (r : Roster.t) (fs : list FaceBox.t) (fb : FaceBox.t)
  (idx : nat) (line : string) (seen : gset nat).

Lemma get_display_valid r idx :
  (idx < length (Roster.df r))%nat → ∃ line, Roster.get_display r idx = Ok line.
Proof.
  intros [row Hrow]%lookup_lt_is_Some_2. unfold Roster.get_display.
  rewrite Hrow. by eexists.
Qed.

Lemma present_idxs_cons fb fs :
  App.present_idxs (fb :: fs) =
  match FaceBox.assigned_idx fb with
  | Some idx => {[idx]} ∪ App.present_idxs fs
  | None => App.present_idxs fs
  end.
Proof. unfold App.present_idxs. simpl. by destruct (FaceBox.assigned_idx fb). Qed.

Lemma assignments_valid_cons r fb fs :
  assignments_valid r (fb :: fs) → assignments_valid r fs.
Proof. intros Hv fb' idx Hin. apply Hv. by right. Qed.

(** With valid assignments the loop inserts, after the lines it started
    with, the line of every assigned student not seen before. *)
Lemma present_loop_valid r fs seen (items : list string) :
  assignments_valid r fs →
  ∃ items',
    App.present_loop r fs seen items = (Ok (), items') ∧
    ∀ line,
      line ∈ items' ↔
      line ∈ items ∨
      (∃ idx, idx ∈ App.present_idxs fs ∧ (idx ∉ seen) ∧
              Roster.get_display r idx = Ok line).
Proof.
  revert seen items. induction fs as [|fb fs IH]; intros seen items Hv.
  - exists items. split; [done|]. intros line. split; [by left|].
    intros [?|(idx & Hin & _)]; [done|]. by apply elem_of_empty in Hin.
  - cbn [App.present_loop]. rewrite present_idxs_cons.
    pose proof (assignments_valid_cons _ _ _ Hv) as Hv'.
    destruct (FaceBox.assigned_idx fb) as [idx|] eqn:Hidx; [|by apply IH].
    destruct (decide (idx ∈ seen)) as [Hseen|Hnew].
    + destruct (IH seen items Hv') as (items' & Hloop & Hitems).
      exists items'. split; [done|]. intros line. rewrite Hitems.
      split; (intros [?|(idx' & Hin & Hout & Hline)]; [by left|right]);
        exists idx'; (split_and!; [|done..]).
      * apply elem_of_union. by right.
      * apply elem_of_union in Hin as [->%elem_of_singleton|Hin]; done.
    + destruct (get_display_valid r idx) as [l Hl].
      { apply (Hv fb); [by left|done]. }
      rewrite Hl.
      destruct (IH ({[idx]} ∪ seen) (items ++ [l])%list Hv')
        as (items' & Hloop & Hitems).
      exists items'. split; [done|]. intros line. rewrite Hitems.
      rewrite elem_of_app, list_elem_of_singleton. split.
      * intros [[?| ->]|(idx' & Hin & Hout & Hline)].
        -- by left.
        -- right. exists idx. split_and!; [|done..].
           apply elem_of_union. left. by apply elem_of_singleton.
        -- right. exists idx'. split_and!; [| |done].
           ++ apply elem_of_union. by right.
           ++ intros Hs. apply Hout, elem_of_union. by right.
      * intros [?|(idx' & Hin & Hout & Hline)]; [by left; left|].
        destruct (decide (idx' = idx)) as [->|Hne].
        -- left. right. congruence.
        -- right. exists idx'. split_and!; [| |done].
           ++ apply elem_of_union in Hin as [Hin%elem_of_singleton|Hin];
                done.
           ++ intros [Hs%elem_of_singleton|Hs]%elem_of_union; done.
Qed.

(** The loop of [remove_selected] clears the face at position [i] when
    that face shows [line] and no assigned face before it does. *)
Lemma remove_loop_first r line fs (i : nat) fb idx :
  fs !! i = Some fb →
  FaceBox.assigned_idx fb = Some idx →
  Roster.get_display r idx = Ok line →
  (∀ (j : nat) fb' idx',
     (j < i)%nat → fs !! j = Some fb' →
     FaceBox.assigned_idx fb' = Some idx' →
     ∃ line', Roster.get_display r idx' = Ok line' ∧ line' ≠ line) →
  App.remove_loop r line fs =
  Ok (alter (FaceBox.set_assigned_idx None) i fs).
Proof.
  revert i. induction fs as [|fb0 fs IH]; intros i Hi Hidx Hline Hbefore.
  - by rewrite lookup_nil in Hi.
  - destruct i as [|i]; cbn [App.remove_loop].
    + injection Hi as ->. rewrite Hidx, Hline.
      cbn [mbind result_bind Py.bind]. by rewrite bool_decide_eq_true_2.
    + simpl in Hi.
      assert (App.remove_loop r line fs =
              Ok (alter (FaceBox.set_assigned_idx None) i fs)) as Hrest.
      { apply IH; [done..|]. intros j fb' idx' Hj Hfb'.
        apply (Hbefore (S j)); [lia|done]. }
      destruct (FaceBox.assigned_idx fb0) as [idx0|] eqn:Hidx0.
      * destruct (Hbefore 0%nat fb0 idx0) as (line0 & Hline0 & Hne);
          [lia|done..|].
        rewrite Hline0. cbn [mbind result_bind Py.bind].
        rewrite bool_decide_eq_false_2 by done. by rewrite Hrest.
      * by rewrite Hrest.
Qed.

Lemma assignments_valid_alter r fs (i : nat) :
  assignments_valid r fs →
  assignments_valid r (alter (FaceBox.set_assigned_idx None) i fs).
Proof.
  intros Hv fb idx [j Hj]%list_elem_of_lookup_1 Hidx.
  rewrite list_lookup_alter in Hj.
  destruct (decide (i = j)) as [->|Hne].
  - destruct (fs !! j); simplify_eq/=.
  - apply (Hv fb); [|done]. by eapply list_elem_of_lookup_2.
Qed.

End PresentList.

(** C10, as the code has it.  Let entry [E] be assigned to the faces at
    positions [i1] and [i2], every assignment of the batch be a row of the
    roster, and no assigned face before [i1] be shown with the line of [E]
    (so that [i1] is the first face bound to [E]).  Removing the selected
    line of [E] clears the face at [i1] and changes nothing else: the face
    at [i2] keeps [E], [E] is still in [present_idxs], its line is still in
    the list box, and the report still marks row [E] present. *)
Theorem remove_clears_first_binding (self : App.t) (now : nat -> Z)
    (E : nat) (line : string) (s : nat) (rest : list nat) (i1 i2 : nat)
    (fb1 fb2 : FaceBox.t) :
  assignments_valid (App.roster self) (App.faces self) →
  App.present_list self !! s = Some line →
  Roster.get_display (App.roster self) E = Ok line →
  App.faces self !! i1 = Some fb1 → FaceBox.assigned_idx fb1 = Some E →
  App.faces self !! i2 = Some fb2 → FaceBox.assigned_idx fb2 = Some E →
  i1 ≠ i2 →
  (∀ (j : nat) fb idx,
     (j < i1)%nat → App.faces self !! j = Some fb →
     FaceBox.assigned_idx fb = Some idx →
     Roster.get_display (App.roster self) idx ≠ Ok line) →
  ∃ self',
    App.remove_selected self (s :: rest) = (Ok (), self') ∧
    App.faces self' =
      alter (FaceBox.set_assigned_idx None) i1 (App.faces self) ∧
    App.faces self' !! i1 = Some (FaceBox.set_assigned_idx None fb1) ∧
    App.faces self' !! i2 = Some fb2 ∧
    E ∈ App.present_idxs (App.faces self') ∧
    line ∈ App.present_list self' ∧
    ∃ rows rec,
      App.save_attendance self' now = Attendance.ToExcel (now 0%nat) rows ∧
      rows !! E = Some rec ∧
      Attendance.Status rec = Attendance.Present.
Proof.
  intros Hv Hsel Hline H1 HE1 H2 HE2 Hne Hbefore.
  set (fs' := alter (FaceBox.set_assigned_idx None) i1 (App.faces self)).
  assert (App.remove_loop (App.roster self) line (App.faces self) = Ok fs')
    as Hloop.
  { eapply remove_loop_first; [done..|].
    intros j fb idx Hj Hfb Hidx.
    destruct (get_display_valid (App.roster self) idx) as [line' Hline'].
    { apply (Hv fb); [|done]. by eapply list_elem_of_lookup_2. }
    exists line'. split; [done|]. intros ->. by eapply Hbefore. }
  assert (assignments_valid (App.roster self) fs') as Hv'
    by (by apply assignments_valid_alter).
  destruct (present_loop_valid (App.roster self) fs' ∅ [] Hv')
    as (items & Hitems & Hin).
  assert (fs' !! i2 = Some fb2) as H2'.
  { unfold fs'. by rewrite list_lookup_alter_ne. }
  assert (E ∈ App.present_idxs fs') as HE.
  { apply elem_of_present_idxs. exists fb2.
    split; [by eapply list_elem_of_lookup_2|done]. }
  exists (App.set_present_list items (App.set_faces fs' self)).
  split_and!.
  - unfold App.remove_selected. rewrite Hsel. cbn [default from_option Datatypes.id].
    rewrite Hloop. unfold App.refresh_present_list.
    cbn [App.set_faces App.roster App.faces]. by rewrite Hitems.
  - done.
  - cbn [App.set_present_list App.set_faces App.faces]. unfold fs'.
    by rewrite list_lookup_alter_eq, H1.
  - done.
  - done.
  - cbn [App.set_present_list App.present_list]. apply Hin. right.
    exists E. split_and!; [done| |done]. apply not_elem_of_empty.
  - assert (E < length (Roster.df (App.roster self)))%nat as HEvalid.
    { apply (Hv fb2); [|done]. by eapply list_elem_of_lookup_2. }
    destruct (lookup_lt_is_Some_2 _ _ HEvalid) as [row Hrow].
    destruct (save_attendance_rows
                (App.set_present_list items (App.set_faces fs' self)) now)
      as (rows & Hsave & _ & _ & Hrows).
    { cbn [App.set_present_list App.set_faces App.roster].
      intros Hnil. by rewrite Hnil in Hrow. }
    destruct (Hrows E row Hrow) as (rec & Hrec & _ & _ & _ & Hstatus).
    exists rows, rec. split_and!; [done..|].
    rewrite Hstatus. cbn [App.set_present_list App.set_faces App.faces].
    by rewrite decide_True.
Qed.

Lemma remove_clears_first_binding_witness :
  ∃ self',
    App.remove_selected Examples.app_ann_twice [0%nat] = (Ok (), self') ∧
    App.faces self' =
      alter (FaceBox.set_assigned_idx None) 0%nat
        (App.faces Examples.app_ann_twice) ∧
    App.faces self' !! 0%nat =
      Some (FaceBox.set_assigned_idx None
              (FaceBox.set_assigned_idx (Some 0%nat) Examples.faceA)) ∧
    App.faces self' !! 1%nat =
      Some (FaceBox.set_assigned_idx (Some 0%nat) Examples.faceB) ∧
    0%nat ∈ App.present_idxs (App.faces self') ∧
    "Ann  —  A001" ∈ App.present_list self' ∧
    ∃ rows rec,
      App.save_attendance self' Examples.ticking =
        Attendance.ToExcel (Examples.ticking 0%nat) rows ∧
      rows !! 0%nat = Some rec ∧
      Attendance.Status rec = Attendance.Present.
Proof.
  apply (remove_clears_first_binding Examples.app_ann_twice Examples.ticking
           0%nat "Ann  —  A001" 0%nat [] 0%nat 1%nat
           (FaceBox.set_assigned_idx (Some 0%nat) Examples.faceA)
           (FaceBox.set_assigned_idx (Some 0%nat) Examples.faceB)).
  - intros fb idx Hin Hidx.
    apply elem_of_cons in Hin as [->|Hin];
      [|apply elem_of_cons in Hin as [->|Hin];
        [|by apply elem_of_nil in Hin]];
      simpl in Hidx; injection Hidx as <-; simpl; lia.
  - reflexivity.
  - reflexivity.
  - reflexivity.
  - reflexivity.
  - reflexivity.
  - reflexivity.
  - lia.
  - intros j fb idx Hj. lia.
Defined.

(** With two rows that are shown alike, removing the selected line of row
    0, which is bound to the second and the third face, clears the first
    face, which is bound to row 1; neither face of row 0 is cleared. *)
Lemma remove_clears_lookalike :
  App.refresh_present_list Examples.app_twins = (Ok (), Examples.app_twins) ∧
  Roster.get_display Examples.roster_twins 0%nat =
    Ok (default "" (App.present_list Examples.app_twins !! 1%nat)) ∧
  ∃ self',
    App.remove_selected Examples.app_twins [1%nat] = (Ok (), self') ∧
    FaceBox.assigned_idx <$> App.faces self' =
      [None; Some 0%nat; Some 0%nat] ∧
    FaceBox.assigned_idx <$> App.faces Examples.app_twins =
      [Some 1%nat; Some 0%nat; Some 0%nat].
Proof.
  split_and!; [by vm_compute..|].
  eexists. split; [by vm_compute|]. by split.
Qed.

(** ** Searching the roster *)

Section SearchFacts.

Variable re_compile : string -> result (string -> bool).

Implicit Types (r : Roster.t) (query q : string) (i : nat).

Lemma labels_of_rows {A : Type} (l : list A) :
  (imap pair l).*1 = seq 0 (length l).
Proof.
  apply list_eq. intros i.
  rewrite list_lookup_fmap, list_lookup_imap.
  destruct (l !! i) as [a|] eqn:Hi; simpl.
  - symmetry. apply lookup_seq. split; [done|]. by eapply lookup_lt_Some.
  - symmetry. apply lookup_seq_ge. by apply lookup_ge_None.
Qed.

Lemma lstrip_blank q :
  (∀ c, c ∈ list_ascii_of_string q → isspace c = true) → lstrip q = "".
Proof.
  induction q as [|c q IH]; [done|]. intros Hall. simpl.
  rewrite (Hall c) by (simpl; by left). apply IH.
  intros c' Hc'. apply Hall. simpl. by right.
Qed.

Lemma strip_blank q :
  (∀ c, c ∈ list_ascii_of_string q → isspace c = true) → strip q = "".
Proof. intros Hall. unfold strip. by rewrite lstrip_blank. Qed.

Lemma search_blank r query :
  strip query = "" →
  Roster.search re_compile r query = Ok (seq 0 (length (Roster.df r))).
Proof. intros Hq. unfold Roster.search. by rewrite Hq. Qed.

Lemma search_sublist r query idxs :
  Roster.search re_compile r query = Ok idxs →
  sublist idxs (seq 0 (length (Roster.df r))).
Proof.
  unfold Roster.search. case_bool_decide; [by intros [= <-]|].
  destruct (re_compile _) as [found|]; [|done]. intros [= <-].
  rewrite <- labels_of_rows. apply fmap_sublist, sublist_filter.
Qed.

(** [search] raises only what compiling the pattern raises. *)
Lemma search_raise r query e :
  Roster.search re_compile r query = Raise e →
  lower (strip query) ≠ "" ∧ re_compile (lower (strip query)) = Raise e.
Proof.
  unfold Roster.search. case_bool_decide; [done|].
  destruct (re_compile _) as [found|]; [done|]. by intros [= <-].
Qed.

(** For a query without regular expression characters the engine only
    looks for the text of the query. *)
Lemma search_literal r query :
  (∀ p, literal p = true →
        ∃ found, re_compile p = Ok found ∧ ∀ s, found s = Py.contains p s) →
  literal (lower (strip query)) = true →
  Roster.search re_compile r query =
  Roster.search (λ p, Ok (Py.contains p)) r query.
Proof.
  intros Hre Hq. unfold Roster.search. case_bool_decide; [done|].
  destruct (Hre _ Hq) as (found & -> & Hfound).
  cbn [mbind result_bind Py.bind]. do 2 f_equal.
  apply list_filter_iff. intros [i row].
  unfold Roster.mask. by rewrite !Hfound.
Qed.

End SearchFacts.

(** C6 at a query that is an admission number.  The query is lowered, the
    names are lowered, the admission numbers are not: a query with a
    capital letter finds no admission number, and the lowered query does
    not find the admission number written with capitals either, while the
    name is found in any case. *)
Theorem search_admission_no_keeps_case
    (re_compile : string -> result (string -> bool)) :
  (∀ p, literal p = true →
        ∃ found, re_compile p = Ok found ∧ ∀ s, found s = Py.contains p s) →
  Roster.Admission_No <$> Roster.df Examples.roster1 !! 0%nat = Some "A001" ∧
  Roster.search re_compile Examples.roster1 "A001" = Ok [] ∧
  Roster.search re_compile Examples.roster1 "a001" = Ok [] ∧
  Roster.search re_compile Examples.roster1 "ANN" = Ok [0%nat].
Proof.
  intros Hre. split; [done|].
  rewrite !(search_literal re_compile) by done. by vm_compute.
Qed.

Lemma search_admission_no_keeps_case_witness :
  Roster.Admission_No <$> Roster.df Examples.roster1 !! 0%nat = Some "A001" ∧
  Roster.search (λ p, Ok (Py.contains p)) Examples.roster1 "A001" = Ok [] ∧
  Roster.search (λ p, Ok (Py.contains p)) Examples.roster1 "a001" = Ok [] ∧
  Roster.search (λ p, Ok (Py.contains p)) Examples.roster1 "ANN" =
    Ok [0%nat].
Proof.
  apply (search_admission_no_keeps_case (λ p, Ok (Py.contains p))).
  intros p Hp. exists (Py.contains p). split; reflexivity.
Defined.

(** Whenever [search] returns, what it returns are labels of the roster, in
    roster order and without repetition, whatever the query and the
    engine; it raises only what compiling a pattern that is not empty
    raises; and a query that is empty once its ASCII blanks are stripped,
    in particular a query made of ASCII blanks only, returns every label,
    whatever the engine does. *)
Theorem search_labels_in_order
    (re_compile : string -> result (string -> bool))
    (r : Roster.t) (query : string) :
  (∀ idxs, Roster.search re_compile r query = Ok idxs →
           sublist idxs (seq 0 (length (Roster.df r)))) ∧
  (∀ e, Roster.search re_compile r query = Raise e →
        ∃ p, p ≠ "" ∧ re_compile p = Raise e) ∧
  (strip query = "" →
   Roster.search re_compile r query = Ok (seq 0 (length (Roster.df r)))) ∧
  ((∀ c, c ∈ list_ascii_of_string query → isspace c = true) →
   Roster.search re_compile r query = Ok (seq 0 (length (Roster.df r)))).
Proof.
  split_and!.
  - apply search_sublist.
  - intros e He. apply search_raise in He as [Hq He]. by eexists.
  - apply search_blank.
  - intros Hblank. by apply search_blank, strip_blank.
Qed.

(** The scenario of two students and one face bound to the first: Ann is
    reported present, Bob absent, both with the name of the photo. *)
Theorem report_ann_present_bob_absent :
  ∃ d ann bob,
    App.save_attendance Examples.app_ann Examples.ticking =
      Attendance.ToExcel d [ann; bob] ∧
    (Attendance.Name ann, Attendance.Status ann) =
      ("Ann", Attendance.Present) ∧
    (Attendance.Name bob, Attendance.Status bob) =
      ("Bob", Attendance.Absent) ∧
    Attendance.Photo ann = "class.jpg" ∧ Attendance.Photo bob = "class.jpg".
Proof.
  do 3 eexists. split; [by vm_compute|]. by split_and!.
Qed.

(** * Further properties *)

(** ** List box lines *)

Section ListboxLines.

Implicit Types (d : uint) (idx : nat) (display : string).

Lemma before_uint d rest :
  before "::" (NilEmpty.string_of_uint d ++ "::" ++ rest) =
  NilEmpty.string_of_uint d.
Proof. induction d; simpl; [by destruct rest|by f_equal..]. Qed.

Lemma rstrip_uint d :
  rstrip (NilEmpty.string_of_uint d) = NilEmpty.string_of_uint d.
Proof. induction d; simpl; [done|rewrite IHd; by destruct d..]. Qed.

Lemma strip_uint d :
  strip (NilEmpty.string_of_uint d) = NilEmpty.string_of_uint d.
Proof.
  unfold strip.
  assert (lstrip (NilEmpty.string_of_uint d) = NilEmpty.string_of_uint d)
    as -> by (by destruct d).
  apply rstrip_uint.
Qed.

Lemma parse_digits_uint d (acc : nat) :
  parse_digits (NilEmpty.string_of_uint d) (Z.of_nat acc) true =
  Some (Z.of_nat (Nat.of_uint_acc d acc)).
Proof.
  revert acc. induction d; intros acc; simpl; [done|..];
    rewrite <- IHd; f_equal; rewrite Nat.tail_mul_spec; lia.
Qed.

Lemma parse_digits_first d (acc : Z) :
  d ≠ Nil →
  parse_digits (NilEmpty.string_of_uint d) acc false =
  parse_digits (NilEmpty.string_of_uint d) acc true.
Proof. by destruct d. Qed.

Lemma int_of_uint d :
  d ≠ Nil →
  int_of_str (NilEmpty.string_of_uint d) = Ok (Z.of_nat (Nat.of_uint d)).
Proof.
  intros Hd. unfold int_of_str. rewrite strip_uint.
  assert (match NilEmpty.string_of_uint d with
          | String c b =>
              if bool_decide (c = "-"%char) then (true, b)
              else if bool_decide (c = "+"%char)
                   then (false, b)
                   else (false, NilEmpty.string_of_uint d)
          | EmptyString => (false, NilEmpty.string_of_uint d)
          end = (false, NilEmpty.string_of_uint d)) as -> by (by destruct d).
  rewrite parse_digits_first by done.
  change 0 with (Z.of_nat 0). by rewrite parse_digits_uint.
Qed.

(** The text before the first [::] of a line is a number that [int] reads
    as the label the line was built from, whatever the display text. *)
Lemma int_of_listbox_item idx display :
  int_of_str (before "::" (App.listbox_item idx display)) =
  Ok (Z.of_nat idx).
Proof.
  unfold App.listbox_item, str_of_nat.
  rewrite <- (Unsigned.of_to idx) at 2.
  destruct (Nat.to_uint idx) as [|d|d|d|d|d|d|d|d|d|d] eqn:Hd.
  1: change (NilZero.string_of_uint Nil)
       with (NilEmpty.string_of_uint (D0 Nil)).
  all: unfold NilZero.string_of_uint; rewrite before_uint.
  all: by rewrite int_of_uint.
Qed.

End ListboxLines.

Section AssignDialog.

Variable re_compile : string -> result (string -> bool).

Implicit Types (r : Roster.t) (idxs : list nat) (items : list string).

Lemma search_labels_valid r query idxs idx :
  Roster.search re_compile r query = Ok idxs →
  idx ∈ idxs → (idx < length (Roster.df r))%nat.
Proof.
  intros Hsub%search_sublist Hin.
  eapply elem_of_sublist in Hin; [|done].
  apply elem_of_seq in Hin. lia.
Qed.

(** For labels of the roster the loop does not raise and adds one line
    for each label, in order. *)
Lemma listbox_loop_valid r idxs items :
  (∀ idx, idx ∈ idxs → (idx < length (Roster.df r))%nat) →
  ∃ lines,
    App.listbox_loop r idxs items = (Ok (), (items ++ lines)%list) ∧
    Forall2
      (λ idx line,
         ∃ display, Roster.get_display r idx = Ok display ∧
                    line = App.listbox_item idx display)
      idxs lines.
Proof.
  revert items. induction idxs as [|idx idxs IH]; intros items Hvalid.
  - exists []. by rewrite app_nil_r.
  - destruct (get_display_valid r idx) as [display Hdisplay].
    { apply Hvalid. by left. }
    destruct (IH (items ++ [App.listbox_item idx display])%list)
      as (lines & Hloop & Hlines).
    { intros idx' Hin. apply Hvalid. by right. }
    exists (App.listbox_item idx display :: lines).
    cbn [App.listbox_loop]. rewrite Hdisplay, Hloop.
    split; [by rewrite <- app_assoc|].
    constructor; [by exists display|done].
Qed.

End AssignDialog.

(** The list box of the assignment dialog.  When the search raises, which
    it does for a query that is not a regular expression, [refresh] raises
    the same and leaves the list box empty.  When the search returns, the
    list box is filled without an exception, with one line for each label
    returned, in that order; the label that [do_assign] reads off the line
    at a position is the label returned at that position, and it is a row
    of the roster.  The first fill, made with an empty query, never
    raises. *)
Theorem assign_dialog_lines (re_compile : string -> result (string -> bool))
    (r : Roster.t) (query : string) :
  (∀ e, Roster.search re_compile r query = Raise e →
        App.assign_dialog_refresh re_compile r query = (Raise e, [])) ∧
  (∀ idxs,
     Roster.search re_compile r query = Ok idxs →
     ∃ items,
       App.assign_dialog_refresh re_compile r query = (Ok (), items) ∧
       length items = length idxs ∧
       ∀ (k : nat) (rest : list nat) idx,
         idxs !! k = Some idx →
         (idx < length (Roster.df r))%nat ∧
         App.selected_label items (k :: rest) = Ok (Some (Z.of_nat idx))) ∧
  ∃ items,
    App.assign_dialog_refresh re_compile r "" = (Ok (), items) ∧
    length items = length (Roster.df r).
Proof.
  assert (∀ q idxs,
            Roster.search re_compile r q = Ok idxs →
            ∃ items,
              App.assign_dialog_refresh re_compile r q = (Ok (), items) ∧
              length items = length idxs ∧
              ∀ (k : nat) (rest : list nat) idx,
                idxs !! k = Some idx →
                (idx < length (Roster.df r))%nat ∧
                App.selected_label items (k :: rest) =
                  Ok (Some (Z.of_nat idx))) as Hfill.
  { intros q idxs Hsearch.
    destruct (listbox_loop_valid r idxs []) as (lines & Hloop & Hlines).
    { intros idx. by apply (search_labels_valid re_compile r q). }
    exists lines. unfold App.assign_dialog_refresh. rewrite Hsearch.
    split_and!.
    - done.
    - symmetry. by eapply Forall2_length.
    - intros k rest idx Hk. split.
      + eapply search_labels_valid; [done|]. by eapply list_elem_of_lookup_2.
      + destruct (Forall2_lookup_l _ _ _ _ _ Hlines Hk)
          as (line & Hline & display & _ & ->).
        unfold App.selected_label. rewrite Hline.
        cbn [default from_option Datatypes.id].
        by rewrite int_of_listbox_item. }
  split_and!.
  - intros e He. unfold App.assign_dialog_refresh. by rewrite He.
  - apply Hfill.
  - destruct (Hfill "" (seq 0 (length (Roster.df r))))
      as (items & Hitems & Hlen & _); [done|].
    exists items. by rewrite Hlen, length_seq in *.
Qed.

(** A list box line read back: whatever the display text, even one that
    itself holds [::], the text before the first [::] is the decimal form
    of the label, and [int] of it is the label. *)
Theorem listbox_item_round_trip (idx : nat) (display : string) :
  before "::" (App.listbox_item idx display) = str_of_nat idx ∧
  int_of_str (before "::" (App.listbox_item idx display)) =
    Ok (Z.of_nat idx).
Proof.
  split; [|apply int_of_listbox_item].
  unfold App.listbox_item, str_of_nat.
  destruct (Nat.to_uint idx) eqn:Hd;
    [change (NilZero.string_of_uint Nil)
       with (NilEmpty.string_of_uint (D0 Nil))|..];
    unfold NilZero.string_of_uint; by rewrite before_uint.
Qed.

(** ** Loading a roster *)

Section LoadCsv.

Implicit Types (rows : list Roster.row) (index : gmap string (list nat))
  (key : string).

Lemma named_cons key start r rows :
  named key start (r :: rows) =
  if decide (lower (Roster.Name r) = key)
  then start :: named key (S start) rows
  else named key (S start) rows.
Proof.
  unfold named. cbn [imap]. rewrite filter_cons. cbn [snd].
  rewrite Nat.add_0_r.
  assert (imap ((λ j r0, ((start + j)%nat, r0)) ∘ S) rows =
          imap (λ j r0, ((S start + j)%nat, r0)) rows) as ->.
  { apply imap_ext. intros j r0 _. simpl. f_equal. lia. }
  by case_decide.
Qed.

(** The loop appends, under every key, the labels of the rows of that
    lowered name, in order, to what the key held. *)
Lemma index_loop_lookup rows start index key :
  Roster.index_loop rows start index !! key =
  match named key start rows with
  | [] => index !! key
  | l => Some (default [] (index !! key) ++ l)%list
  end.
Proof.
  revert start index. induction rows as [|r rows IH]; intros start index.
  - done.
  - cbn [Roster.index_loop]. rewrite IH, named_cons.
    unfold Roster.index_append.
    destruct (decide (lower (Roster.Name r) = key)) as [->|Hne].
    + rewrite lookup_insert_eq. cbn [default from_option Datatypes.id].
      destruct (named _ (S start) rows) as [|i l]; [done|].
      by rewrite <- app_assoc.
    + by rewrite lookup_insert_ne.
Qed.

Lemma named_0 key rows :
  named key 0 rows =
  (filter (λ ir, lower (Roster.Name ir.2) = key) (imap pair rows)).*1.
Proof. done. Qed.

Lemma elem_of_named key rows idx :
  idx ∈ named key 0 rows ↔
  ∃ row, rows !! idx = Some row ∧ lower (Roster.Name row) = key.
Proof.
  rewrite named_0, list_elem_of_fmap. split.
  - intros ([j row] & -> & [Hkey Hin]%list_elem_of_filter).
    apply elem_of_lookup_imap in Hin as (k & row' & [= -> ->] & Hk).
    by exists row'.
  - intros (row & Hrow & Hkey). exists (idx, row). split; [done|].
    apply list_elem_of_filter. split; [done|].
    by apply (elem_of_lookup_imap_2 pair).
Qed.

Lemma named_sublist key rows :
  sublist (named key 0 rows) (seq 0 (length rows)).
Proof.
  rewrite named_0, <- labels_of_rows. apply fmap_sublist, sublist_filter.
Qed.

End LoadCsv.

(** For a file whose names are ASCII text: [load_csv] refuses a frame
    exactly when it lacks one of the columns [Admission_No] and [Name],
    with [ValueError].  Otherwise the roster has one row for each line of
    the file, in order, and the name index holds every row exactly under
    its lowered name: the entry of a key lists the labels of the rows of
    that lowered name, in increasing order, and no entry is empty. *)
Theorem load_csv_index (f : Roster.frame) :
  Forall (λ rec, ascii_only (Roster.cell rec "Name")) (Roster.records f) →
  match Roster.load_csv f with
  | Raise e =>
      e = ValueError ∧
      ¬ ("Admission_No" ∈ Roster.columns f ∧ "Name" ∈ Roster.columns f)
  | Ok (r, index) =>
      ("Admission_No" ∈ Roster.columns f ∧ "Name" ∈ Roster.columns f) ∧
      Roster.df r = Roster.row_of <$> Roster.records f ∧
      (∀ key idx,
         (∃ l, index !! key = Some l ∧ idx ∈ l) ↔
         (∃ row, Roster.df r !! idx = Some row ∧
                 lower (Roster.Name row) = key)) ∧
      (∀ key l,
         index !! key = Some l →
         l ≠ [] ∧ sublist l (seq 0 (length (Roster.df r))))
  end.
Proof.
  intros _. unfold Roster.load_csv. case_bool_decide as Hcols; [|done].
  cbn [Roster.df]. set (rows := Roster.row_of <$> Roster.records f).
  assert (∀ key,
            Roster.index_loop rows 0 ∅ !! key =
            match named key 0 rows with [] => None | l => Some l end)
    as Hindex.
  { intros key. rewrite index_loop_lookup, lookup_empty.
    by destruct (named key 0 rows). }
  split; [done|]. split_and!; [done| |].
  - intros key idx. rewrite Hindex, <- elem_of_named. split.
    + intros (l & Hl & Hin). by destruct (named key 0 rows); simplify_eq.
    + intros Hin. exists (named key 0 rows). split; [|done].
      destruct (named key 0 rows); [by apply elem_of_nil in Hin|done].
  - intros key l. rewrite Hindex. pose proof (named_sublist key rows).
    destruct (named key 0 rows) eqn:Hnamed; [done|]. by intros [= <-].
Qed.

Lemma load_csv_index_witness :
  match Roster.load_csv Examples.frame_ann with
  | Raise e =>
      e = ValueError ∧
      ¬ ("Admission_No" ∈ Roster.columns Examples.frame_ann ∧
         "Name" ∈ Roster.columns Examples.frame_ann)
  | Ok (r, index) =>
      ("Admission_No" ∈ Roster.columns Examples.frame_ann ∧
       "Name" ∈ Roster.columns Examples.frame_ann) ∧
      Roster.df r = Roster.row_of <$> Roster.records Examples.frame_ann ∧
      (∀ key idx,
         (∃ l, index !! key = Some l ∧ idx ∈ l) ↔
         (∃ row, Roster.df r !! idx = Some row ∧
                 lower (Roster.Name row) = key)) ∧
      (∀ key l,
         index !! key = Some l →
         l ≠ [] ∧ sublist l (seq 0 (length (Roster.df r))))
  end.
Proof.
  apply (load_csv_index Examples.frame_ann).
  apply (bool_decide_unpack _). vm_compute. reflexivity.
Defined.

(** ** The batch and the list of present students *)

Section BatchState.

Implicit Types (self : App.t) (r : Roster.t) (fs : list FaceBox.t)
  (fb : FaceBox.t) (idx : nat) (line : string) (seen : gset nat).

Lemma get_display_stale r idx e :
  Roster.get_display r idx = Raise e →
  e = KeyError idx ∧ (length (Roster.df r) ≤ idx)%nat.
Proof.
  unfold Roster.get_display.
  destruct (Roster.df r !! idx) eqn:Hrow; [done|]. intros [= <-].
  split; [done|]. by apply lookup_ge_None.
Qed.

(** When the loop raises, a face of the batch holds a label that is not a
    row of the roster, and the exception names it. *)
Lemma present_loop_raise r fs seen (items items' : list string) e :
  App.present_loop r fs seen items = (Raise e, items') →
  ∃ fb idx, fb ∈ fs ∧ FaceBox.assigned_idx fb = Some idx ∧
            (length (Roster.df r) ≤ idx)%nat ∧ e = KeyError idx.
Proof.
  revert seen items. induction fs as [|fb fs IH]; intros seen items; [done|].
  cbn [App.present_loop].
  assert (∀ seen items,
            App.present_loop r fs seen items = (Raise e, items') →
            ∃ fb0 idx, fb0 ∈ fb :: fs ∧ FaceBox.assigned_idx fb0 = Some idx ∧
                       (length (Roster.df r) ≤ idx)%nat ∧ e = KeyError idx)
    as IH'.
  { intros seen' items0 Hloop.
    destruct (IH _ _ Hloop) as (fb0 & idx & Hin & Hrest).
    exists fb0, idx. split; [by right|done]. }
  destruct (FaceBox.assigned_idx fb) as [idx|] eqn:Hidx; [|by apply IH'].
  destruct (decide (idx ∈ seen)); [by apply IH'|].
  destruct (Roster.get_display r idx) as [line|e'] eqn:Hline; [by apply IH'|].
  intros [= -> _]. apply get_display_stale in Hline as [-> Hstale].
  exists fb, idx. split; [by left|done].
Qed.

(** With valid assignments the loop adds the lines of the assigned labels
    not seen before, one for each, in the order in which the batch first
    shows them. *)
Lemma present_loop_lines r fs seen (items : list string) :
  assignments_valid r fs →
  ∃ idxs lines,
    App.present_loop r fs seen items = (Ok (), (items ++ lines)%list) ∧
    Forall2 (λ idx line, Roster.get_display r idx = Ok line) idxs lines ∧
    NoDup idxs ∧
    (∀ idx, idx ∈ idxs ↔ idx ∈ App.present_idxs fs ∧ idx ∉ seen) ∧
    sublist idxs (omap FaceBox.assigned_idx fs) ∧
    idxs = filter (λ idx, idx ∉ seen)
             (first_occurrences (omap FaceBox.assigned_idx fs)).
Proof.
  revert seen items. induction fs as [|fb fs IH]; intros seen items Hv.
  - exists [], []. rewrite app_nil_r.
    split_and!; [done|constructor..| |done|done].
    intros idx. split; [by intros ?%elem_of_nil|].
    by intros [?%elem_of_empty _].
  - pose proof (assignments_valid_cons _ _ _ Hv) as Hv'.
    cbn [App.present_loop omap list_omap]. rewrite present_idxs_cons.
    destruct (FaceBox.assigned_idx fb) as [idx|] eqn:Hidx; [|by apply IH].
    cbn [first_occurrences].
    destruct (decide (idx ∈ seen)) as [Hseen|Hnew].
    + destruct (IH seen items Hv')
        as (idxs & lines & Hloop & H2 & Hnd & Hin & Hsub & Hfirst).
      exists idxs, lines. split_and!; [done..| |by apply sublist_cons|].
      * intros idx'. rewrite Hin, elem_of_union, elem_of_singleton.
        split; [intros [? ?]; by split; [right|]|].
        intros [[->|?] ?]; done.
      * rewrite filter_cons_False by (by intros ?).
        rewrite list_filter_filter, Hfirst. apply list_filter_iff.
        intros idx'. split; [|by intros [? _]].
        intros Hout. split; [done|]. by intros ->.
    + destruct (get_display_valid r idx) as [line Hline].
      { apply (Hv fb); [by left|done]. }
      rewrite Hline.
      destruct (IH ({[idx]} ∪ seen) (items ++ [line])%list Hv')
        as (idxs & lines & Hloop & H2 & Hnd & Hin & Hsub & Hfirst).
      exists (idx :: idxs), (line :: lines).
      split_and!.
      * by rewrite Hloop, <- app_assoc.
      * by constructor.
      * constructor; [|done]. rewrite Hin, elem_of_union, elem_of_singleton.
        intros [_ Hout]. apply Hout. by left.
      * intros idx'.
        rewrite elem_of_cons, Hin, !elem_of_union, !elem_of_singleton.
        split.
        -- intros [->|[? Hout]]; [by split; [left|]|].
           split; [by right|]. intros ?. apply Hout. by right.
        -- intros [[->|?] Hout]; [by left|].
           destruct (decide (idx' = idx)) as [->|Hne]; [by left|right].
           split; [done|]. by intros [?|?].
      * by apply sublist_skip.
      * rewrite filter_cons_True by done. f_equal.
        rewrite list_filter_filter, Hfirst. apply list_filter_iff.
        intros idx'. rewrite elem_of_union, elem_of_singleton. split.
        -- intros Hout. split; intros ?; apply Hout; [by right|by left].
        -- intros [Hout Hne] [?|?]; done.
Qed.

Lemma get_display_ok r idx line :
  Roster.get_display r idx = Ok line → (idx < length (Roster.df r))%nat.
Proof.
  unfold Roster.get_display.
  destruct (Roster.df r !! idx) eqn:Hrow; [|done]. intros _.
  by eapply lookup_lt_Some.
Qed.

(** The loop only ends well when every assignment is a row of the roster. *)
Lemma present_loop_ok r fs seen (items items' : list string) :
  (∀ idx, idx ∈ seen → (idx < length (Roster.df r))%nat) →
  App.present_loop r fs seen items = (Ok (), items') →
  assignments_valid r fs.
Proof.
  revert seen items.
  induction fs as [|fb fs IH]; intros seen items Hseen Hloop fb' idx' Hin Hidx'.
  - by apply elem_of_nil in Hin.
  - cbn [App.present_loop] in Hloop.
    destruct (FaceBox.assigned_idx fb) as [idx|] eqn:Hidx.
    + destruct (decide (idx ∈ seen)) as [Hold|Hnew].
      * apply elem_of_cons in Hin as [->|Hin].
        -- apply Hseen. congruence.
        -- by eapply (IH seen items).
      * destruct (Roster.get_display r idx) as [line|e] eqn:Hline; [|done].
        apply get_display_ok in Hline.
        apply elem_of_cons in Hin as [->|Hin]; [congruence|].
        eapply (IH ({[idx]} ∪ seen)); [|done..].
        intros i [->%elem_of_singleton|?]%elem_of_union; [done|by apply Hseen].
    + apply elem_of_cons in Hin as [->|Hin]; [congruence|].
      by eapply (IH seen items).
Qed.

End BatchState.

(** The list of present students can be rebuilt exactly when every
    assignment of the batch is a row of the roster; otherwise [KeyError]
    names a label that is not.  When it is rebuilt it shows one line for
    each assigned student, however many faces the student has: the lines
    are those of the assigned labels in the order of the faces, each label
    at the place of the first face that has it. *)
Theorem refresh_present_list_lines (self : App.t) :
  ((App.refresh_present_list self).1 = Ok () ↔
   assignments_valid (App.roster self) (App.faces self)) ∧
  (∀ e,
     (App.refresh_present_list self).1 = Raise e →
     ∃ fb idx, fb ∈ App.faces self ∧ FaceBox.assigned_idx fb = Some idx ∧
               (length (Roster.df (App.roster self)) ≤ idx)%nat ∧
               e = KeyError idx) ∧
  (assignments_valid (App.roster self) (App.faces self) →
   Forall2 (λ idx line, Roster.get_display (App.roster self) idx = Ok line)
     (first_occurrences (omap FaceBox.assigned_idx (App.faces self)))
     (App.present_list (App.refresh_present_list self).2) ∧
   NoDup (first_occurrences (omap FaceBox.assigned_idx (App.faces self))) ∧
   list_to_set (first_occurrences (omap FaceBox.assigned_idx (App.faces self)))
     = App.present_idxs (App.faces self) ∧
   length (App.present_list (App.refresh_present_list self).2) =
     size (App.present_idxs (App.faces self))).
Proof.
  assert (assignments_valid (App.roster self) (App.faces self) →
          (App.refresh_present_list self).1 = Ok () ∧
          Forall2
            (λ idx line, Roster.get_display (App.roster self) idx = Ok line)
            (first_occurrences (omap FaceBox.assigned_idx (App.faces self)))
            (App.present_list (App.refresh_present_list self).2) ∧
          NoDup
            (first_occurrences (omap FaceBox.assigned_idx (App.faces self))) ∧
          list_to_set
            (first_occurrences (omap FaceBox.assigned_idx (App.faces self)))
            = App.present_idxs (App.faces self))
    as Hvalid.
  { intros Hv.
    destruct (present_loop_lines (App.roster self) (App.faces self) ∅ [] Hv)
      as (idxs & lines & Hloop & H2 & Hnd & Hin & Hsub & Hfirst).
    assert (idxs =
            first_occurrences (omap FaceBox.assigned_idx (App.faces self)))
      as <-.
    { rewrite Hfirst. clear. induction (first_occurrences _) as [|idx l IH];
        [done|].
      rewrite filter_cons_True by apply not_elem_of_empty. by f_equal. }
    unfold App.refresh_present_list. rewrite Hloop.
    split_and!; [done..|].
    apply set_eq. intros idx. rewrite elem_of_list_to_set, Hin.
    split; [by intros [? _]|]. intros ?. split; [done|].
    apply not_elem_of_empty. }
  split_and!.
  - split; [|by intros (? & _)%Hvalid].
    unfold App.refresh_present_list.
    destruct (App.present_loop _ _ _ _) as [res items] eqn:Hloop.
    cbn [fst]. intros ->. eapply present_loop_ok; [|done].
    by intros idx ?%elem_of_empty.
  - intros e. unfold App.refresh_present_list.
    destruct (App.present_loop _ _ _ _) as [res items] eqn:Hloop.
    cbn [fst]. intros ->. by eapply present_loop_raise.
  - intros Hv. destruct (Hvalid Hv) as (_ & H2 & Hnd & Hset).
    split_and!; [done..|].
    rewrite <- Hset, size_list_to_set by done.
    symmetry. by eapply Forall2_length.
Qed.

Section Frame.

Implicit Types (self : App.t) (r : Roster.t) (fs : list FaceBox.t)
  (fb : FaceBox.t) (idx : nat) (line disp : string).

Lemma box_alter (v : option nat) (i : nat) fs :
  box <$> alter (FaceBox.set_assigned_idx v) i fs = box <$> fs.
Proof.
  apply list_eq. intros j. rewrite !list_lookup_fmap, list_lookup_alter.
  destruct (decide (i = j)) as [->|]; [|done]. by destruct (fs !! j).
Qed.

(** The loop of [remove_selected] changes nothing or clears one face that
    is shown as [disp]. *)
Lemma remove_loop_cases r disp fs fs' :
  App.remove_loop r disp fs = Ok fs' →
  fs' = fs ∨
  ∃ (i : nat) fb idx,
    fs !! i = Some fb ∧ FaceBox.assigned_idx fb = Some idx ∧
    Roster.get_display r idx = Ok disp ∧
    fs' = alter (FaceBox.set_assigned_idx None) i fs.
Proof.
  revert fs'. induction fs as [|fb fs IH]; intros fs'; cbn [App.remove_loop].
  - intros [= <-]. by left.
  - assert (∀ fs', (rest' ← App.remove_loop r disp fs; Ok (fb :: rest')) = Ok fs' →
            fs' = fb :: fs ∨
            ∃ (i : nat) fb0 idx,
              (fb :: fs) !! i = Some fb0 ∧
              FaceBox.assigned_idx fb0 = Some idx ∧
              Roster.get_display r idx = Ok disp ∧
              fs' = alter (FaceBox.set_assigned_idx None) i (fb :: fs))
      as Hrest.
    { intros fs0.
      destruct (App.remove_loop r disp fs) as [rest'|e]; [|done].
      intros [= <-].
      destruct (IH rest' eq_refl) as [->|(i & fb0 & idx & Hi & Hidx & Hd & ->)];
        [by left|right].
      by exists (S i), fb0, idx. }
    destruct (FaceBox.assigned_idx fb) as [idx|] eqn:Hidx; [|apply Hrest].
    destruct (Roster.get_display r idx) as [line|e] eqn:Hline; [|done].
    cbn [mbind result_bind Py.bind]. case_bool_decide as Heq; [|apply Hrest].
    intros [= <-]. right. exists 0%nat, fb, idx. by subst.
Qed.

Lemma remove_loop_valid r disp fs :
  assignments_valid r fs → ∃ fs', App.remove_loop r disp fs = Ok fs'.
Proof.
  induction fs as [|fb fs IH]; intros Hv; [by eexists|].
  cbn [App.remove_loop].
  destruct (IH (assignments_valid_cons _ _ _ Hv)) as [rest' Hrest'].
  destruct (FaceBox.assigned_idx fb) as [idx|] eqn:Hidx.
  - destruct (get_display_valid r idx) as [line ->].
    { apply (Hv fb); [by left|done]. }
    cbn [mbind result_bind Py.bind]. case_bool_decide; [by eexists|].
    rewrite Hrest'. by eexists.
  - rewrite Hrest'. by eexists.
Qed.

Lemma assignments_valid_assign r fs (i idx : nat) :
  assignments_valid r fs → (idx < length (Roster.df r))%nat →
  assignments_valid r (alter (FaceBox.set_assigned_idx (Some idx)) i fs).
Proof.
  intros Hv Hidx fb idx' [j Hj]%list_elem_of_lookup_1 Hidx'.
  rewrite list_lookup_alter in Hj.
  destruct (decide (i = j)) as [->|Hne].
  - destruct (fs !! j); simplify_eq/=. done.
  - apply (Hv fb); [|done]. by eapply list_elem_of_lookup_2.
Qed.

Lemma refresh_present_list_valid self :
  assignments_valid (App.roster self) (App.faces self) →
  (App.refresh_present_list self).1 = Ok ().
Proof.
  intros Hv. unfold App.refresh_present_list.
  destruct (present_loop_valid (App.roster self) (App.faces self) ∅ [] Hv)
    as (items & -> & _). done.
Qed.

Lemma refresh_present_list_photo_path self :
  App.photo_path (App.refresh_present_list self).2 = App.photo_path self.
Proof.
  unfold App.refresh_present_list. by destruct (App.present_loop _ _ _ _).
Qed.

End Frame.

(** Whatever is selected, [remove_selected] leaves the roster, the photo
    and the box and number of every face as they were, and either changes
    no assignment or clears the assignment of exactly one face that was
    assigned; it never binds a face.  When every assignment is a row of
    the roster it does not raise, and every assignment still is one. *)
Theorem remove_selected_frame (self : App.t) (sel : list nat) :
  App.roster (App.remove_selected self sel).2 = App.roster self ∧
  App.photo_path (App.remove_selected self sel).2 = App.photo_path self ∧
  box <$> App.faces (App.remove_selected self sel).2 =
    box <$> App.faces self ∧
  (App.faces (App.remove_selected self sel).2 = App.faces self ∨
   ∃ (i : nat) fb,
     App.faces self !! i = Some fb ∧ is_Some (FaceBox.assigned_idx fb) ∧
     App.faces (App.remove_selected self sel).2 =
       alter (FaceBox.set_assigned_idx None) i (App.faces self)) ∧
  (assignments_valid (App.roster self) (App.faces self) →
   (App.remove_selected self sel).1 = Ok () ∧
   assignments_valid (App.roster self)
     (App.faces (App.remove_selected self sel).2)).
Proof.
  unfold App.remove_selected. destruct sel as [|s rest].
  { split_and!; [done..|by left|]. intros Hv. by split. }
  set (disp := default "" (App.present_list self !! s)).
  destruct (App.remove_loop (App.roster self) disp (App.faces self))
    as [fs'|e] eqn:Hloop.
  - rewrite refresh_present_list_roster, refresh_present_list_faces.
    cbn [App.set_faces App.roster App.faces].
    rewrite refresh_present_list_photo_path. cbn [App.set_faces App.photo_path].
    apply remove_loop_cases in Hloop
      as [->|(i & fb & idx & Hi & Hidx & _ & ->)].
    + split_and!; [done..|by left|]. intros Hv. split; [|done].
      by apply (refresh_present_list_valid (App.set_faces _ self)).
    + split_and!; [done..|apply box_alter| |].
      * right. exists i, fb. by rewrite Hidx.
      * intros Hv.
        pose proof (assignments_valid_alter _ _ i Hv) as Hv'.
        split; [|done].
        by apply (refresh_present_list_valid (App.set_faces _ self)).
  - split_and!; [done..|by left|]. intros Hv.
    destruct (remove_loop_valid (App.roster self) disp _ Hv) as [fs' Hfs'].
    congruence.
Qed.

(** Whatever is selected and answered, [do_assign] leaves the roster, the
    photo and the box and number of every face as they were; it changes no
    assignment or gives the selected label to the face of the dialog, and
    to no other face.  When the label and every assignment are rows of the
    roster it does not raise, and every assignment still is one. *)
Theorem do_assign_frame (self : App.t) (fb : nat) (sel : option nat)
    (reply : nat -> bool) :
  let out := run reply 0 (App.do_assign self fb sel) in
  App.roster out.2 = App.roster self ∧
  App.photo_path out.2 = App.photo_path self ∧
  box <$> App.faces out.2 = box <$> App.faces self ∧
  (App.faces out.2 = App.faces self ∨
   ∃ idx, sel = Some idx ∧
          App.faces out.2 =
            alter (FaceBox.set_assigned_idx (Some idx)) fb (App.faces self)) ∧
  (∀ idx,
     sel = Some idx → (idx < length (Roster.df (App.roster self)))%nat →
     assignments_valid (App.roster self) (App.faces self) →
     out.1 = Ok () ∧ assignments_valid (App.roster self) (App.faces out.2)).
Proof.
  intros out. unfold out, App.do_assign. destruct sel as [idx|].
  2:{ cbn [run]. split_and!; [done..|by left|done]. }
  rewrite confirm_duplicates_run. case_decide.
  - split_and!; [done..|by left|]. by intros ? _ _ ?.
  - rewrite refresh_present_list_roster, refresh_present_list_faces,
      refresh_present_list_photo_path.
    cbn [App.set_faces App.roster App.faces App.photo_path].
    split_and!; [done..|apply box_alter|right; by exists idx|].
    intros ? [= <-] Hidx Hv.
    pose proof (assignments_valid_assign _ _ fb idx Hv Hidx) as Hv'.
    split; [|done].
    by apply (refresh_present_list_valid (App.set_faces _ self)).
Qed.

(** When every assignment of the batch is a row of the roster, entry [E]
    is bound to one face only, and no other assigned face is shown with the
    line of [E], removing the selected line of [E] unbinds the student:
    [E] is no longer in [present_idxs], its line is gone from the list box,
    and the report marks row [E] absent. *)
Theorem remove_only_binding (self : App.t) (now : nat -> Z) (E : nat)
    (line : string) (s : nat) (rest : list nat) (i1 : nat)
    (fb1 : FaceBox.t) :
  assignments_valid (App.roster self) (App.faces self) →
  App.present_list self !! s = Some line →
  Roster.get_display (App.roster self) E = Ok line →
  App.faces self !! i1 = Some fb1 → FaceBox.assigned_idx fb1 = Some E →
  (∀ (j : nat) fb idx,
     j ≠ i1 → App.faces self !! j = Some fb →
     FaceBox.assigned_idx fb = Some idx →
     Roster.get_display (App.roster self) idx ≠ Ok line) →
  ∃ self',
    App.remove_selected self (s :: rest) = (Ok (), self') ∧
    App.faces self' =
      alter (FaceBox.set_assigned_idx None) i1 (App.faces self) ∧
    (E ∉ App.present_idxs (App.faces self')) ∧
    (line ∉ App.present_list self') ∧
    ∃ rows rec,
      App.save_attendance self' now = Attendance.ToExcel (now 0%nat) rows ∧
      rows !! E = Some rec ∧
      Attendance.Status rec = Attendance.Absent.
Proof.
  intros Hv Hsel Hline H1 HE1 Hothers.
  set (fs' := alter (FaceBox.set_assigned_idx None) i1 (App.faces self)).
  assert (App.remove_loop (App.roster self) line (App.faces self) = Ok fs')
    as Hloop.
  { eapply remove_loop_first; [done..|].
    intros j fb idx Hj Hfb Hidx.
    destruct (get_display_valid (App.roster self) idx) as [line' Hline'].
    { apply (Hv fb); [|done]. by eapply list_elem_of_lookup_2. }
    exists line'. split; [done|]. intros ->.
    eapply (Hothers j); [lia|done..]. }
  assert (assignments_valid (App.roster self) fs') as Hv'
    by (by apply assignments_valid_alter).
  assert (∀ idx, idx ∈ App.present_idxs fs' →
                 Roster.get_display (App.roster self) idx ≠ Ok line)
    as Hgone.
  { intros idx (fb & [j Hj]%list_elem_of_lookup_1 & Hidx)%elem_of_present_idxs.
    unfold fs' in Hj. rewrite list_lookup_alter in Hj.
    destruct (decide (i1 = j)) as [->|Hne].
    - rewrite H1 in Hj. by simplify_eq/=.
    - by eapply (Hothers j). }
  destruct (present_loop_valid (App.roster self) fs' ∅ [] Hv')
    as (items & Hitems & Hin).
  exists (App.set_present_list items (App.set_faces fs' self)).
  split_and!.
  - unfold App.remove_selected. rewrite Hsel. cbn [default from_option Datatypes.id].
    rewrite Hloop. unfold App.refresh_present_list.
    cbn [App.set_faces App.roster App.faces]. by rewrite Hitems.
  - done.
  - cbn [App.set_present_list App.set_faces App.faces].
    intros HE. by apply (Hgone E).
  - cbn [App.set_present_list App.present_list].
    intros [?%elem_of_nil|(idx & Hidx & _ & Hd)]%Hin; [done|].
    by apply (Hgone idx).
  - assert (E < length (Roster.df (App.roster self)))%nat as HEvalid
      by (by eapply get_display_ok).
    destruct (lookup_lt_is_Some_2 _ _ HEvalid) as [row Hrow].
    destruct (save_attendance_rows
                (App.set_present_list items (App.set_faces fs' self)) now)
      as (rows & Hsave & _ & _ & Hrows).
    { cbn [App.set_present_list App.set_faces App.roster].
      intros Hnil. by rewrite Hnil in Hrow. }
    destruct (Hrows E row Hrow) as (rec & Hrec & _ & _ & _ & Hstatus).
    exists rows, rec. split_and!; [done..|].
    rewrite Hstatus. cbn [App.set_present_list App.set_faces App.faces].
    rewrite decide_False; [done|]. intros HE. by apply (Hgone E).
Qed.

(** When no other row of the roster is displayed like row [E], "Reassign
    Selected" and "Remove Selected" on the line of [E] act on the same
    face: the first face of the batch that is bound to [E]. *)
Theorem reassign_and_remove_same_face (self : App.t) (E : nat)
    (line : string) (s : nat) (rest : list nat) (i1 : nat)
    (fb1 : FaceBox.t) :
  assignments_valid (App.roster self) (App.faces self) →
  App.present_list self !! s = Some line →
  Roster.get_display (App.roster self) E = Ok line →
  (∀ idx, Roster.get_display (App.roster self) idx = Ok line → idx = E) →
  App.faces self !! i1 = Some fb1 → FaceBox.assigned_idx fb1 = Some E →
  (∀ (j : nat) fb,
     (j < i1)%nat → App.faces self !! j = Some fb →
     FaceBox.assigned_idx fb ≠ Some E) →
  App.reassign_selected self (s :: rest) = Some i1 ∧
  App.faces (App.remove_selected self (s :: rest)).2 =
    alter (FaceBox.set_assigned_idx None) i1 (App.faces self).
Proof.
  intros Hv Hsel Hline Hunique H1 HE1 Hfirst. split.
  - unfold App.reassign_selected. rewrite Hsel. cbn [default from_option Datatypes.id].
    assert (list_find
              (λ i, Roster.get_display (App.roster self) i = Ok line)
              (seq 0 (length (Roster.df (App.roster self)))) = Some (E, E))
      as ->.
    { apply list_find_Some. split_and!; [|done|].
      - apply lookup_seq. split; [done|]. by eapply get_display_ok.
      - intros j y [-> _]%lookup_seq Hj Hy. apply Hunique in Hy. simpl in Hy.
        lia. }
    cbn [mbind option_bind].
    assert (list_find (λ fb, FaceBox.assigned_idx fb = Some E)
              (App.faces self) = Some (i1, fb1)) as ->.
    { apply list_find_Some. split_and!; [done..|].
      intros j fb Hj Hlt. by apply (Hfirst j). }
    done.
  - unfold App.remove_selected. rewrite Hsel. cbn [default from_option Datatypes.id].
    erewrite remove_loop_first; [|done..|].
    + by rewrite refresh_present_list_faces.
    + intros j fb idx Hj Hfb Hidx.
      destruct (get_display_valid (App.roster self) idx) as [line' Hline'].
      { apply (Hv fb); [|done]. by eapply list_elem_of_lookup_2. }
      exists line'. split; [done|]. intros ->.
      apply Hunique in Hline' as ->. by apply (Hfirst j fb).
Qed.

Section NewBatch.

Implicit Types (self : App.t) (now : nat -> Z).

(** Without an assigned face the report marks every student absent. *)
Lemma report_all_absent self now d rows :
  App.present_idxs (App.faces self) = ∅ →
  App.save_attendance self now = Attendance.ToExcel d rows →
  Forall (λ rec, Attendance.Status rec = Attendance.Absent) rows.
Proof.
  intros Hnone. unfold App.save_attendance. case_bool_decide; [done|].
  intros [= _ <-]. apply Forall_forall. intros rec.
  intros (k & row & -> & _)%elem_of_lookup_imap. cbn [Attendance.Status].
  rewrite Hnone, decide_False; [done|]. apply not_elem_of_empty.
Qed.

Lemma present_idxs_new (rects : list (Z * Z * Z * Z)) :
  App.present_idxs
    (imap (λ i '(x, y, w, h), FaceBox.new x y w h (S i)) rects) = ∅.
Proof.
  apply set_eq. intros idx. rewrite elem_of_present_idxs.
  split; [|by intros ?%elem_of_empty].
  intros (fb & (k & [[[x y] w] h] & -> & _)%elem_of_lookup_imap & Hidx).
  done.
Qed.

End NewBatch.

(** A detection pass replaces the batch by one face for each rectangle, in
    the order received, numbered from 1 and unassigned, and touches neither
    the roster nor the list of present students: from then on a click can
    only hit a new face, and the report marks every student absent, even
    while the list box still shows the students of the batch before. *)
Theorem detect_faces_new_batch (self : App.t)
    (rects : list (Z * Z * Z * Z)) :
  let self' := App.detect_faces self (Some rects) in
  App.roster self' = App.roster self ∧
  App.present_list self' = App.present_list self ∧
  length (App.faces self') = length rects ∧
  FaceBox.id <$> App.faces self' = seq 1 (length rects) ∧
  (∀ (k : nat) x y w h,
     rects !! k = Some (x, y, w, h) →
     App.faces self' !! k = Some (FaceBox.new x y w h (S k))) ∧
  App.present_idxs (App.faces self') = ∅ ∧
  (∀ ix iy i fb,
     App.hit_test (App.faces self') ix iy = Some (i, fb) →
     FaceBox.id fb = S i ∧ FaceBox.assigned_idx fb = None) ∧
  (∀ now d rows,
     App.save_attendance self' now = Attendance.ToExcel d rows →
     Forall (λ rec, Attendance.Status rec = Attendance.Absent) rows).
Proof.
  intros self'. unfold self', App.detect_faces.
  cbn [App.set_faces App.roster App.faces App.present_list].
  assert (∀ (k : nat) x y w h,
            rects !! k = Some (x, y, w, h) →
            imap (λ i '(x, y, w, h), FaceBox.new x y w h (S i)) rects !! k =
            Some (FaceBox.new x y w h (S k))) as Hk.
  { intros k x y w h Hrect. by rewrite list_lookup_imap, Hrect. }
  split_and!; [done..|apply length_imap| |done|apply present_idxs_new| |].
  - apply list_eq. intros k.
    rewrite list_lookup_fmap, list_lookup_imap.
    destruct (rects !! k) as [[[[x y] w] h]|] eqn:Hrect; simpl.
    + symmetry. apply lookup_seq. split; [done|]. by eapply lookup_lt_Some.
    + symmetry. apply lookup_seq_ge. by apply lookup_ge_None.
  - intros ix iy i fb (Hi & _)%hit_test_Some.
    rewrite list_lookup_imap in Hi.
    destruct (rects !! i) as [[[[x y] w] h]|]; by simplify_eq/=.
  - intros now d rows. apply report_all_absent. apply present_idxs_new.
Qed.

(** [draw_image] keeps the photo. *)
Lemma draw_image_image {F : Type} `{PyFloat F} (v v' : App.view F)
    (cw ch : Z) :
  App.draw_image v cw ch = Ok v' → App.image v' = App.image v.
Proof.
  unfold App.draw_image. destruct (App.image v) as [[iw ih]|] eqn:Himg.
  2:{ intros [= <-]. done. }
  destruct ((cw <=? 1) || (ch <=? 1)); [by intros [= <-]|].
  destruct (truediv (of_int cw) (of_int iw)) as [a|];
    cbn [mbind result_bind Py.bind]; [|done].
  destruct (truediv (of_int ch) (of_int ih)) as [b|];
    cbn [mbind result_bind Py.bind]; [|done].
  destruct (to_int (fmul (of_int iw) (fmin a b)));
    cbn [mbind result_bind Py.bind]; [|done].
  destruct (to_int (fmul (of_int ih) (fmin a b)));
    cbn [mbind result_bind Py.bind]; [|done].
  destruct (_ || _); [done|]. by intros [= <-].
Qed.

(** Opening a photo that could be read discards the batch and keeps the
    roster: whatever was assigned before, the report then marks every
    student absent and carries the new photo's file name.  The list of
    present students is emptied, unless drawing raised: then it still
    shows the old lines, and scale and offset are the old ones. *)
Theorem open_photo_discards_batch {F : Type} `{PyFloat F} (self : App.t)
    (v : App.view F) (path : string) (size : Z * Z) (cw ch : Z) :
  path ≠ "" →
  let out := App.open_photo self v path (Ok size) cw ch in
  App.roster out.1.1 = App.roster self ∧
  App.photo_path out.1.1 = Some path ∧
  App.faces out.1.1 = [] ∧
  App.image out.1.2 = Some size ∧
  (out.2 = None → App.present_list out.1.1 = []) ∧
  (∀ e, out.2 = Some e →
        App.present_list out.1.1 = App.present_list self ∧
        App.scale out.1.2 = App.scale v ∧
        App.offset out.1.2 = App.offset v) ∧
  (∀ now d rows,
     App.save_attendance out.1.1 now = Attendance.ToExcel d rows →
     Forall
       (λ rec, Attendance.Status rec = Attendance.Absent ∧
               Attendance.Photo rec = App.basename path) rows).
Proof.
  intros Hpath out. unfold out, App.open_photo.
  rewrite bool_decide_eq_false_2 by done.
  set (v1 := {| App.image := Some size; App.scale := App.scale v;
                App.offset := App.offset v |}).
  assert (∀ self0 now d rows,
            App.faces self0 = [] → App.photo_path self0 = Some path →
            App.save_attendance self0 now = Attendance.ToExcel d rows →
            Forall
              (λ rec, Attendance.Status rec = Attendance.Absent ∧
                      Attendance.Photo rec = App.basename path) rows)
    as Hreport.
  { intros self0 now d rows Hfaces Hphoto Hsave.
    pose proof (report_all_absent self0 now d rows) as Habsent.
    rewrite Hfaces in Habsent. specialize (Habsent eq_refl Hsave).
    rewrite Forall_forall in Habsent |- *. intros rec Hrec.
    split; [by apply Habsent|].
    unfold App.save_attendance in Hsave. case_bool_decide; [done|].
    injection Hsave as _ <-.
    apply elem_of_lookup_imap in Hrec as (k & row & -> & _).
    cbn [Attendance.Photo]. by rewrite Hphoto. }
  assert (∀ v', App.draw_image v1 cw ch = Ok v' → App.image v' = Some size)
    as Himage.
  { intros v' Hv'. by rewrite (draw_image_image _ _ _ _ Hv'). }
  destruct (App.draw_image v1 cw ch) as [v2|e] eqn:Hdraw; cbn [fst snd].
  - split_and!; [done..|by apply Himage|done|done|].
    intros now d rows. by apply Hreport.
  - split_and!; [done..|].
    intros now d rows. by apply Hreport.
Qed.

(** ** Layout and clicks

    The fitted picture and the clicks on it, in binary64, for photos and
    canvases with sides below [2^24]. *)

Section Layout.

Lemma fmul_int_rounds (p j : Z) (s : float) :
  0 < p < 2 ^ 24 → scale_within j s →
  rounds_to (IZR p * F2R s) 50 (Prim2SF (fmul (of_int p) s)).
Proof.
  intros Hp [(ms & es & Hs) [Hlo Hhi]].
  destruct (of_int_pos p) as (mp & ep & HP & Hv); [lia|].
  assert (F2R (of_int p) = IZR p) as Hp' by (unfold F2R; by rewrite HP).
  rewrite <- Hp'.
  apply (fmul_rounds _ _ _ _ _ _ 24 25 HP Hs); try lia.
  - rewrite Hp', (bpow_IZR 24) by lia. apply IZR_lt. lia.
  - pose proof (bpow_lt 24 25 ltac:(lia)). lra.
Qed.

(** The quotient of two sides is rounded by less than [2^-28]. *)
Lemma truediv_sizes_near (c i : Z) :
  0 < c < 2 ^ 24 → 0 < i < 2 ^ 24 →
  ∃ a, truediv (of_int c) (of_int i) = Ok a ∧
    (IZR c / IZR i - bpow (-28) <= F2R a <= IZR c / IZR i + bpow (-28))%R.
Proof.
  intros Hc Hi.
  destruct (of_int_pos c) as (mc & ec & HPc & Hvc); [lia|].
  destruct (of_int_pos i) as (mi & ei & HPi & Hvi); [lia|].
  rewrite (truediv_finite _ _ _ _ HPi). eexists. split; [done|].
  assert (F2R (of_int c) = IZR c) as Hc' by (unfold F2R; by rewrite HPc).
  assert (F2R (of_int i) = IZR i) as Hi' by (unfold F2R; by rewrite HPi).
  assert (1 <= IZR i)%R by (apply IZR_le; lia).
  assert (IZR c <= bpow 24)%R.
  { rewrite (bpow_IZR 24) by lia. apply IZR_le. lia. }
  assert (0 <= IZR c)%R by (apply IZR_le; lia).
  rewrite <- Hc', <- Hi'.
  apply (rounds_to_near _ 25); [|lia].
  apply (fdiv_rounds _ _ _ _ _ _ 25 HPc HPi); [|lia].
  rewrite Hc', Hi'. change (25 - 1) with 24.
  apply Rdiv_le_l; [lra|]. nra.
Qed.

(** The side of the fitted picture: what [int(i * scale)] is when [scale]
    is at most the rounded quotient [c / i]. *)
Lemma fitted_side (c i : Z) (s a : float) :
  0 < c < 2 ^ 24 → 0 < i < 2 ^ 24 →
  scale_within 24 s →
  (IZR c / IZR i - bpow (-28) <= F2R a <= IZR c / IZR i + bpow (-28))%R →
  (F2R s <= F2R a)%R →
  ∃ n, to_int (fmul (of_int i) s) = Ok n ∧ n ≤ c ∧ (s = a → c - 1 ≤ n).
Proof.
  intros Hc Hi Hs [Halo Hahi] Hsa.
  pose proof (fmul_int_rounds i 24 s Hi Hs) as Hround.
  destruct (to_int_floor _ _ 50 Hround ltac:(lia)) as (n & Hn & Hfloor).
  pose proof (rounds_to_near _ _ _ (-3) Hround ltac:(lia)) as [Hlo Hhi].
  fold (F2R (fmul (of_int i) s)) in Hlo, Hhi.
  set (t := F2R (fmul (of_int i) s)) in *.
  destruct Hs as [_ [Hs0 _]]. pose proof (bpow_pos (-24)).
  assert (1 <= IZR i < bpow 24)%R as [Hi1 Hi24].
  { rewrite (bpow_IZR 24) by lia. split; [apply IZR_le|apply IZR_lt]; lia. }
  assert (bpow 24 * bpow (-28) = / 16)%R as H16.
  { rewrite <- bpow_add. change (24 + -28) with (-4). unfold bpow. simpl. lra. }
  assert (bpow (-3) = / 8)%R as H8 by (unfold bpow; simpl; lra).
  assert (IZR c / IZR i * IZR i = IZR c)%R as Hq by (field; lra).
  pose proof (bpow_pos (-28)).
  set (q := (IZR c / IZR i)%R) in *.
  exists n. split; [done|]. split.
  - apply Z.lt_succ_r, lt_IZR. rewrite succ_IZR.
    assert (IZR i * F2R s <= IZR c + / 16)%R by nra. lra.
  - intros ->. apply Z.lt_succ_r, lt_IZR. rewrite succ_IZR, minus_IZR.
    assert (IZR c - / 16 <= IZR i * F2R a)%R by nra. lra.
Qed.

(** What [draw_image] stores for sides below [2^24]: the scale, which is
    at most both rounded quotients and is one of them, and the sides of the
    fitted picture, from which the offset is computed. *)
Lemma draw_image_fit (self v : App.view float) (iw ih cw ch : Z) :
  App.image self = Some (iw, ih) →
  0 < iw < 2 ^ 24 → 0 < ih < 2 ^ 24 → 1 < cw < 2 ^ 24 → 1 < ch < 2 ^ 24 →
  App.draw_image self cw ch = Ok v →
  ∃ nw nh,
    to_int (fmul (of_int iw) (App.scale v)) = Ok nw ∧
    to_int (fmul (of_int ih) (App.scale v)) = Ok nh ∧
    0 < nw ≤ cw ∧ 0 < nh ≤ ch ∧ (cw - 1 ≤ nw ∨ ch - 1 ≤ nh) ∧
    App.offset v = ((cw - nw) `div` 2, (ch - nh) `div` 2) ∧
    scale_within 24 (App.scale v).
Proof.
  intros Himg Hiw Hih Hcw Hch Hdraw.
  assert (iw ≤ 2 ^ 24 * cw ∧ ih ≤ 2 ^ 24 * ch) as [Hjw Hjh] by lia.
  pose proof (draw_image_scale self v iw ih cw ch 24 Himg Hiw Hih Hcw Hch
                ltac:(lia) Hjw Hjh Hdraw) as Hs.
  destruct (draw_image_Ok self v iw ih cw ch Himg ltac:(lia) ltac:(lia) Hdraw)
    as (a & b & nw & nh & Ha & Hb & Hnw & Hnh & Hw0 & Hh0 & ->).
  cbn [App.scale App.offset] in *.
  destruct (truediv_sizes cw iw 24) as (a' & Ha' & [Hfa _]); [lia..|].
  destruct (truediv_sizes ch ih 24) as (b' & Hb' & [Hfb _]); [lia..|].
  destruct (truediv_sizes_near cw iw) as (a'' & Ha'' & Hnear_a); [lia..|].
  destruct (truediv_sizes_near ch ih) as (b'' & Hb'' & Hnear_b); [lia..|].
  rewrite Ha in Ha', Ha''. rewrite Hb in Hb', Hb''.
  injection Ha' as <-. injection Ha'' as <-.
  injection Hb' as <-. injection Hb'' as <-.
  destruct Hfa as (ma & ea & Hfa). destruct Hfb as (mb & eb & Hfb).
  destruct (fmin_le a b _ _ _ _ Hfa Hfb) as [Hsa Hsb].
  destruct (fitted_side cw iw (fmin a b) a) as (nw' & Hnw' & Hwle & Hwge);
    [lia|lia|done..|].
  destruct (fitted_side ch ih (fmin a b) b) as (nh' & Hnh' & Hhle & Hhge);
    [lia|lia|done..|].
  rewrite Hnw in Hnw'. rewrite Hnh in Hnh'.
  injection Hnw' as <-. injection Hnh' as <-.
  exists nw, nh. split_and!; try done.
  destruct (fmin_cases a b) as [Hmin|Hmin]; [left|right]; auto.
Qed.

(** [int(d / scale)] never raises for an integer [d] of at most 52 bits. *)
Lemma click_axis_returns (d j : Z) (s : float) :
  - 2 ^ 52 ≤ d ≤ 2 ^ 52 → 0 ≤ j ≤ 24 → scale_within j s →
  ∃ u r, truediv (of_int d) s = Ok u ∧ to_int u = Ok r.
Proof.
  intros Hd Hj [(ms & es & Hs) [Hlo Hhi]].
  rewrite (truediv_finite _ _ _ _ Hs). exists (PrimFloat.div (of_int d) s).
  enough (∃ r, to_int (PrimFloat.div (of_int d) s) = Ok r)
    as [r Hr] by (by exists r).
  cbn [to_int binary64]. rewrite div_spec. unfold SF64div.
  assert (∀ z, 0 < z ≤ 2 ^ 52 →
            ∃ mz ez, Prim2SF (of_int z) = S754_finite false mz ez ∧
              (SFdiv prec emax (S754_finite false mz ez) (Prim2SF s) =
                 S754_zero false ∨
               ∃ m e, SFdiv prec emax (S754_finite false mz ez) (Prim2SF s) =
                      S754_finite false m e)) as Hpos.
  { intros z Hz. destruct (of_int_pos z Hz) as (mz & ez & HZ & Hv).
    exists mz, ez. split; [done|].
    destruct (fdiv_rounds _ _ _ _ _ _ 78 HZ Hs) as [Hf _]; [|lia|].
    - unfold F2R in *. rewrite HZ. rewrite Hs in *. cbn [SF2R] in *.
      rewrite Hv.
      pose proof (bpow_pos (- j)).
      pose proof (bpow_le (-24) (- j) ltac:(lia)).
      apply Rdiv_le_l; [lra|].
      assert (IZR z <= bpow 52)%R.
      { rewrite (bpow_IZR 52) by lia. apply IZR_le. lia. }
      assert (bpow 77 * bpow (-24) = bpow 53)%R as H53.
      { rewrite <- bpow_add. done. }
      pose proof (bpow_le 52 53 ltac:(lia)). pose proof (bpow_pos 77).
      change (78 - 1) with 77.
      assert (bpow 77 * bpow (-24) <= bpow 77 * (IZR (Z.pos ms) * bpow es))%R
        by (apply Rmult_le_compat_l; lra).
      lra.
    - rewrite div_spec in Hf. unfold SF64div in Hf. rewrite HZ in Hf.
      destruct Hf as [?|(m & e & ? & _)]; [by left|right; by eauto]. }
  destruct (Z.lt_trichotomy d 0) as [Hneg|[->|Hdpos]].
  - assert (0 < - d ≤ 2 ^ 52) as Hd' by lia.
    assert (0 < - d < 2 ^ 63) as Hd'' by lia.
    destruct (Hpos (- d) Hd') as (mz & ez & HZ & Hform).
    replace d with (- - d) by lia. rewrite (of_int_opp (- d) Hd''), HZ.
    rewrite Hs in *. cbn [SFopp negb]. rewrite SFdiv_opp.
    destruct Hform as [->|(m & e & ->)]; cbn [SFopp]; by eexists.
  - rewrite of_int_0, Hs. cbn [SFdiv xorb]. by eexists.
  - destruct (Hpos d ltac:(lia)) as (mz & ez & -> & Hform).
    destruct Hform as [->|(m & e & ->)]; by eexists.
Qed.

(** *** A click on a drawn box *)

(** The binary exponent of a scale. *)
Lemma scale_exponent (j : Z) (s : float) :
  0 ≤ j ≤ 24 → scale_within j s →
  ∃ Ks, - 24 ≤ Ks ≤ 25 ∧ (bpow (Ks - 1) <= F2R s < bpow Ks)%R.
Proof.
  intros Hj [(ms & es & Hs) [Hlo Hhi]]. unfold F2R in *. rewrite Hs in *.
  cbn [SF2R] in *.
  destruct (digits2_pos_bounds ms) as [Hd1 Hd2].
  set (d := Z.pos (digits2_pos ms)) in *.
  assert (0 < d) as Hd by (unfold d; lia).
  assert (bpow (d + es - 1) <= IZR (Z.pos ms) * bpow es < bpow (d + es))%R
    as [Hb1 Hb2].
  { split.
    - replace (d + es - 1) with (es + (d - 1)) by lia.
      rewrite <- (Rmult_1_l (bpow (es + (d - 1)))), grid_shift by lia.
      apply grid_le. lia.
    - rewrite (Z.add_comm d es), <- (Rmult_1_l (bpow (es + d))), grid_shift
        by lia.
      apply grid_lt. lia. }
  exists (d + es). split; [|done].
  pose proof (bpow_le (-24) (- j) ltac:(lia)).
  split.
  - enough (-24 < d + es) by lia.
    destruct (Z_lt_le_dec (-24) (d + es)) as [|Hge]; [done|].
    pose proof (bpow_le _ _ Hge). lra.
  - enough (d + es - 1 ≤ 24) by lia. apply bpow_le_inv. lra.
Qed.

(** [int(p * scale)] again: it is at most the product that was rounded,
    which is above the exact product by less than [2^-27] of the scale. *)
Lemma to_display_tight (p j : Z) (s : float) :
  0 ≤ p < 2 ^ 24 → 0 ≤ j ≤ 24 → scale_within j s →
  ∃ n, to_int (fmul (of_int p) s) = Ok n ∧ 0 ≤ n ∧
    (∀ k, (IZR k <= IZR p * F2R s)%R → k ≤ n) ∧
    (IZR n <= (IZR p + bpow (-27)) * F2R s)%R.
Proof.
  intros Hp Hj Hs. pose proof Hs as [(ms & es & Hfs) [Hlo Hhi]].
  pose proof (bpow_pos (- j)). pose proof (bpow_pos (-27)).
  destruct (decide (p = 0)) as [->|Hp0].
  - exists 0. rewrite (to_int_fmul_0 j s Hs). split_and!; [done..| |].
    + intros k Hk. rewrite Rmult_0_l in Hk. by apply le_IZR.
    + nra.
  - destruct (scale_exponent j s Hj Hs) as (Ks & HKs & Hs1 & Hs2).
    destruct (of_int_pos p) as (mp & ep & HP & Hv); [lia|].
    assert (F2R (of_int p) = IZR p) as Hp' by (unfold F2R; by rewrite HP).
    assert (rounds_to (IZR p * F2R s) (24 + Ks + 1)
              (Prim2SF (fmul (of_int p) s))) as Hround.
    { rewrite <- Hp'.
      apply (fmul_rounds _ _ _ _ _ _ 24 Ks HP Hfs); try lia; [|done].
      rewrite Hp', (bpow_IZR 24) by lia. apply IZR_lt. lia. }
    destruct (to_int_floor _ _ _ Hround ltac:(lia)) as (n & Hn & Hfl1 & Hfl2).
    pose proof (rounds_to_near _ _ _ (Ks - 28) Hround ltac:(lia))
      as [_ Hnear].
    fold (F2R (fmul (of_int p) s)) in Hnear.
    destruct Hround as [_ Hth].
    assert (0 <= IZR p)%R by (apply IZR_le; lia).
    exists n. split; [done|]. split_and!.
    + destruct (Hth 0 0 ltac:(lia)) as [Hzero _].
      rewrite Rmult_0_l in Hzero. specialize (Hzero ltac:(nra)).
      fold (F2R (fmul (of_int p) s)) in Hzero.
      apply Z.lt_succ_r, lt_IZR. rewrite succ_IZR. lra.
    + intros k Hk. destruct (Hth k 0 ltac:(lia)) as [Hk' _].
      rewrite bpow_0, Rmult_1_r in Hk'. specialize (Hk' Hk).
      fold (F2R (fmul (of_int p) s)) in Hk'.
      apply Z.lt_succ_r, lt_IZR. rewrite succ_IZR. lra.
    + assert (bpow (Ks - 28) = bpow (Ks - 1) * bpow (-27))%R as Hsplit.
      { rewrite <- bpow_add. f_equal. lia. }
      rewrite Hsplit in Hnear. nra.
Qed.

(** A click between the drawn edges of a box is read back between the
    edges of the box. *)
Lemma click_axis (x w off c j : Z) (s : float) (A Wd : Z) :
  0 ≤ x → 0 ≤ w → x + w < 2 ^ 24 → 0 ≤ j ≤ 24 → scale_within j s →
  to_int (fmul (of_int x) s) = Ok A →
  to_int (fmul (of_int w) s) = Ok Wd →
  A + off < c ≤ A + off + Wd →
  ∃ u r, truediv (of_int (c - off)) s = Ok u ∧ to_int u = Ok r ∧
         x ≤ r ≤ x + w.
Proof.
  intros Hx Hw Hxw Hj Hs HA HWd Hc.
  destruct (to_display_tight x j s ltac:(lia) Hj Hs)
    as (A' & HA' & HA0 & HAth & HAup).
  destruct (to_display_tight w j s ltac:(lia) Hj Hs)
    as (W' & HW' & HW0 & _ & HWup).
  rewrite HA in HA'. rewrite HWd in HW'.
  injection HA' as <-. injection HW' as <-.
  pose proof Hs as [(ms & es & Hfs) [Hlo Hhi]].
  set (S := F2R s) in *. set (t := c - off).
  assert (1 ≤ t ≤ A + Wd) as Ht by (unfold t; lia).
  pose proof (bpow_pos (- j)). pose proof (bpow_pos (-27)).
  assert (0 < S)%R as HS by lra.
  assert (IZR x * S < IZR t)%R as Hlow.
  { destruct (Rlt_le_dec (IZR x * S) (IZR t)) as [|Hle]; [done|].
    apply HAth in Hle. lia. }
  assert (bpow (-27) + bpow (-27) = bpow (-26))%R as H26.
  { unfold bpow. simpl. lra. }
  assert (IZR t <= (IZR (x + w) + bpow (-26)) * S)%R as Hup.
  { assert (IZR t <= IZR A + IZR Wd)%R.
    { rewrite <- plus_IZR. apply IZR_le. lia. }
    rewrite plus_IZR, <- H26. nra. }
  assert (0 <= IZR (x + w) < bpow 24)%R as [Hxw0 Hxw24].
  { rewrite (bpow_IZR 24) by lia. split; [apply IZR_le|apply IZR_lt]; lia. }
  assert (bpow (-26) <= 1)%R as H26'.
  { change 1%R with (bpow 0). apply bpow_le. lia. }
  assert (bpow 24 + 1 <= bpow 26)%R as H2426.
  { rewrite !bpow_IZR by lia. rewrite <- plus_IZR. by apply IZR_le. }
  assert (t ≤ 2 ^ 52) as Ht52.
  { apply le_IZR. rewrite <- (bpow_IZR 52) by lia.
    assert (bpow 26 * bpow 24 <= bpow 52)%R.
    { rewrite <- bpow_add. apply bpow_le. lia. }
    pose proof (bpow_pos 26). nra. }
  destruct (of_int_pos t) as (mt & et & HT & Hv); [lia|].
  assert (F2R (of_int t) = IZR t) as Ht' by (unfold F2R; by rewrite HT).
  assert (IZR t / S <= IZR (x + w) + bpow (-26))%R as Hq.
  { by apply Rdiv_le_l. }
  assert (rounds_to (IZR t / S) 27 (Prim2SF (PrimFloat.div (of_int t) s)))
    as Hround.
  { rewrite <- Ht'. apply (fdiv_rounds _ _ _ _ _ _ 27 HT Hfs); [|lia].
    rewrite Ht'. change (27 - 1) with 26. fold S. lra. }
  destruct (to_int_floor _ _ _ Hround ltac:(lia)) as (r & Hr & Hfl1 & Hfl2).
  pose proof (rounds_to_near _ _ _ (-26) Hround ltac:(lia)) as [_ Hnear].
  destruct Hround as [_ Hth].
  destruct (Hth x 0 ltac:(lia)) as [Hxr _].
  rewrite bpow_0, Rmult_1_r in Hxr.
  assert (IZR x <= IZR t / S)%R as Hxq by (apply Rdiv_le_r; lra).
  specialize (Hxr Hxq).
  fold (F2R (PrimFloat.div (of_int t) s)) in Hxr, Hnear.
  exists (PrimFloat.div (of_int t) s), r.
  split; [by apply (truediv_finite _ _ _ _ Hfs)|]. split; [done|].
  split.
  - apply Z.lt_succ_r, lt_IZR. rewrite succ_IZR. lra.
  - apply Z.lt_succ_r, lt_IZR. rewrite succ_IZR, plus_IZR.
    rewrite plus_IZR in *.
    assert (bpow (-26) + bpow (-26) < 1)%R by (unfold bpow; simpl; lra).
    lra.
Qed.

End Layout.

(** In binary64, for a photo and a canvas with sides below [2^24] that
    [draw_image] has fitted: the fitted picture, which is what
    [draw_facebox] computes for a box that covers the whole photo, starts
    at the stored offset, lies inside the canvas, reaches the full width
    or the full height of the canvas to within one pixel, and is centred
    to within one pixel on each axis. *)
Theorem letterbox_fit (self v : App.view float) (iw ih cw ch : Z) :
  App.image self = Some (iw, ih) →
  0 < iw < 2 ^ 24 → 0 < ih < 2 ^ 24 → 1 < cw < 2 ^ 24 → 1 < ch < 2 ^ 24 →
  App.draw_image self cw ch = Ok v →
  ∃ x y w h,
    App.draw_facebox v (FaceBox.new 0 0 iw ih 0) = Ok (x, y, w, h) ∧
    (x, y) = App.offset v ∧
    0 ≤ x ∧ 0 ≤ y ∧ 0 < w ∧ 0 < h ∧ x + w ≤ cw ∧ y + h ≤ ch ∧
    (cw - 1 ≤ w ∨ ch - 1 ≤ h) ∧
    cw - w - 1 ≤ 2 * x ≤ cw - w ∧ ch - h - 1 ≤ 2 * y ≤ ch - h.
Proof.
  intros Himg Hiw Hih Hcw Hch Hdraw.
  destruct (draw_image_fit self v iw ih cw ch Himg Hiw Hih Hcw Hch Hdraw)
    as (nw & nh & Hnw & Hnh & Hw & Hh & Hside & Hoff & Hs).
  pose proof (Z.div_mod (cw - nw) 2 ltac:(lia)) as Hdx.
  pose proof (Z.mod_pos_bound (cw - nw) 2 ltac:(lia)) as Hmx.
  pose proof (Z.div_mod (ch - nh) 2 ltac:(lia)) as Hdy.
  pose proof (Z.mod_pos_bound (ch - nh) 2 ltac:(lia)) as Hmy.
  exists ((cw - nw) `div` 2), ((ch - nh) `div` 2), nw, nh.
  split_and!; try lia; [|by rewrite Hoff].
  unfold App.draw_facebox.
  cbn [FaceBox.new FaceBox.x FaceBox.y FaceBox.w FaceBox.h].
  by rewrite (to_int_fmul_0 24 _ Hs), Hnw, Hnh, Hoff.
Qed.

(** Once [draw_image] has fitted a photo, sides below [2^24], a click
    anywhere on the canvas is converted without an exception: the scale is
    a positive number that is neither too small nor too large for the
    division to be finite.  So [on_click] never raises
    [ZeroDivisionError], [OverflowError] or [ValueError]. *)
Theorem click_never_raises (self v : App.view float) (iw ih cw ch : Z)
    (faces : list FaceBox.t) (ex ey : Z) :
  App.image self = Some (iw, ih) →
  0 < iw < 2 ^ 24 → 0 < ih < 2 ^ 24 → 1 < cw < 2 ^ 24 → 1 < ch < 2 ^ 24 →
  App.draw_image self cw ch = Ok v →
  - 2 ^ 24 < ex < 2 ^ 24 → - 2 ^ 24 < ey < 2 ^ 24 →
  ∃ ix iy,
    App.canvas_to_image_coords v ex ey = Ok (ix, iy) ∧
    App.on_click v faces ex ey =
      Ok (match faces with [] => None | _ => App.hit_test faces ix iy end).
Proof.
  intros Himg Hiw Hih Hcw Hch Hdraw Hex Hey.
  destruct (draw_image_fit self v iw ih cw ch Himg Hiw Hih Hcw Hch Hdraw)
    as (nw & nh & _ & _ & Hw & Hh & _ & Hoff & Hs).
  pose proof (Z.div_mod (cw - nw) 2 ltac:(lia)) as Hdx.
  pose proof (Z.mod_pos_bound (cw - nw) 2 ltac:(lia)) as Hmx.
  pose proof (Z.div_mod (ch - nh) 2 ltac:(lia)) as Hdy.
  pose proof (Z.mod_pos_bound (ch - nh) 2 ltac:(lia)) as Hmy.
  destruct (click_axis_returns (ex - (App.offset v).1) 24 (App.scale v))
    as (ux & ix & Hux & Hix); [rewrite Hoff; cbn [fst]; lia|lia|done|].
  destruct (click_axis_returns (ey - (App.offset v).2) 24 (App.scale v))
    as (uy & iy & Huy & Hiy); [rewrite Hoff; cbn [snd]; lia|lia|done|].
  assert (App.canvas_to_image_coords v ex ey = Ok (ix, iy)) as Hclick.
  { unfold App.canvas_to_image_coords. rewrite Hux, Huy.
    cbn [mbind result_bind Py.bind]. by rewrite Hix, Hiy. }
  exists ix, iy. split; [done|].
  unfold App.on_click. rewrite Hclick. by destruct faces.
Qed.

(** Once [draw_image] has fitted a photo, sides below [2^24]: a click on
    the canvas beyond the drawn left and top edge of the rectangle of a
    face that lies within the photo, and not beyond its drawn right and
    bottom edge, is read back as an image point that the box of the face
    contains; so the click opens the dialog of a face whose box contains
    that point. *)
Theorem click_inside_drawn_box (self v : App.view float) (iw ih cw ch : Z)
    (faces : list FaceBox.t) (fb : FaceBox.t) (X Y W H cx cy : Z) :
  App.image self = Some (iw, ih) →
  0 < iw < 2 ^ 24 → 0 < ih < 2 ^ 24 → 1 < cw < 2 ^ 24 → 1 < ch < 2 ^ 24 →
  App.draw_image self cw ch = Ok v →
  0 ≤ FaceBox.x fb → 0 ≤ FaceBox.w fb → FaceBox.x fb + FaceBox.w fb ≤ iw →
  0 ≤ FaceBox.y fb → 0 ≤ FaceBox.h fb → FaceBox.y fb + FaceBox.h fb ≤ ih →
  fb ∈ faces →
  App.draw_facebox v fb = Ok (X, Y, W, H) →
  X < cx ≤ X + W → Y < cy ≤ Y + H →
  ∃ ix iy i fb',
    App.canvas_to_image_coords v cx cy = Ok (ix, iy) ∧
    FaceBox.contains fb ix iy = true ∧
    App.on_click v faces cx cy = Ok (Some (i, fb')) ∧
    FaceBox.contains fb' ix iy = true.
Proof.
  intros Himg Hiw Hih Hcw Hch Hfit Hx Hw Hxw Hy Hh Hyh Hin Hdraw Hcx Hcy.
  destruct (draw_image_fit self v iw ih cw ch Himg Hiw Hih Hcw Hch Hfit)
    as (_ & _ & _ & _ & _ & _ & _ & _ & Hs).
  unfold App.draw_facebox in Hdraw.
  destruct (to_int (fmul (of_int (FaceBox.x fb)) (App.scale v)))
    as [A|] eqn:HA; [|done].
  destruct (to_int (fmul (of_int (FaceBox.y fb)) (App.scale v)))
    as [B|] eqn:HB; [|done].
  destruct (to_int (fmul (of_int (FaceBox.w fb)) (App.scale v)))
    as [Wd|] eqn:HWd; [|done].
  destruct (to_int (fmul (of_int (FaceBox.h fb)) (App.scale v)))
    as [Hd|] eqn:HHd; [|done].
  cbn [mbind result_bind Py.bind] in Hdraw. injection Hdraw as <- <- <- <-.
  destruct (click_axis (FaceBox.x fb) (FaceBox.w fb) (App.offset v).1 cx 24
              (App.scale v) A Wd) as (ux & ix & Hux & Hix & Hxin);
    [lia..|done|done|done|lia|].
  destruct (click_axis (FaceBox.y fb) (FaceBox.h fb) (App.offset v).2 cy 24
              (App.scale v) B Hd) as (uy & iy & Huy & Hiy & Hyin);
    [lia..|done|done|done|lia|].
  assert (App.canvas_to_image_coords v cx cy = Ok (ix, iy)) as Hclick.
  { unfold App.canvas_to_image_coords. rewrite Hux, Huy.
    cbn [mbind result_bind Py.bind]. by rewrite Hix, Hiy. }
  assert (FaceBox.contains fb ix iy = true) as Hfb by (by apply contains_spec).
  destruct (App.hit_test faces ix iy) as [[i fb']|] eqn:Hhit.
  - exists ix, iy, i, fb'. split_and!; [done..| |].
    + unfold App.on_click. rewrite Hclick.
      destruct faces; [by apply elem_of_nil in Hin|]. by rewrite <- Hhit.
    + by apply hit_test_Some in Hhit as (_ & ? & _).
  - exfalso. rewrite hit_test_None in Hhit.
    specialize (Hhit fb Hin). congruence.
Qed.

(** ** Reloading the roster *)

(** Loading a roster from a file that has both required columns replaces
    the roster and nothing else: the batch, the list of present students
    and the photo stay as they were.  If a face is bound to a label beyond
    the rows of the new roster, it keeps it: from then on the list of
    present students cannot be rebuilt, and the report, which is still
    written, marks fewer students present than the batch has assigned. *)
Theorem reload_leaves_stale_labels (self : App.t) (f : Roster.frame) :
  "Admission_No" ∈ Roster.columns f → "Name" ∈ Roster.columns f →
  (App.load_roster self (Some (Ok f))).2 = None ∧
  App.faces (App.load_roster self (Some (Ok f))).1 = App.faces self ∧
  App.present_list (App.load_roster self (Some (Ok f))).1 =
    App.present_list self ∧
  App.photo_path (App.load_roster self (Some (Ok f))).1 =
    App.photo_path self ∧
  Roster.df (App.roster (App.load_roster self (Some (Ok f))).1) =
    Roster.row_of <$> Roster.records f ∧
  ∀ fb idx,
    fb ∈ App.faces self → FaceBox.assigned_idx fb = Some idx →
    (length (Roster.records f) ≤ idx)%nat →
    (∃ e, (App.refresh_present_list
             (App.load_roster self (Some (Ok f))).1).1 = Raise e) ∧
    (∀ now d rows,
       App.save_attendance (App.load_roster self (Some (Ok f))).1 now =
         Attendance.ToExcel d rows →
       (count_present rows < size (App.present_idxs (App.faces self)))%nat).
Proof.
  intros Hadm Hname.
  unfold App.load_roster, Roster.load_csv.
  rewrite bool_decide_eq_true_2 by done.
  cbn [fst snd App.set_roster App.faces App.present_list App.roster
         App.photo_path Roster.df].
  set (r := {| Roster.has_section := bool_decide ("Section" ∈ Roster.columns f);
               Roster.df := Roster.row_of <$> Roster.records f |}).
  set (self1 := App.set_roster r self).
  split_and!; [done..|].
  intros fb idx Hfb Hidx Hstale.
  assert (¬ assignments_valid (App.roster self1) (App.faces self1)) as Hbad.
  { intros Hv. specialize (Hv fb idx Hfb Hidx).
    cbn [self1 App.set_roster App.roster r Roster.df] in Hv.
    rewrite length_fmap in Hv. lia. }
  split.
  - unfold App.refresh_present_list in *.
    destruct (App.present_loop (App.roster self1) (App.faces self1) ∅ [])
      as [[[]|e] items] eqn:Hloop; cbn [fst]; [|by exists e].
    exfalso. apply Hbad. eapply present_loop_ok; [|done].
    by intros i ?%elem_of_empty.
  - intros now d rows Hsave.
    destruct (decide (Roster.df (App.roster self1) = [])) as [Hnil|Hrows].
    { unfold App.save_attendance in Hsave.
      by rewrite bool_decide_eq_true_2 in Hsave. }
    destruct (save_attendance_rows self1 now Hrows)
      as (rows' & Hsave' & _ & Hcount & _).
    rewrite Hsave' in Hsave. injection Hsave as _ <-.
    rewrite Hcount. apply subset_size. split.
    + apply intersection_subseteq_l.
    + intros Hsub.
      assert (idx ∈ App.present_idxs (App.faces self1)) as Hin.
      { apply elem_of_present_idxs. by exists fb. }
      apply Hsub, elem_of_intersection in Hin as [_ Hin].
      apply elem_of_set_seq in Hin.
      cbn [self1 App.set_roster App.roster r Roster.df] in Hin.
      rewrite length_fmap in Hin. lia.
Qed.

Lemma reload_leaves_stale_labels_witness :
  (App.load_roster Examples.app_reloaded (Some (Ok Examples.frame_ann))).2 =
    None ∧
  App.faces
    (App.load_roster Examples.app_reloaded (Some (Ok Examples.frame_ann))).1 =
    App.faces Examples.app_reloaded ∧
  App.present_list
    (App.load_roster Examples.app_reloaded (Some (Ok Examples.frame_ann))).1 =
    App.present_list Examples.app_reloaded ∧
  (∃ e, (App.refresh_present_list
           (App.load_roster Examples.app_reloaded
              (Some (Ok Examples.frame_ann))).1).1 = Raise e) ∧
  (∀ now d rows,
     App.save_attendance
       (App.load_roster Examples.app_reloaded
          (Some (Ok Examples.frame_ann))).1 now =
       Attendance.ToExcel d rows →
     (count_present rows <
      size (App.present_idxs (App.faces Examples.app_reloaded)))%nat).
Proof.
  destruct (reload_leaves_stale_labels Examples.app_reloaded
              Examples.frame_ann) as (Hnone & Hfaces & Hlist & _ & _ & Hstale).
  - simpl. left.
  - simpl. right. left.
  - destruct (Hstale (FaceBox.set_assigned_idx (Some 5%nat) Examples.faceA)
                5%nat) as [Hraise Hreport].
    + simpl. left.
    + reflexivity.
    + simpl. lia.
    + split; [exact Hnone|]. split; [exact Hfaces|].
      split; [exact Hlist|]. split; [exact Hraise|exact Hreport].
Defined.

Lemma remove_only_binding_witness :
  ∃ self',
    App.remove_selected Examples.app_ann [0%nat] = (Ok (), self') ∧
    App.faces self' =
      alter (FaceBox.set_assigned_idx None) 0%nat
        (App.faces Examples.app_ann) ∧
    (0%nat ∉ App.present_idxs (App.faces self')) ∧
    ("Ann  —  A001" ∉ App.present_list self') ∧
    ∃ rows rec,
      App.save_attendance self' Examples.ticking =
        Attendance.ToExcel (Examples.ticking 0%nat) rows ∧
      rows !! 0%nat = Some rec ∧
      Attendance.Status rec = Attendance.Absent.
Proof.
  apply (remove_only_binding Examples.app_ann Examples.ticking 0%nat
           "Ann  —  A001" 0%nat [] 0%nat
           (FaceBox.set_assigned_idx (Some 0%nat) Examples.faceA)).
  - intros fb idx Hin Hidx.
    apply elem_of_cons in Hin as [->|Hin];
      [|apply elem_of_cons in Hin as [->|Hin];
        [|by apply elem_of_nil in Hin]];
      simpl in Hidx; [injection Hidx as <-; simpl; lia|discriminate].
  - reflexivity.
  - reflexivity.
  - reflexivity.
  - reflexivity.
  - intros [|[|j]] fb idx Hj Hfb Hidx; simpl in Hfb.
    + lia.
    + injection Hfb as <-. discriminate.
    + discriminate.
Defined.

Lemma reassign_and_remove_same_face_witness :
  App.reassign_selected Examples.app_ann_twice [0%nat] = Some 0%nat ∧
  App.faces (App.remove_selected Examples.app_ann_twice [0%nat]).2 =
    alter (FaceBox.set_assigned_idx None) 0%nat
      (App.faces Examples.app_ann_twice).
Proof.
  apply (reassign_and_remove_same_face Examples.app_ann_twice 0%nat
           "Ann  —  A001" 0%nat [] 0%nat
           (FaceBox.set_assigned_idx (Some 0%nat) Examples.faceA)).
  - intros fb idx Hin Hidx.
    apply elem_of_cons in Hin as [->|Hin];
      [|apply elem_of_cons in Hin as [->|Hin];
        [|by apply elem_of_nil in Hin]];
      simpl in Hidx; injection Hidx as <-; simpl; lia.
  - reflexivity.
  - reflexivity.
  - intros [|[|idx]] Hidx; [reflexivity|discriminate|discriminate].
  - reflexivity.
  - reflexivity.
  - intros j fb Hj. lia.
Defined.

Lemma open_photo_discards_batch_witness :
  let out :=
    App.open_photo Examples.app_ann_twice Examples.photo_800x600
      "/photos/next.jpg" (Ok (1600, 1200)) 400 400 in
  App.roster out.1.1 = App.roster Examples.app_ann_twice ∧
  App.photo_path out.1.1 = Some "/photos/next.jpg" ∧
  App.faces out.1.1 = [] ∧
  App.image out.1.2 = Some (1600, 1200) ∧
  (out.2 = None → App.present_list out.1.1 = []) ∧
  (∀ e, out.2 = Some e →
        App.present_list out.1.1 = App.present_list Examples.app_ann_twice ∧
        App.scale out.1.2 = App.scale Examples.photo_800x600 ∧
        App.offset out.1.2 = App.offset Examples.photo_800x600) ∧
  (∀ now d rows,
     App.save_attendance out.1.1 now = Attendance.ToExcel d rows →
     Forall
       (λ rec, Attendance.Status rec = Attendance.Absent ∧
               Attendance.Photo rec = App.basename "/photos/next.jpg") rows).
Proof.
  apply (open_photo_discards_batch Examples.app_ann_twice
           Examples.photo_800x600 "/photos/next.jpg" (1600, 1200) 400 400).
  discriminate.
Defined.

Lemma letterbox_fit_witness :
  ∃ x y w h,
    App.draw_facebox Examples.photo_1600x1200_fitted
      (FaceBox.new 0 0 1600 1200 0) = Ok (x, y, w, h) ∧
    (x, y) = App.offset Examples.photo_1600x1200_fitted ∧
    0 ≤ x ∧ 0 ≤ y ∧ 0 < w ∧ 0 < h ∧ x + w ≤ 400 ∧ y + h ≤ 400 ∧
    (400 - 1 ≤ w ∨ 400 - 1 ≤ h) ∧
    400 - w - 1 ≤ 2 * x ≤ 400 - w ∧ 400 - h - 1 ≤ 2 * y ≤ 400 - h.
Proof.
  apply (letterbox_fit Examples.photo_1600x1200
           Examples.photo_1600x1200_fitted 1600 1200 400 400).
  - reflexivity.
  - lia.
  - lia.
  - lia.
  - lia.
  - vm_compute. reflexivity.
Defined.

Lemma click_never_raises_witness :
  ∃ ix iy,
    App.canvas_to_image_coords Examples.photo_1600x1200_fitted 15 65 =
      Ok (ix, iy) ∧
    App.on_click Examples.photo_1600x1200_fitted
      [Examples.faceA; Examples.faceB] 15 65 =
      Ok (App.hit_test [Examples.faceA; Examples.faceB] ix iy).
Proof.
  apply (click_never_raises Examples.photo_1600x1200
           Examples.photo_1600x1200_fitted 1600 1200 400 400
           [Examples.faceA; Examples.faceB] 15 65).
  - reflexivity.
  - lia.
  - lia.
  - lia.
  - lia.
  - vm_compute. reflexivity.
  - lia.
  - lia.
Defined.

Lemma click_inside_drawn_box_witness :
  ∃ ix iy i fb',
    App.canvas_to_image_coords Examples.photo_1600x1200_fitted 15 65 =
      Ok (ix, iy) ∧
    FaceBox.contains Examples.faceB ix iy = true ∧
    App.on_click Examples.photo_1600x1200_fitted
      [Examples.faceA; Examples.faceB] 15 65 = Ok (Some (i, fb')) ∧
    FaceBox.contains fb' ix iy = true.
Proof.
  apply (click_inside_drawn_box Examples.photo_1600x1200
           Examples.photo_1600x1200_fitted 1600 1200 400 400
           [Examples.faceA; Examples.faceB] Examples.faceB 10 60 12 12 15 65).
  - reflexivity.
  - lia.
  - lia.
  - lia.
  - lia.
  - vm_compute. reflexivity.
  - simpl. lia.
  - simpl. lia.
  - simpl. lia.
  - simpl. lia.
  - simpl. lia.
  - simpl. lia.
  - right. left.
  - vm_compute. reflexivity.
  - lia.
  - lia.
Defined.
